(** * The query compiler of codex.go: classification, store probe, ordering
      and per-variable resolution.

    The Go code works on pointers ([*Reference], [*Cursor]) that are shared
    between the codex map, the assignments and the [Past] structures.  The
    embedding keeps that sharing: References and Cursors live in a heap and
    are addressed by their index in it.  Go leaves the order in which [range]
    visits a map unspecified; every such loop of the source takes its visiting
    order from a [Sched], and a valid order is any rearrangement of the keys. *)

From Stdlib Require Import ZArith Lia.
From Stdlib.Strings Require Import Byte.
From stdpp Require Import base tactics option list gmap strings sorting.

Abbreviation ptr := nat (only parsing).

(** ** Results of fallible code *)

(** The errors the two entry points can return. *)
Inductive error :=
| StoreError (e : string)      (* an error of txn.Get or item.ValueCopy, passed on unchanged *)
| SingleCountZero (ref : ptr)  (* "Single reference count of zero: %s" *)
| DoubleCountZero (ref : ptr)  (* "Double reference count of zero: %s" *)
| EmptyIntersect (id : string) (* "Assignment's static intersect is empty: %v" *)
| AllBlankTriple.              (* "Cannot handle all-blank triple" *)

(** [Ok] is a return with a nil error, [Err] a return of [nil, nil, err],
    [Panic] a Go run-time panic (nil dereference, index out of range). *)
Inductive result (A : Type) :=
| Ok (a : A)
| Err (e : error)
| Panic.
Arguments Ok {A} a.
Arguments Err {A} e.
Arguments Panic {A}.

#[global] Instance result_ret : MRet result := fun _ a => Ok a.
#[global] Instance result_bind : MBind result := fun _ _ k m =>
  match m with
  | Ok a => k a
  | Err e => Err e
  | Panic => Panic
  end.

Definition isOk {A} (r : result A) : bool :=
  match r with Ok _ => true | _ => false end.

(** A [for ... range] over a slice whose body can return early. *)
Fixpoint foldM {A B} (f : B -> A -> result B) (l : list A) (b : B) : result B :=
  match l with
  | [] => Ok b
  | x :: l' => b' ← f b x; foldM f l' b'
  end.

(** The same with the loop index, counted from [i]. *)
Fixpoint foldMi {A B} (f : B -> nat -> A -> result B) (i : nat) (l : list A) (b : B)
  : result B :=
  match l with
  | [] => Ok b
  | x :: l' => b' ← f b i x; foldMi f (S i) l' b'
  end.

(** ** Iteration order of Go maps *)

Record RangeOrder (K : Type) := {
  visit : list K -> list K;
  visit_perm : forall l, visit l ≡ₚ l
}.
Arguments visit {K} _ _.
Arguments visit_perm {K} _ _.

(** [for k, v := range m]: the entries of [m], in the order [o] picks. *)
Definition range `{Countable K} {A} (o : RangeOrder K) (m : gmap K A) : list (K * A) :=
  omap (fun k => pair k <$> m !! k) (visit o (fst <$> map_to_list m)).

Program Definition inOrder {K} : RangeOrder K := {| visit := fun l => l |}.
Next Obligation. reflexivity. Qed.

Program Definition backwards {K} : RangeOrder K := {| visit := fun l => reverse l |}.
Next Obligation. intros. apply reverse_Permutation. Qed.

(** One visiting order for every [range] over a map in the source. *)
Record Sched := {
  sGraphs : RangeOrder string;        (* dataset.Graphs, getInitalCodexMap *)
  sIndex  : RangeOrder string;        (* c.Index, probe loop *)
  sProbe  : string -> RangeOrder string; (* codex.Double of each codex, probe loop *)
  sDouble : nat -> RangeOrder string; (* codex.Double at position i, resolution *)
  sDeps   : nat -> RangeOrder nat     (* deps at position i, resolution *)
}.

(** ** Data model *)

(** ld.Node: the three node kinds of json-gold. *)
Inductive Node :=
| IRI (value : string)
| Literal (value datatype language : string)
| BlankNode (attribute : string).

#[global] Instance Node_eq_dec : EqDecision Node.
Proof. solve_decision. Defined.

(** ld.Quad, without its Graph field, which the compiler never reads. *)
Record Quad := {
  Subject : Node;
  Predicate : Node;
  Object : Node
}.

(** ld.RDFDataset: Graphs is a Go map from graph name to quads. *)
Record RDFDataset := { Graphs : gmap string (list Quad) }.

Module Cursor.
(** The fields of Cursor that codex.go touches. *)
Record t := mk {
  Count : Z;       (* uint64 *)
  ID : string;
  Index : nat
}.
(** [&Cursor{}] *)
Definition zero : t := mk 0 "" 0.
Definition setCount (n : Z) (c : t) : t := mk n (ID c) (Index c).
Definition setID (id : string) (c : t) : t := mk (Count c) id (Index c).
Definition setIndex (k : nat) (c : t) : t := mk (Count c) (ID c) k.
End Cursor.

Module Reference.
(** Reference, in the field order of the literal in makeReference.  M and N
    are interfaces and Cursor and Dual pointers: all four can be nil. *)
Record t := mk {
  Graph : string;
  Index : nat;
  Permutation : Z; (* byte *)
  M : option Node;
  N : option Node;
  Cursor : option ptr;
  Dual : option ptr
}.
Definition setCursor (c : option ptr) (r : t) : t :=
  mk (Graph r) (Index r) (Permutation r) (M r) (N r) c (Dual r).
Definition setDual (d : option ptr) (r : t) : t :=
  mk (Graph r) (Index r) (Permutation r) (M r) (N r) (Cursor r) d.
End Reference.

(** The heap: every Reference and every Cursor allocated so far. *)
Record Heap := {
  refs : list Reference.t;
  cursors : list Cursor.t
}.

Definition emptyHeap : Heap := {| refs := []; cursors := [] |}.

Module Codex.
(** A nil Double map reads like an empty one; it is written only after
    InsertDouble has replaced it, so the empty map stands for both. *)
Record t := mk {
  Constraint : list ptr;
  Single : list ptr;
  Double : gmap string (list ptr);
  Norm : Z;    (* uint64 *)
  Length : Z;  (* int *)
  Count : Z    (* uint64 *)
}.
(** [&Codex{}] *)
Definition zero : t := mk [] [] ∅ 0 0 0.
Definition setConstraint (l : list ptr) (c : t) : t :=
  mk l (Single c) (Double c) (Norm c) (Length c) (Count c).
Definition setSingle (l : list ptr) (c : t) : t :=
  mk (Constraint c) l (Double c) (Norm c) (Length c) (Count c).
Definition setDouble (d : gmap string (list ptr)) (c : t) : t :=
  mk (Constraint c) (Single c) d (Norm c) (Length c) (Count c).
Definition setCount (n : Z) (c : t) : t :=
  mk (Constraint c) (Single c) (Double c) (Norm c) (Length c) n.
End Codex.

Module CodexMap.
Record t := mk {
  Index : gmap string Codex.t;
  Slice : list string
}.
(** [&CodexMap{}] *)
Definition zero : t := mk ∅ [].
End CodexMap.

(** sort.Stable and sort.Sort belong to the Go standard library.  They are
    modelled by their contract: an insertion sort that moves an element in
    front of the first one it is Less than, which keeps equal elements in
    their original order. *)
Section Sorting.
Context {A : Type} (less : A -> A -> bool).

Fixpoint insertSorted (x : A) (l : list A) : list A :=
  match l with
  | [] => [x]
  | y :: l' => if less x y then x :: y :: l' else y :: insertSorted x l'
  end.

Definition sortStable (l : list A) : list A :=
  foldl (fun acc x => insertSorted x acc) [] l.
End Sorting.

Module Past.
(** Modelled from the spec: the Past type and its methods Push, insertIndex
    and sortOrder are not in src.  Past holds the flat Cursor sequence, the
    pushed dependency groups with the position of their variable, and an
    index from (other variable id, offset in its group) to the offset in
    the Cursor sequence; sortOrder sorts the pushed groups by position,
    stably.  Only the Cursors field is written by codex.go itself. *)
Record t := mk {
  Cursors : list ptr;
  Groups : list (string * nat * list ptr);
  Indices : list (string * nat * nat)
}.
(** [&Past{}] *)
Definition zero : t := mk [] [] [].
Definition Push (dep : string) (j : nat) (rs : list ptr) (p : t) : t :=
  mk (Cursors p) (Groups p ++ [(dep, j, rs)]) (Indices p).
Definition insertIndex (dep : string) (k : nat) (off : nat) (p : t) : t :=
  mk (Cursors p) (Groups p) (Indices p ++ [(dep, k, off)]).
Definition appendCursor (c : ptr) (p : t) : t :=
  mk (Cursors p ++ [c]) (Groups p) (Indices p).
Definition sortOrder (p : t) : t :=
  mk (Cursors p)
     (sortStable (fun x y => bool_decide (x.1.2 < y.1.2)) (Groups p))
     (Indices p).
End Past.

Module Assignment.
(** The fields of Assignment that codex.go touches.  [V] is the type of a
    non-nil ValueRoot. *)
Record t (V : Type) := mk {
  Constraint : list ptr;
  Present : list ptr;
  Past : Past.t;
  Future : gmap string (list ptr);
  Dependencies : list nat;
  ValueRoot : option V
}.
Arguments mk {V}.
Arguments Constraint {V}.
Arguments Present {V}.
Arguments Past {V}.
Arguments Future {V}.
Arguments Dependencies {V}.
Arguments ValueRoot {V}.
Definition setPast {V} (p : Past.t) (a : t V) : t V :=
  mk (Constraint a) (Present a) p (Future a) (Dependencies a) (ValueRoot a).
Definition setFuture {V} (f : gmap string (list ptr)) (a : t V) : t V :=
  mk (Constraint a) (Present a) (Past a) f (Dependencies a) (ValueRoot a).
Definition setDependencies {V} (d : list nat) (a : t V) : t V :=
  mk (Constraint a) (Present a) (Past a) (Future a) d (ValueRoot a).
Definition withValueRoot {V} (v : option V) (a : t V) : t V :=
  mk (Constraint a) (Present a) (Past a) (Future a) (Dependencies a) v.
End Assignment.

(** ** Heap access *)

(** [&Cursor{}] *)
Definition newCursor (h : Heap) : Heap * ptr :=
  ({| refs := refs h; cursors := cursors h ++ [Cursor.zero] |}, length (cursors h)).

(** [&Reference{...}] *)
Definition newReference (r : Reference.t) (h : Heap) : Heap * ptr :=
  ({| refs := refs h ++ [r]; cursors := cursors h |}, length (refs h)).

Definition updReference (p : ptr) (f : Reference.t -> Reference.t) (h : Heap) : Heap :=
  {| refs := alter f p (refs h); cursors := cursors h |}.

Definition updCursor (p : ptr) (f : Cursor.t -> Cursor.t) (h : Heap) : Heap :=
  {| refs := refs h; cursors := alter f p (cursors h) |}.

(** ** The store *)

(** What txn.Get answers for a key: badger.ErrKeyNotFound, another error, or
    an item whose ValueCopy gives an error or the stored bytes. *)
Inductive GetResult :=
| ErrKeyNotFound
| GetError (e : string)
| Item (value : string + list byte).

Definition Txn := list byte -> GetResult.

(** binary.BigEndian.Uint64: the first eight bytes, most significant first;
    a shorter slice panics. *)
Definition Uint64 (b : list byte) : option Z :=
  if decide (length b < 8) then None
  else Some (foldl (fun acc x => acc * 256 + Z.of_N (Byte.to_N x))%Z 0%Z (take 8 b)).

Definition wrap64 (n : Z) : Z := (n mod 2 ^ 64)%Z.

(** Two's complement wrap-around of Go's 64-bit int. *)
Definition wrapInt (n : Z) : Z := ((n + 2 ^ 63) mod 2 ^ 64 - 2 ^ 63)%Z.

(** getCount.  The [count] buffer it takes and returns is only reused as
    storage by ValueCopy, so the count depends on the key and the store
    alone and the buffer is left out. *)
Definition getCount (key : list byte) (txn : Txn) : result Z :=
  match txn key with
  | ErrKeyNotFound => Ok 0%Z
  | GetError e => Err (StoreError e)
  | Item (inl e) => Err (StoreError e)
  | Item (inr count) =>
      match Uint64 count with
      | Some n => Ok n
      | None => Panic
      end
  end.

(** ** The compiler *)

Definition asBlank (n : Node) : option string :=
  match n with
  | BlankNode attribute => Some attribute
  | _ => None
  end.

(** The permutation bytes, which are declared outside src. *)
Record Permutations := {
  constantPermutation : Z;
  permutationA : Z;
  permutationB : Z;
  permutationC : Z;
  permutationAB : Z;
  permutationBC : Z;
  permutationCA : Z
}.

Section Compiler.
Context {V : Type}.

Variable perms : Permutations.

(** ref.assembleCountKey(nil, major) is declared outside src: it gives the
    key to probe and the next value of the [major] flag. *)
Variable assembleCountKey : Reference.t -> bool -> list byte * bool.

(** The read transaction. *)
Variable txn : Txn.

(** Modelled from the spec: Assignment.setValueRoot is not in src.  It
    computes the ValueRoot field (the intersection of the candidate sets of
    the Present references, nil when empty) and writes no other field. *)
Variable setValueRoot : Heap -> Assignment.t V -> option V.

(** *** CodexMap *)

(** GetCodex returns a pointer into the map; the embedding returns the
    codex read and [putCodex] writes the changed codex back. *)
Definition GetCodex (c : CodexMap.t) (id : string) : CodexMap.t * Codex.t :=
  match CodexMap.Index c !! id with
  | Some codex => (c, codex)
  | None =>
      (CodexMap.mk (<[id := Codex.zero]> (CodexMap.Index c)) (CodexMap.Slice c ++ [id]),
       Codex.zero)
  end.

Definition putCodex (id : string) (codex : Codex.t) (c : CodexMap.t) : CodexMap.t :=
  CodexMap.mk (<[id := codex]> (CodexMap.Index c)) (CodexMap.Slice c).

Definition InsertDouble (c : CodexMap.t) (a b : string) (ref : ptr) : CodexMap.t :=
  let '(c, codex) := GetCodex c a in
  let rs :=
    match Codex.Double codex !! b with
    | Some rs => rs ++ [ref]
    | None => [ref]
    end in
  putCodex a (Codex.setDouble (<[b := rs]> (Codex.Double codex)) codex) c.

(** *** Classification *)

Definition makeReference (h : Heap) (graph : string) (index : nat) (permutation : Z)
    (m n : option Node) : Heap * ptr :=
  let '(h, cur) := newCursor h in
  newReference (Reference.mk graph index permutation m n (Some cur) None) h.

(** The branch of a variable that occupies two positions. *)
Definition insertConstraint (h : Heap) (codexMap : CodexMap.t) (graph : string)
    (index : nat) (permutation : Z) (n : Node) (a : string) : Heap * CodexMap.t :=
  let '(h, ref) := makeReference h graph index permutation None (Some n) in
  let '(codexMap, codex) := GetCodex codexMap a in
  (h, putCodex a (Codex.setConstraint (Codex.Constraint codex ++ [ref]) codex) codexMap).

(** The branch of two distinct variables [a] and [b]: [ma], [na] are the M
    and N of a's reference, [mb], [nb] those of b's. *)
Definition insertPair (h : Heap) (codexMap : CodexMap.t) (graph : string) (index : nat)
    (a : string) (pa : Z) (ma na : Node) (b : string) (pb : Z) (mb nb : Node)
    : Heap * CodexMap.t :=
  let '(h, refA) := makeReference h graph index pa (Some ma) (Some na) in
  let '(h, refB) := makeReference h graph index pb (Some mb) (Some nb) in
  let codexMap := InsertDouble codexMap a b refA in
  let codexMap := InsertDouble codexMap b a refB in
  let h := updReference refA (Reference.setDual (Some refB)) h in
  let h := updReference refB (Reference.setDual (Some refA)) h in
  (h, codexMap).

(** The body of the inner loop of getInitalCodexMap. *)
Definition classify (graph : string) (st : Heap * list ptr * CodexMap.t) (index : nat)
    (quad : Quad) : result (Heap * list ptr * CodexMap.t) :=
  let '(h, constants, codexMap) := st in
  let A := bool_decide (is_Some (asBlank (Subject quad))) in
  let a := default "" (asBlank (Subject quad)) in
  let B := bool_decide (is_Some (asBlank (Predicate quad))) in
  let b := default "" (asBlank (Predicate quad)) in
  let C := bool_decide (is_Some (asBlank (Object quad))) in
  let c := default "" (asBlank (Object quad)) in
  if negb A && negb B && negb C then
    let '(h, ref) := makeReference h graph index (constantPermutation perms) None None in
    Ok (h, constants ++ [ref], codexMap)
  else if (A && negb B && negb C) || (negb A && B && negb C) || (negb A && negb B && C) then
    let ref :=
      if A then
        Reference.mk graph index 0 (Some (Predicate quad)) (Some (Object quad)) None None
      else if B then
        Reference.mk graph index 1 (Some (Object quad)) (Some (Subject quad)) None None
      else if C then
        Reference.mk graph index 2 (Some (Subject quad)) (Some (Predicate quad)) None None
      else Reference.mk graph index 0 None None None None in
    let '(h, ref) := newReference ref h in
    let pivot := a +:+ b +:+ c in
    let '(codexMap, codex) := GetCodex codexMap pivot in
    Ok (h, constants, putCodex pivot (Codex.setSingle (Codex.Single codex ++ [ref]) codex) codexMap)
  else if A && B && negb C then
    if decide (a = b) then
      let '(h, codexMap) := insertConstraint h codexMap graph index (permutationAB perms) (Object quad) a in
      Ok (h, constants, codexMap)
    else
      let '(h, codexMap) :=
        insertPair h codexMap graph index
          a (permutationA perms) (Predicate quad) (Object quad)
          b (permutationB perms) (Object quad) (Subject quad) in
      Ok (h, constants, codexMap)
  else if A && negb B && C then
    if decide (c = a) then
      let '(h, codexMap) := insertConstraint h codexMap graph index (permutationCA perms) (Predicate quad) c in
      Ok (h, constants, codexMap)
    else
      let '(h, codexMap) :=
        insertPair h codexMap graph index
          a (permutationA perms) (Predicate quad) (Object quad)
          c (permutationC perms) (Subject quad) (Predicate quad) in
      Ok (h, constants, codexMap)
  else if negb A && B && C then
    if decide (b = c) then
      let '(h, codexMap) := insertConstraint h codexMap graph index (permutationBC perms) (Subject quad) b in
      Ok (h, constants, codexMap)
    else
      let '(h, codexMap) :=
        insertPair h codexMap graph index
          b (permutationB perms) (Object quad) (Subject quad)
          c (permutationC perms) (Subject quad) (Predicate quad) in
      Ok (h, constants, codexMap)
  else if A && B && C then Err AllBlankTriple
  else Ok st.

Definition getInitalCodexMap (s : Sched) (dataset : RDFDataset)
    : result (Heap * list ptr * CodexMap.t) :=
  foldM (fun st '(graph, quads) => foldMi (classify graph) 0 quads st)
        (range (sGraphs s) (Graphs dataset))
        (emptyHeap, [], CodexMap.zero).

(** *** Probe phase *)

(** [codex.Count += n], [codex.Norm += n * n] and [codex.Length++]. *)
Definition account (n : Z) (codex : Codex.t) : Codex.t :=
  Codex.mk (Codex.Constraint codex) (Codex.Single codex) (Codex.Double codex)
    (wrap64 (Codex.Norm codex + wrap64 (n * n)))
    (wrapInt (Codex.Length codex + 1))
    (wrap64 (Codex.Count codex + n)).

(** The body of both inner probe loops; [zero] is the error of a zero
    count.  The three results of getCount are assigned before [err] is
    tested, and on an error the function returns at once. *)
Definition probeRef (zero : ptr -> error) (st : Heap * bool * Codex.t) (ref : ptr)
    : result (Heap * bool * Codex.t) :=
  let '(h, major, codex) := st in
  match refs h !! ref with
  | None => Panic
  | Some r =>
      let '(key, major) := assembleCountKey r major in
      let '(h, cur) := newCursor h in
      let h := updReference ref (Reference.setCursor (Some cur)) h in
      n ← getCount key txn;
      let h := updCursor cur (Cursor.setCount n) h in
      if decide (n = 0)%Z then Err (zero ref)
      else
        Ok (h, major, account n codex)
  end.

(** The body of the loop over c.Index: the codex is changed in place. *)
Definition probeCodex (s : Sched) (st : Heap * bool * gmap string Codex.t)
    (entry : string * Codex.t) : result (Heap * bool * gmap string Codex.t) :=
  let '(h, major, index) := st in
  let '(id, codex) := entry in
  let codex := Codex.setCount 0 codex in
  '(h, major, codex) ← foldM (probeRef SingleCountZero) (Codex.Single codex) (h, major, codex);
  '(h, major, codex) ←
    foldM (fun st '(_, rs) => foldM (probeRef DoubleCountZero) rs st)
          (range (sProbe s id) (Codex.Double codex)) (h, major, codex);
  Ok (h, major, <[id := codex]> index).

Definition probePhase (s : Sched) (c : CodexMap.t) (h : Heap) : result (CodexMap.t * Heap) :=
  '(h, _, index) ←
    foldM (probeCodex s) (range (sIndex s) (CodexMap.Index c)) (h, false, CodexMap.Index c);
  Ok (CodexMap.mk index (CodexMap.Slice c), h).

(** *** Ordering phase *)

Definition countOf (c : CodexMap.t) (id : string) : Z :=
  from_option Codex.Count 0%Z (CodexMap.Index c !! id).

(** CodexMap.Less, on the ids at the two positions. *)
Definition Less (c : CodexMap.t) (a b : string) : bool :=
  bool_decide (countOf c a > countOf c b)%Z.

(** sort.Stable(c).  Less dereferences c.Index[id]: with two ids or more
    every id is compared, and one without a codex panics. *)
Definition Stable (c : CodexMap.t) : result CodexMap.t :=
  if decide (2 <= length (CodexMap.Slice c)
             /\ ¬ Forall (fun id => is_Some (CodexMap.Index c !! id)) (CodexMap.Slice c))
  then Panic
  else Ok (CodexMap.mk (CodexMap.Index c) (sortStable (Less c) (CodexMap.Slice c))).

(** *** Per-variable resolution *)

(** The body of [for k, ref := range refs]. *)
Definition pastRef (dep : string) (st : Heap * Past.t) (k : nat) (ref : ptr)
    : result (Heap * Past.t) :=
  let '(h, past) := st in
  match refs h !! ref with
  | None => Panic
  | Some r =>
      match Reference.Cursor r with
      | None => Panic
      | Some cur =>
          let h := updCursor cur (Cursor.setID dep) h in
          let h := updCursor cur (Cursor.setIndex k) h in
          let past := Past.insertIndex dep k (length (Past.Cursors past)) past in
          Ok (h, Past.appendCursor cur past)
      end
  end.

(** [if j > deps[k] { deps[k] = j }]: a key that is not in the map reads 0. *)
Definition raiseDep (j : nat) (deps : gmap nat nat) (k : nat) : gmap nat nat :=
  if decide (default 0 (deps !! k) < j) then <[k := j]> deps else deps.

(** The body of [for dep, refs := range codex.Double].  [index] already
    holds the assignment of the variable being resolved, with no
    Dependencies yet. *)
Definition resolveGroup (indexMap : gmap string nat) (index : gmap string (Assignment.t V))
    (st : Heap * Assignment.t V * gmap nat nat) (entry : string * list ptr)
    : result (Heap * Assignment.t V * gmap nat nat) :=
  let '(h, a, deps) := st in
  let '(dep, rs) := entry in
  match indexMap !! dep with
  | Some j =>
      let past := Past.Push dep j rs (Assignment.Past a) in
      '(h, past) ← foldMi (pastRef dep) 0 rs (h, past);
      let deps := raiseDep j deps j in
      match index !! dep with
      | None => Panic
      | Some adep =>
          let deps := foldl (raiseDep j) deps (Assignment.Dependencies adep) in
          Ok (h, Assignment.setPast past a, deps)
      end
  | None => Ok (h, Assignment.setFuture (<[dep := rs]> (Assignment.Future a)) a, deps)
  end.

(** Modelled from the spec: the Less of the type of Dependencies is not in
    src; the positions are sorted in increasing order. *)
Definition sortDependencies (l : list nat) : list nat := sortStable Nat.ltb l.

(** The body of [for i, id := range c.Slice], up to and with the call of
    setValueRoot: the heap, the assignment map holding the new assignment
    under [id], the position map, and the new assignment. *)
Definition resolveAssignment (s : Sched) (c : CodexMap.t)
    (st : Heap * gmap string (Assignment.t V) * gmap string nat) (i : nat) (id : string)
    : result (Heap * gmap string (Assignment.t V) * gmap string nat * Assignment.t V) :=
  let '(h, index, indexMap) := st in
  let indexMap := <[id := i]> indexMap in
  match CodexMap.Index c !! id with
  | None => Panic
  | Some codex =>
      let a := Assignment.mk (Codex.Constraint codex) (Codex.Single codex) Past.zero ∅ [] None in
      let index := <[id := a]> index in
      '(h, a, deps) ←
        foldM (resolveGroup indexMap index) (range (sDouble s i) (Codex.Double codex)) (h, a, ∅);
      let a := Assignment.setPast (Past.sortOrder (Assignment.Past a)) a in
      let a := Assignment.setDependencies
                 (sortDependencies (fst <$> range (sDeps s i) deps)) a in
      let a := Assignment.withValueRoot (setValueRoot h a) a in
      Ok (h, <[id := a]> index, indexMap, a)
  end.

(** The whole body: the test of ValueRoot ends it. *)
Definition resolveVariable (s : Sched) (c : CodexMap.t)
    (st : Heap * gmap string (Assignment.t V) * gmap string nat) (i : nat) (id : string)
    : result (Heap * gmap string (Assignment.t V) * gmap string nat) :=
  '(h, index, indexMap, a) ← resolveAssignment s c st i id;
  match Assignment.ValueRoot a with
  | None => Err (EmptyIntersect id)
  | Some _ => Ok (h, index, indexMap)
  end.

Definition resolvePhase (s : Sched) (c : CodexMap.t) (h : Heap)
    : result (Heap * gmap string (Assignment.t V)) :=
  '(h, index, _) ← foldMi (resolveVariable s c) 0 (CodexMap.Slice c) (h, ∅, ∅);
  Ok (h, index).

(** getAssignmentTree changes the codex map and the references in place and
    returns c.Slice and the assignment map: the result is the changed
    codex map, whose Slice is the returned order, the heap and the map. *)
Definition getAssignmentTree (s : Sched) (c : CodexMap.t) (h : Heap)
    : result (CodexMap.t * Heap * gmap string (Assignment.t V)) :=
  '(c, h) ← probePhase s c h;
  c ← Stable c;
  '(h, index) ← resolvePhase s c h;
  Ok (c, h, index).

(** The full compilation. *)
Definition compile (s : Sched) (dataset : RDFDataset)
    : result (CodexMap.t * Heap * gmap string (Assignment.t V)) :=
  '(h, _, c) ← getInitalCodexMap s dataset;
  getAssignmentTree s c h.

End Compiler.

(** ** Concrete stores, schedules and datasets used by the examples *)

Definition quad (s p o : Node) : Quad := {| Subject := s; Predicate := p; Object := o |}.

(** A store in which every key holds the counter 1. *)
Definition storeOfOnes : Txn :=
  fun _ => Item (inr [x00; x00; x00; x00; x00; x00; x00; x01]%byte).

(** A store with no key at all. *)
Definition emptyStore : Txn := fun _ => ErrKeyNotFound.

(** A count key that ignores the reference. *)
Definition plainKey : Reference.t -> bool -> list byte * bool := fun _ major => ([], major).

Definition somePermutations : Permutations :=
  {| constantPermutation := 6; permutationA := 0; permutationB := 1; permutationC := 2;
     permutationAB := 3; permutationBC := 4; permutationCA := 5 |}.

(** Every map is visited in the order of [map_to_list]. *)
Definition sched0 : Sched :=
  {| sGraphs := inOrder; sIndex := inOrder; sProbe := fun _ => inOrder;
     sDouble := fun _ => inOrder; sDeps := fun _ => inOrder |}.

(** As [sched0], but dataset.Graphs is visited in the opposite order. *)
Definition sched1 : Sched :=
  {| sGraphs := backwards; sIndex := inOrder; sProbe := fun _ => inOrder;
     sDouble := fun _ => inOrder; sDeps := fun _ => inOrder |}.

(** As [sched0], but the codex maps are visited in the opposite order. *)
Definition sched2 : Sched :=
  {| sGraphs := inOrder; sIndex := backwards; sProbe := fun _ => backwards;
     sDouble := fun _ => backwards; sDeps := fun _ => backwards |}.

(** The compiler over [storeOfOnes], with a ValueRoot that is never empty. *)
Definition compileOnes (s : Sched) (dataset : RDFDataset) :=
  compile (V := unit) somePermutations plainKey storeOfOnes (fun _ _ => Some tt) s dataset.

(** [(?x, friend, ?y)] *)
Definition friends : RDFDataset :=
  {| Graphs := {[ "g" := [quad (BlankNode "x") (IRI "friend") (BlankNode "y")] ]} |}.

(** Two graphs with one statement each: [(?x, p, o)] and [(?y, p, o)]. *)
Definition twoGraphs : RDFDataset :=
  {| Graphs := {[ "g1" := [quad (BlankNode "x") (IRI "p") (IRI "o")];
                  "g2" := [quad (BlankNode "y") (IRI "p") (IRI "o")] ]} |}.

(** [(?x, ?x, ?y)]: three variables, two of them the same. *)
Definition repeatedBlank : RDFDataset :=
  {| Graphs := {[ "g" := [quad (BlankNode "x") (BlankNode "x") (BlankNode "y")] ]} |}.

(** [(?x, name, Joel)], [(?x, friend, ?y)], [(?y, name, Gabriel)] *)
Definition joel : RDFDataset :=
  {| Graphs := {[ "g" := [quad (BlankNode "x") (IRI "name") (Literal "Joel" "" "");
                          quad (BlankNode "x") (IRI "friend") (BlankNode "y");
                          quad (BlankNode "y") (IRI "name") (Literal "Gabriel" "" "")] ]} |}.

(** A codex map made by hand: variable x with one Single reference. *)
Definition tinyHeap : Heap :=
  {| refs := [Reference.mk "g" 0 0 (Some (IRI "name")) (Some (Literal "Joel" "" "")) None None];
     cursors := [] |}.

Definition tinyCodex : Codex.t := Codex.mk [] [0] ∅ 0 0 0.

Definition tinyMap : CodexMap.t := CodexMap.mk {[ "x" := tinyCodex ]} ["x"].

(** ** Vocabulary of the statements *)

Definition isBlank (n : Node) : bool := bool_decide (is_Some (asBlank n)).

(** All three positions hold a variable. *)
Definition allBlank (q : Quad) : bool :=
  isBlank (Subject q) && isBlank (Predicate q) && isBlank (Object q).

(** All three positions hold a variable, and the three differ. *)
Definition distinctBlanks (q : Quad) : Prop :=
  exists a b c, Subject q = BlankNode a /\ Predicate q = BlankNode b /\ Object q = BlankNode c
    /\ a ≠ b /\ b ≠ c /\ a ≠ c.

Definition inDataset (q : Quad) (dataset : RDFDataset) : Prop :=
  exists graph quads, Graphs dataset !! graph = Some quads /\ q ∈ quads.

(** The variables of a statement, in the order subject, predicate, object. *)
Definition variablesOf (q : Quad) : list string :=
  omap asBlank [Subject q; Predicate q; Object q].

(** The group of [b] in the codex of [a]; empty when there is none. *)
Definition doubleGroup (c : CodexMap.t) (a b : string) : list ptr :=
  default [] (CodexMap.Index c !! a ≫= fun codex => Codex.Double codex !! b).

Definition singlesOf (c : CodexMap.t) (a : string) : list ptr :=
  from_option Codex.Single [] (CodexMap.Index c !! a).

Definition constraintsOf (c : CodexMap.t) (a : string) : list ptr :=
  from_option Codex.Constraint [] (CodexMap.Index c !! a).


(** ** Vocabulary of the probe phase *)

(** The references of a codex that the probe loop visits, in its order. *)
Definition probeList (s : Sched) (id : string) (codex : Codex.t) : list ptr :=
  Codex.Single codex ++ mjoin (snd <$> range (sProbe s id) (Codex.Double codex)).

(** The references the whole probe phase visits, in its order. *)
Definition probeWork (s : Sched) (c : CodexMap.t) : list ptr :=
  mjoin ((fun e : string * Codex.t => probeList s e.1 e.2) <$> range (sIndex s) (CodexMap.Index c)).

(** The two heaps hold the same References up to their Cursor fields. *)
Definition sameButCursors (h h' : Heap) : Prop :=
  Reference.setCursor None <$> refs h' = Reference.setCursor None <$> refs h.

(** The Cursor that the probe of a count [n] leaves behind. *)
Definition probedCursor (n : Z) : Cursor.t := Cursor.setCount n Cursor.zero.

Definition sumZ (l : list Z) : Z := foldr Z.add 0%Z l.

(** Every value of the store has the eight bytes of a counter. *)
Definition storeWellFormed (txn : Txn) : Prop :=
  forall key count, txn key = Item (inr count) -> 8 <= length count.

(** Every reference of the Single lists and Double groups of [c] is in [h]:
    none of the pointers is nil. *)
Definition referencesIn (h : Heap) (c : CodexMap.t) : Prop :=
  forall id codex p, CodexMap.Index c !! id = Some codex ->
    p ∈ Codex.Single codex \/ (exists dep rs, Codex.Double codex !! dep = Some rs /\ p ∈ rs) ->
    is_Some (refs h !! p).

Section ProbeVocabulary.
Variable assembleCountKey : Reference.t -> bool -> list byte * bool.
Variable txn : Txn.

(** [n] is what the store holds for the count key of reference [p] of heap
    [h], for some value of the [major] flag and some attached Cursor. *)
Definition probedCount (h : Heap) (p : ptr) (n : Z) : Prop :=
  exists r cur major,
    refs h !! p = Some r
    /\ getCount (assembleCountKey (Reference.setCursor cur r) major).1 txn = Ok n.

(** Heap [h'] is heap [h] after the probes of the references [l], which
    gave the counts [counts]: one new Cursor for each probe, holding its
    count; the probed references point to new Cursors and no other
    reference has changed. *)
Definition probedHeap (l : list ptr) (counts : list Z) (h h' : Heap) : Prop :=
  Forall2 (probedCount h) l counts
  /\ Forall (fun n => n ≠ 0%Z) counts
  /\ sameButCursors h h'
  /\ cursors h' = cursors h ++ (probedCursor <$> counts)
  /\ (forall p, p ∉ l -> refs h' !! p = refs h !! p)
  /\ (forall p, p ∈ l -> exists r cur,
        refs h' !! p = Some r /\ Reference.Cursor r = Some cur
        /\ length (cursors h) <= cur < length (cursors h')).
End ProbeVocabulary.


(** ** Vocabulary of the resolution *)

(** The two heaps hold the same References, and Cursors with the same
    counts: only the ID and the Index of Cursors can differ. *)
Definition sameButTags (h h' : Heap) : Prop :=
  refs h' = refs h /\ Cursor.Count <$> cursors h' = Cursor.Count <$> cursors h.

(** Reference [p] of heap [h] points to Cursor [cp]. *)
Definition cursorAt (h : Heap) (p : ptr) (cp : ptr) : Prop :=
  exists r, refs h !! p = Some r /\ Reference.Cursor r = Some cp.

(** The fields of an assignment that the loop over codex.Double leaves
    alone. *)
Definition sameStatics {V} (a a' : Assignment.t V) : Prop :=
  Assignment.Constraint a' = Assignment.Constraint a
  /\ Assignment.Present a' = Assignment.Present a
  /\ Assignment.Dependencies a' = Assignment.Dependencies a
  /\ Assignment.ValueRoot a' = Assignment.ValueRoot a.


(** What classification guarantees of a codex map: every variable is once
    in the Slice, the Slice lists the variables that have a codex, and no
    variable is its own partner in a Double group. *)
Definition wellFormed (c : CodexMap.t) : Prop :=
  NoDup (CodexMap.Slice c)
  /\ (forall id, id ∈ CodexMap.Slice c <-> is_Some (CodexMap.Index c !! id))
  /\ (forall id codex, CodexMap.Index c !! id = Some codex -> Codex.Double codex !! id = None).

(** Assignment [a] is what resolution makes of variable [id] at position
    [i] of the order [slice]: its Past holds the Cursors of the Double
    groups whose partner has an earlier position, its Future the groups
    whose partner has none, and its Dependencies the partners at an earlier
    position other than 0, with their own Dependencies. *)
Definition resolved {V} (c : CodexMap.t) (slice : list string) (h : Heap)
    (index : gmap string (Assignment.t V)) (i : nat) (id : string) (a : Assignment.t V)
    : Prop :=
  exists codex,
    CodexMap.Index c !! id = Some codex
    /\ Assignment.Constraint a = Codex.Constraint codex
    /\ Assignment.Present a = Codex.Single codex
    /\ (forall cp, cp ∈ Past.Cursors (Assignment.Past a) <->
          exists dep rs j p, Codex.Double codex !! dep = Some rs
            /\ (slice !! j = Some dep /\ j < i) /\ p ∈ rs /\ cursorAt h p cp)
    /\ (forall dep rs, Assignment.Future a !! dep = Some rs <->
          Codex.Double codex !! dep = Some rs
          /\ forall j, slice !! j = Some dep -> i <= j)
    /\ (forall k, k ∈ Assignment.Dependencies a <->
          exists dep rs j adep, Codex.Double codex !! dep = Some rs
            /\ (slice !! j = Some dep /\ j < i) /\ 0 < j
            /\ index !! dep = Some adep
            /\ (k = j \/ k ∈ Assignment.Dependencies adep))
    /\ StronglySorted le (Assignment.Dependencies a)
    /\ NoDup (Assignment.Dependencies a).


(** ** Vocabulary of the classification invariants *)

(** GetCodex followed by a write through the pointer it returned. *)
Definition updCodex (f : Codex.t -> Codex.t) (c : CodexMap.t) (id : string) : CodexMap.t :=
  let '(c, codex) := GetCodex c id in putCodex id (f codex) c.

(** Reference [p] has no Cursor. *)
Definition noCursor (h : Heap) (p : ptr) : Prop :=
  exists r, refs h !! p = Some r /\ Reference.Cursor r = None.

(** Reference [p] has the empty Cursor that makeReference gave it. *)
Definition emptyCursor (h : Heap) (p : ptr) : Prop :=
  exists r cur, refs h !! p = Some r /\ Reference.Cursor r = Some cur
    /\ cursors h !! cur = Some Cursor.zero.

(** The Cursor fields of the references of a codex after classification:
    none in the Single list, an empty Cursor everywhere else. *)
Definition classifiedCodex (h : Heap) (codex : Codex.t) : Prop :=
  (forall p, p ∈ Codex.Single codex -> noCursor h p)
  /\ (forall p, p ∈ Codex.Constraint codex -> emptyCursor h p)
  /\ (forall dep rs p, Codex.Double codex !! dep = Some rs -> p ∈ rs -> emptyCursor h p).

Definition classifiedHeap (h : Heap) (constants : list ptr) (c : CodexMap.t) : Prop :=
  (forall p, p ∈ constants -> emptyCursor h p)
  /\ forall id codex, CodexMap.Index c !! id = Some codex -> classifiedCodex h codex.

(** What holds of the state of classification after every statement. *)
Definition classified (st : Heap * list ptr * CodexMap.t) : Prop :=
  wellFormed st.2 /\ classifiedHeap st.1.1 st.1.2 st.2.

(** Heap [h'] has all of heap [h], with the same Cursor fields. *)
Definition extendsHeap (h h' : Heap) : Prop :=
  (forall p r, refs h !! p = Some r ->
     exists r', refs h' !! p = Some r' /\ Reference.Cursor r' = Reference.Cursor r)
  /\ (forall cp cur, cursors h !! cp = Some cur -> cursors h' !! cp = Some cur).


(** ** Vocabulary of determinism *)

(** The count key of a reference is built from its permutation and its two
    known values, whatever the [major] flag. *)
Definition keyFromKnownValues (assembleCountKey : Reference.t -> bool -> list byte * bool)
    : Prop :=
  forall r r' major major',
    Reference.Permutation r = Reference.Permutation r' ->
    Reference.M r = Reference.M r' -> Reference.N r = Reference.N r' ->
    (assembleCountKey r major).1 = (assembleCountKey r' major').1.

(** The count that the store holds for reference [p] of heap [h]. *)
Definition countIn (assembleCountKey : Reference.t -> bool -> list byte * bool) (txn : Txn)
    (h : Heap) (p : ptr) : Z :=
  match refs h !! p with
  | Some r =>
      match getCount (assembleCountKey r false).1 txn with
      | Ok n => n
      | _ => 0%Z
      end
  | None => 0%Z
  end.

(** The order that a run returned. *)
Definition orderOf {V} (r : result (CodexMap.t * Heap * gmap string (Assignment.t V)))
    : option (list string) :=
  match r with
  | Ok (c, _, _) => Some (CodexMap.Slice c)
  | _ => None
  end.

(** ** Vocabulary of the further classification properties *)

(** How many References classification makes for a statement. *)
Definition referencesFor (q : Quad) : nat :=
  match variablesOf q with
  | [a; b] => if decide (a = b) then 1 else 2
  | _ => 1
  end.

(** How many Cursors classification makes for a statement: makeReference
    makes one, the literal of a Single reference none. *)
Definition cursorsFor (q : Quad) : nat :=
  match variablesOf q with
  | [a] => 0
  | [a; b] => if decide (a = b) then 1 else 2
  | _ => 1
  end.

(** All statements of a dataset. *)
Definition quadsOf (dataset : RDFDataset) : list Quad :=
  mjoin (snd <$> map_to_list (Graphs dataset)).

(** Reference [r] carries the coordinates of statement [q], and its known
    values are nodes of [q]. *)
Definition fromStatement (graph : string) (index : nat) (q : Quad) (r : Reference.t) : Prop :=
  Reference.Graph r = graph /\ Reference.Index r = index
  /\ forall n, Reference.M r = Some n \/ Reference.N r = Some n ->
       n ∈ [Subject q; Predicate q; Object q].

(** The places that hold reference pointers. *)
Inductive Place :=
| InConstants
| InSingle (id : string)
| InConstraint (id : string)
| InDouble (a b : string).

#[global] Instance Place_eq_dec : EqDecision Place.
Proof. solve_decision. Defined.

Definition pointersAt (constants : list ptr) (c : CodexMap.t) (place : Place) : list ptr :=
  match place with
  | InConstants => constants
  | InSingle id => singlesOf c id
  | InConstraint id => constraintsOf c id
  | InDouble a b => doubleGroup c a b
  end.

(** Every pointer is below [n], no list holds a pointer twice and no
    pointer is in two lists. *)
Definition owned (n : nat) (view : Place -> list ptr) : Prop :=
  (forall place, NoDup (view place))
  /\ (forall place p, p ∈ view place -> p < n)
  /\ (forall place1 place2 p, p ∈ view place1 -> p ∈ view place2 -> place1 = place2).

(** Reference [p] has no Dual. *)
Definition noDual (h : Heap) (p : ptr) : Prop :=
  exists r, refs h !! p = Some r /\ Reference.Dual r = None.

(** The Dual fields after classification: a Double reference and its Dual
    sit at the same offset of the two opposite groups, no group is empty,
    and no other reference has a Dual. *)
Definition pairedDoubles (h : Heap) (constants : list ptr) (c : CodexMap.t) : Prop :=
  (forall a codex b rs,
     CodexMap.Index c !! a = Some codex -> Codex.Double codex !! b = Some rs -> rs ≠ [])
  /\ (forall a b k p, doubleGroup c a b !! k = Some p ->
        exists r q, refs h !! p = Some r /\ Reference.Dual r = Some q
          /\ doubleGroup c b a !! k = Some q)
  /\ (forall place p, (forall a b, place ≠ InDouble a b) ->
        p ∈ pointersAt constants c place -> noDual h p).

(** The statistics of every codex are zero. *)
Definition freshStatistics (c : CodexMap.t) : Prop :=
  forall id codex, CodexMap.Index c !! id = Some codex ->
    Codex.Norm codex = 0%Z /\ Codex.Length codex = 0%Z /\ Codex.Count codex = 0%Z.


(** The lists of [view] with [p] appended to the list at [place]. *)
Definition appendAt (view : Place -> list ptr) (place : Place) (p : ptr) : Place -> list ptr :=
  fun pl => if decide (pl = place) then view pl ++ [p] else view pl.

(** Every pointer below [n] is in some list. *)
Definition covered (n : nat) (view : Place -> list ptr) : Prop :=
  forall p, p < n -> exists place, p ∈ view place.

(** What holds, besides [classified], of the state of classification after
    every statement. *)
Definition classifiedMore (st : Heap * list ptr * CodexMap.t) : Prop :=
  owned (length (refs st.1.1)) (pointersAt st.1.2 st.2)
  /\ covered (length (refs st.1.1)) (pointersAt st.1.2 st.2)
  /\ pairedDoubles st.1.1 st.1.2 st.2
  /\ freshStatistics st.2.


(** No Double group is empty. *)
Definition nonEmptyGroups (c : CodexMap.t) : Prop :=
  forall a codex b rs,
    CodexMap.Index c !! a = Some codex -> Codex.Double codex !! b = Some rs -> rs ≠ [].


(** Every reference of [h] carries the coordinates of a statement of
    [dataset] and known values of that statement, and its Dual, when it has
    one, is a reference of [h] with the same coordinates. *)
Definition located (dataset : RDFDataset) (h : Heap) : Prop :=
  forall p r, refs h !! p = Some r ->
    (exists quads q, Graphs dataset !! Reference.Graph r = Some quads
       /\ quads !! Reference.Index r = Some q
       /\ fromStatement (Reference.Graph r) (Reference.Index r) q r)
    /\ forall d, Reference.Dual r = Some d ->
         exists rd, refs h !! d = Some rd
           /\ Reference.Graph rd = Reference.Graph r
           /\ Reference.Index rd = Reference.Index r.


(** Reference [p] of heap [h] has a Cursor. *)
Definition hasCursor (h : Heap) (p : ptr) : Prop :=
  exists r cur, refs h !! p = Some r /\ Reference.Cursor r = Some cur.

(** Every variable of the Slice has a codex. *)
Definition sliceInIndex (c : CodexMap.t) : Prop :=
  forall id, id ∈ CodexMap.Slice c -> is_Some (CodexMap.Index c !! id).


(** ** The sort interface and closing *)

(** CodexMap.Len *)
Definition Len (c : CodexMap.t) : nat := length (CodexMap.Slice c).

(** CodexMap.Swap: both index expressions are evaluated before the two
    assignments, and a position outside the Slice panics. *)
Definition Swap (c : CodexMap.t) (a b : nat) : result CodexMap.t :=
  match CodexMap.Slice c !! a, CodexMap.Slice c !! b with
  | Some x, Some y =>
      Ok (CodexMap.mk (CodexMap.Index c) (<[b := x]> (<[a := y]> (CodexMap.Slice c))))
  | _, _ => Panic
  end.

(** CodexMap.Less as the source has it, on positions: a position outside
    the Slice panics, and so does an id without codex, whose Count is read
    through a nil pointer. *)
Definition LessAt (c : CodexMap.t) (a b : nat) : result bool :=
  match CodexMap.Slice c !! a, CodexMap.Slice c !! b with
  | Some x, Some y =>
      match CodexMap.Index c !! x, CodexMap.Index c !! y with
      | Some A, Some B => Ok (bool_decide (Codex.Count A > Codex.Count B)%Z)
      | _, _ => Panic
      end
  | _, _ => Panic
  end.

Section Closing.

(** ref.close() is declared outside src: it is taken as what it does to
    the heap. *)
Variable closeReference : Heap -> ptr -> Heap.

(** Codex.close; [o] is the order in which codex.Double is visited. *)
Definition Codex_close (o : RangeOrder string) (codex : Codex.t) (h : Heap) : Heap :=
  let h := foldl closeReference h (Codex.Single codex) in
  foldl (fun h '(_, rs) => foldl closeReference h rs) h (range o (Codex.Double codex)).

(** CodexMap.close: c.Index[id] is nil for an id without codex, and
    codex.close reads codex.Single through it. *)
Definition CodexMap_close (o : string -> RangeOrder string) (c : CodexMap.t) (h : Heap)
    : result Heap :=
  foldM (fun h id =>
           match CodexMap.Index c !! id with
           | None => Panic
           | Some codex => Ok (Codex_close (o id) codex h)
           end)
        (CodexMap.Slice c) h.

End Closing.

(** The references that Codex.close closes, in its order. *)
Definition closeList (o : RangeOrder string) (codex : Codex.t) : list ptr :=
  Codex.Single codex ++ mjoin (snd <$> range o (Codex.Double codex)).

(** The references that CodexMap.close closes, in its order. *)
Definition closeWork (o : string -> RangeOrder string) (c : CodexMap.t) : list ptr :=
  mjoin ((fun id => from_option (closeList (o id)) [] (CodexMap.Index c !! id))
           <$> CodexMap.Slice c).


(** A dataset without variables: [(joel, name, Joel)], [(joel, age, 22)]. *)
Definition groundFacts : RDFDataset :=
  {| Graphs := {[ "g" := [quad (IRI "joel") (IRI "name") (Literal "Joel" "" "");
                          quad (IRI "joel") (IRI "age") (Literal "22" "integer" "")] ]} |}.


(** ** Vocabulary of the Cursors of a plan *)

(** The probes of the references [l], in this order, gave the reference at
    offset [k] the [k]-th Cursor allocated after heap [h]. *)
Definition numbered (l : list ptr) (h h' : Heap) : Prop :=
  forall k p, l !! k = Some p -> cursorAt h' p (length (cursors h) + k).

(** Heap [h'] is heap [h] with tags written into Cursors: Cursor [cp] has
    got the ID [d] and the Index [o] when [T cp d o], and is unchanged when
    [T] says nothing of it; the References are the same. *)
Definition tagged (T : ptr -> string -> nat -> Prop) (h h' : Heap) : Prop :=
  refs h' = refs h
  /\ length (cursors h') = length (cursors h)
  /\ (forall cp d o cur, T cp d o -> cursors h !! cp = Some cur ->
        cursors h' !! cp = Some (Cursor.setIndex o (Cursor.setID d cur)))
  /\ (forall cp, (forall d o, ¬ T cp d o) -> cursors h' !! cp = cursors h !! cp).

(** Reference [p] sits at offset [o] of the group of [d] in the codex of
    [id]. *)
Definition inGroup (c : CodexMap.t) (id d : string) (o : nat) (p : ptr) : Prop :=
  exists codex rs, CodexMap.Index c !! id = Some codex
    /\ Codex.Double codex !! d = Some rs /\ rs !! o = Some p.

(** No Cursor belongs to two places of Double groups. *)
Definition cursorsApart (c : CodexMap.t) (h : Heap) : Prop :=
  forall id d o p id' d' o' p' cp,
    inGroup c id d o p -> inGroup c id' d' o' p' ->
    cursorAt h p cp -> cursorAt h p' cp -> id = id' /\ d = d' /\ o = o'.




(** The references of one graph were made in the order of its statements. *)
Definition madeInOrder (h : Heap) : Prop :=
  forall p q rp rq, p < q -> refs h !! p = Some rp -> refs h !! q = Some rq ->
    Reference.Graph rp = Reference.Graph rq -> Reference.Index rp <= Reference.Index rq.


(** ** Vocabulary of the keys that the probe phase reads *)

(** The keys that the probe loop assembles for the references [l], visited
    in this order from the references [rs], with [ncur] Cursors allocated
    so far and the flag [major]: a key is assembled from the reference as
    it is when the loop reaches it (its Cursor is the one an earlier visit
    gave it) and from the flag that the key before it left.  The store is
    not read.  At a pointer that is no reference the run panics, and no key
    follows. *)
Fixpoint keysFrom (assembleCountKey : Reference.t -> bool -> list byte * bool)
    (l : list ptr) (rs : list Reference.t) (ncur : nat) (major : bool)
    : list (ptr * list byte) :=
  match l with
  | [] => []
  | p :: l' =>
      match rs !! p with
      | None => []
      | Some r =>
          (p, (assembleCountKey r major).1)
          :: keysFrom assembleCountKey l'
               (alter (Reference.setCursor (Some ncur)) p rs) (S ncur)
               (assembleCountKey r major).2
      end
  end.

(** The references that the probe phase of getAssignmentTree visits, each
    with the key it asks the store for, as long as no probe fails. *)
Definition probeKeys (assembleCountKey : Reference.t -> bool -> list byte * bool)
    (s : Sched) (c : CodexMap.t) (h : Heap) : list (ptr * list byte) :=
  keysFrom assembleCountKey (probeWork s c) (refs h) (length (cursors h)) false.

(** ** Vocabulary of the order of first sight *)

(** The ids [ids] in the order of their first occurrence, after the ids
    [seen]. *)
Definition firstSeen (seen ids : list string) : list string :=
  foldl (fun seen id => if decide (id ∈ seen) then seen else seen ++ [id]) seen ids.

(** The variables of the statements of a dataset, statement by statement
    and graph by graph in the visiting order [o] of the graphs. *)
Definition variablesInOrder (o : RangeOrder string) (dataset : RDFDataset) : list string :=
  mjoin (variablesOf <$> mjoin (snd <$> range o (Graphs dataset))).

(** ** Further concrete inputs *)

(** A count key that depends on the flag, and flips it. *)
Definition flipKey : Reference.t -> bool -> list byte * bool :=
  fun _ major => ([if major then x01 else x00]%byte, negb major).

(** A store that holds the counter 1 under the key of a set flag, and
    nothing else. *)
Definition storeOfMajor : Txn :=
  fun key =>
    match key with
    | [x01%byte] => Item (inr [x00; x00; x00; x00; x00; x00; x00; x01]%byte)
    | _ => ErrKeyNotFound
    end.

(** [(?x, p, o)], [(?y, p, o)], [(?y, q, o)], [(?z, p, o)]: first seen in
    the order x, y, z, with one, two and one reference. *)
Definition ranked : RDFDataset :=
  {| Graphs := {[ "g" := [quad (BlankNode "x") (IRI "p") (IRI "o");
                          quad (BlankNode "y") (IRI "p") (IRI "o");
                          quad (BlankNode "y") (IRI "q") (IRI "o");
                          quad (BlankNode "z") (IRI "p") (IRI "o")] ]} |}.


(** * Properties *)

(** ** Loops *)

Section Loops.
Context {A B : Type}.

Lemma foldM_app (f : B -> A -> result B) l1 l2 b :
  foldM f (l1 ++ l2) b = b' ← foldM f l1 b; foldM f l2 b'.
Proof.
  revert b. induction l1 as [|x l1 IH]; intros b; simpl; [done|].
  destruct (f b x); simpl; auto.
Qed.

Lemma foldMi_app (f : B -> nat -> A -> result B) l1 l2 i b :
  foldMi f i (l1 ++ l2) b = b' ← foldMi f i l1 b; foldMi f (i + length l1) l2 b'.
Proof.
  revert i b. induction l1 as [|x l1 IH]; intros i b; simpl.
  - by rewrite Nat.add_0_r.
  - destruct (f b i x); simpl; auto. rewrite IH. by rewrite Nat.add_succ_r.
Qed.

(** A loop invariant holds after a loop that ran to its end. *)
Lemma foldM_inv (P : B -> Prop) (f : B -> A -> result B) l b b' :
  (forall b x b', x ∈ l -> P b -> f b x = Ok b' -> P b') ->
  P b -> foldM f l b = Ok b' -> P b'.
Proof.
  revert b. induction l as [|x l IH]; intros b Hstep Hb; simpl.
  - by intros [= <-].
  - destruct (f b x) as [b1| |] eqn:E; simpl; try done.
    apply IH.
    + intros ? y ? Hy. apply Hstep. by right.
    + eapply Hstep; [by left|done..].
Qed.

Lemma foldMi_inv (P : nat -> B -> Prop) (f : B -> nat -> A -> result B) l i b b' :
  (forall b k x b', l !! k = Some x -> P (i + k) b -> f b (i + k) x = Ok b' -> P (i + S k) b') ->
  P i b -> foldMi f i l b = Ok b' -> P (i + length l) b'.
Proof.
  revert i b. induction l as [|x l IH]; intros i b Hstep Hb; simpl.
  - rewrite Nat.add_0_r. by intros [= <-].
  - destruct (f b i x) as [b1| |] eqn:E; simpl; try done.
    rewrite <- Nat.add_succ_comm. apply IH.
    + intros b2 k y b3 Hk. rewrite !Nat.add_succ_comm. by apply (Hstep b2 (S k)).
    + specialize (Hstep b 0 x b1). rewrite Nat.add_0_r, Nat.add_1_r in Hstep. by apply Hstep.
Qed.

(** A loop whose turns do not panic does not panic. *)
Lemma foldM_no_panic (P : B -> Prop) (f : B -> A -> result B) l b :
  (forall b x b', x ∈ l -> P b -> f b x = Ok b' -> P b') ->
  (forall b x, x ∈ l -> P b -> f b x ≠ Panic) ->
  P b -> foldM f l b ≠ Panic.
Proof.
  revert b. induction l as [|x l IH]; intros b Hstep Hsafe Hb; simpl; [done|].
  destruct (f b x) as [b1| |] eqn:E; simpl; [|done|].
  - apply IH.
    + intros ? y ? Hy. apply Hstep. by right.
    + intros ? y Hy. apply Hsafe. by right.
    + eapply Hstep; [by left|done..].
  - by destruct (Hsafe b x ltac:(left) Hb).
Qed.

(** A loop stops at the first turn that returns an error. *)
Lemma foldMi_stops (f : B -> nat -> A -> result B) pre x post b b1 e :
  foldMi f 0 pre b = Ok b1 -> f b1 (length pre) x = Err e ->
  foldMi f 0 (pre ++ x :: post) b = Err e.
Proof. intros H1 H2. rewrite foldMi_app, H1. simpl. by rewrite H2. Qed.
End Loops.

(** ** Ranges *)

Section Ranges.
Context `{Countable K} {A : Type}.
Implicit Types (m : gmap K A) (o : RangeOrder K).

Lemma omap_lookup_keys m (l : list (K * A)) :
  (forall kv, kv ∈ l -> m !! kv.1 = Some kv.2) ->
  omap (fun k => pair k <$> m !! k) (fst <$> l) = l.
Proof.
  induction l as [|[k v] l IH]; intros Hl; simpl; [done|].
  pose proof (Hl (k, v) ltac:(left)) as Hk. simpl in Hk. rewrite Hk. simpl.
  f_equal. apply IH. intros ??. apply Hl. by right.
Qed.

Lemma range_Permutation o m : range o m ≡ₚ map_to_list m.
Proof.
  unfold range. rewrite (visit_perm o). apply reflexive_eq, omap_lookup_keys.
  intros [k v]. apply elem_of_map_to_list.
Qed.

Lemma elem_of_range o m k v : (k, v) ∈ range o m <-> m !! k = Some v.
Proof. rewrite range_Permutation. apply elem_of_map_to_list. Qed.

Lemma NoDup_fst_range o m : NoDup (fst <$> range o m).
Proof. rewrite range_Permutation. apply NoDup_fst_map_to_list. Qed.

Lemma elem_of_fst_range o m k : k ∈ fst <$> range o m <-> is_Some (m !! k).
Proof.
  rewrite list_elem_of_fmap. split.
  - intros ([k' v] & -> & Hin%elem_of_range). by exists v.
  - intros [v Hv]. exists (k, v). split; [done|]. by apply elem_of_range.
Qed.

End Ranges.

(** Name the two components of every pair that a [let '(x, y) := ...]
    of the goal takes apart. *)
Ltac split_lets :=
  repeat match goal with
  | |- context [let '(_, _) := ?p in _] => destruct p eqn:?
  end.

(** ** Classification *)

Section Classification.
Variable perms : Permutations.

Lemma classify_allBlank graph st index q :
  allBlank q = true -> classify perms graph st index q = Err AllBlankTriple.
Proof.
  destruct st as [[h constants] codexMap], q as [[] [] []]; by cbn.
Qed.

Lemma classify_not_allBlank graph st index q :
  allBlank q = false -> exists st', classify perms graph st index q = Ok st'.
Proof.
  destruct st as [[h constants] codexMap], q as [[] [] []]; cbn; try done; intros _;
    repeat case_decide; split_lets; eauto.
Qed.

Lemma classifyAll_result graph quads i st :
  if decide (Exists (fun q => allBlank q = true) quads)
  then foldMi (classify perms graph) i quads st = Err AllBlankTriple
  else exists st', foldMi (classify perms graph) i quads st = Ok st'.
Proof.
  revert i st. induction quads as [|q quads IH]; intros i st.
  - rewrite decide_False by (by intros ?%Exists_nil). by eexists.
  - simpl. destruct (allBlank q) eqn:Hq.
    + rewrite decide_True by (by left). by rewrite classify_allBlank.
    + destruct (classify_not_allBlank graph st i q Hq) as [st' ->]. simpl.
      specialize (IH (S i) st'). destruct (decide (Exists _ quads)) as [Hex|Hex].
      * by rewrite decide_True by (by right).
      * rewrite decide_False; [done|]. rewrite Exists_cons. intros [?|?]; congruence.
Qed.

Lemma classifyGraphs_result (graphs : list (string * list Quad)) st :
  if decide (Exists (fun g => Exists (fun q => allBlank q = true) g.2) graphs)
  then foldM (fun st '(graph, quads) => foldMi (classify perms graph) 0 quads st) graphs st
       = Err AllBlankTriple
  else exists st',
       foldM (fun st '(graph, quads) => foldMi (classify perms graph) 0 quads st) graphs st
       = Ok st'.
Proof.
  revert st. induction graphs as [|[g quads] graphs IH]; intros st.
  - rewrite decide_False by (by intros ?%Exists_nil). by eexists.
  - simpl. pose proof (classifyAll_result g quads 0 st) as Hg.
    destruct (decide (Exists _ quads)) as [Hq|Hq].
    + rewrite decide_True by (by left). by rewrite Hg.
    + destruct Hg as [st' ->]. simpl. specialize (IH st').
      destruct (decide (Exists _ graphs)) as [Hex|Hex].
      * by rewrite decide_True by (by right).
      * rewrite decide_False; [done|]. rewrite Exists_cons. by intros [?|?].
Qed.

Lemma Exists_allBlank_range o dataset :
  Exists (fun g : string * list Quad => Exists (fun q => allBlank q = true) g.2)
         (range o (Graphs dataset))
  <-> exists q, inDataset q dataset /\ allBlank q = true.
Proof.
  rewrite Exists_exists. split.
  - intros ([g quads] & Hg%elem_of_range & (q & ? & ?)%Exists_exists).
    exists q. split; [by exists g, quads|done].
  - intros (q & (g & quads & Hg & Hq) & Hb). exists (g, quads). split.
    + by apply elem_of_range.
    + apply Exists_exists. by exists q.
Qed.

(** C4, as amended.  getInitalCodexMap returns the error of an all-blank
    triple if and only if some statement of the dataset has a variable in
    each of its three positions, whether or not the three variables differ
    and whatever the order in which the graphs are visited; it can return no
    other error and cannot panic, and a failure carries neither a constants
    list nor a CodexMap. *)
Theorem getInitalCodexMap_fails_iff_allBlank (s : Sched) (dataset : RDFDataset) :
  (getInitalCodexMap perms s dataset = Err AllBlankTriple
   <-> exists q, inDataset q dataset /\ allBlank q = true)
  /\ (isOk (getInitalCodexMap perms s dataset) = false
      -> getInitalCodexMap perms s dataset = Err AllBlankTriple).
Proof.
  unfold getInitalCodexMap.
  pose proof (classifyGraphs_result (range (sGraphs s) (Graphs dataset))
                (emptyHeap, [], CodexMap.zero)) as Hrun.
  rewrite <- Exists_allBlank_range. destruct (decide _) as [Hex|Hex].
  - by rewrite Hrun.
  - destruct Hrun as [st' ->]. split; [split|]; done.
Qed.

(** *** What InsertDouble and the other writers change *)

Lemma doubleGroup_InsertDouble c a b p x y :
  doubleGroup (InsertDouble c a b p) x y
  = if decide (x = a /\ y = b) then doubleGroup c a b ++ [p] else doubleGroup c x y.
Proof.
  unfold InsertDouble, GetCodex, doubleGroup, putCodex.
  destruct (CodexMap.Index c !! a) as [codex|] eqn:Ha; simpl.
  - destruct (decide (x = a)) as [->|Hx].
    + rewrite lookup_insert_eq, Ha. simpl. destruct (decide (y = b)) as [->|Hy].
      * rewrite lookup_insert_eq, decide_True by done. by destruct (Codex.Double codex !! b).
      * rewrite lookup_insert_ne, decide_False by (first [intros [??]|intros ?]; congruence). done.
    + rewrite lookup_insert_ne, decide_False by (first [intros [??]|intros ?]; congruence). done.
  - destruct (decide (x = a)) as [->|Hx].
    + rewrite lookup_insert_eq, Ha. simpl. destruct (decide (y = b)) as [->|Hy].
      * by rewrite lookup_insert_eq, decide_True.
      * rewrite lookup_insert_ne, decide_False by (first [intros [??]|intros ?]; congruence). done.
    + rewrite !lookup_insert_ne, decide_False by (first [intros [??]|intros ?]; congruence). done.
Qed.

Lemma singlesOf_InsertDouble c a b p x :
  singlesOf (InsertDouble c a b p) x = singlesOf c x.
Proof.
  unfold InsertDouble, GetCodex, singlesOf, putCodex.
  destruct (CodexMap.Index c !! a) as [codex|] eqn:Ha; simpl;
    (destruct (decide (x = a)) as [->|Hx];
     [rewrite lookup_insert_eq, Ha | rewrite !lookup_insert_ne by done]); done.
Qed.

Lemma constraintsOf_InsertDouble c a b p x :
  constraintsOf (InsertDouble c a b p) x = constraintsOf c x.
Proof.
  unfold InsertDouble, GetCodex, constraintsOf, putCodex.
  destruct (CodexMap.Index c !! a) as [codex|] eqn:Ha; simpl;
    (destruct (decide (x = a)) as [->|Hx];
     [rewrite lookup_insert_eq, Ha | rewrite !lookup_insert_ne by done]); done.
Qed.

(** The heap after the two makeReference calls and the Dual assignment of a
    two-variable statement. *)
Lemma insertPair_heap h c graph index a pa ma na b pb mb nb h' c' :
  insertPair h c graph index a pa ma na b pb mb nb = (h', c') ->
  refs h' = refs h ++
    [Reference.mk graph index pa (Some ma) (Some na) (Some (length (cursors h)))
       (Some (S (length (refs h))));
     Reference.mk graph index pb (Some mb) (Some nb) (Some (S (length (cursors h))))
       (Some (length (refs h)))]
  /\ cursors h' = cursors h ++ [Cursor.zero; Cursor.zero]
  /\ c' = InsertDouble (InsertDouble c a b (length (refs h))) b a (S (length (refs h))).
Proof.
  unfold insertPair, makeReference, newCursor, newReference, updReference. simpl.
  intros [= <- <-]. simpl. split_and!.
  - rewrite !length_app. simpl. rewrite !Nat.add_1_r.
    rewrite <- (app_assoc (refs h)). simpl.
    rewrite (alter_app_r_alt _ (refs h)) by lia.
    rewrite Nat.sub_diag. simpl.
    rewrite (alter_app_r_alt _ (refs h)) by lia.
    by replace (S (length (refs h)) - length (refs h)) with 1 by lia.
  - by rewrite <- app_assoc.
  - by rewrite length_app, Nat.add_1_r.
Qed.

(** C7.  A statement with exactly two variables [a] and [b], which differ,
    and one constant: classification creates exactly two References, appends
    one to the group of [b] in the codex of [a] and the other to the group
    of [a] in the codex of [b], in the same call, makes each the Dual of the
    other, and touches no other group, reference or list. *)
Theorem classify_two_variables graph index q h constants c a b :
  variablesOf q = [a; b] -> a ≠ b ->
  exists h' c',
    classify perms graph (h, constants, c) index q = Ok (h', constants, c')
    /\ length (refs h') = 2 + length (refs h)
    /\ (forall p, p < length (refs h) -> refs h' !! p = refs h !! p)
    /\ (exists rA rB,
          refs h' !! length (refs h) = Some rA
          /\ refs h' !! S (length (refs h)) = Some rB
          /\ Reference.Dual rA = Some (S (length (refs h)))
          /\ Reference.Dual rB = Some (length (refs h))
          /\ Reference.Graph rA = graph /\ Reference.Index rA = index
          /\ Reference.Graph rB = graph /\ Reference.Index rB = index)
    /\ doubleGroup c' a b = doubleGroup c a b ++ [length (refs h)]
    /\ doubleGroup c' b a = doubleGroup c b a ++ [S (length (refs h))]
    /\ (forall x y, (x, y) ≠ (a, b) -> (x, y) ≠ (b, a) ->
          doubleGroup c' x y = doubleGroup c x y)
    /\ (forall x, singlesOf c' x = singlesOf c x /\ constraintsOf c' x = constraintsOf c x).
Proof.
  intros Hq Hab.
  assert (exists pa ma na pb mb nb,
    classify perms graph (h, constants, c) index q
    = let '(h', c') := insertPair h c graph index a pa ma na b pb mb nb in
      Ok (h', constants, c')) as (pa & ma & na & pb & mb & nb & ->).
  { destruct q as [[] [] []]; cbn in Hq; simplify_eq; cbn;
      (rewrite decide_False by congruence); by do 6 eexists. }
  destruct (insertPair _ _ _ _ _ _ _ _ _ _ _ _) as [h' c'] eqn:Hpair.
  apply insertPair_heap in Hpair as (Hrefs & _ & ->).
  exists h', (InsertDouble (InsertDouble c a b (length (refs h))) b a (S (length (refs h)))).
  split_and!; [done|..].
  - rewrite Hrefs, length_app. simpl. lia.
  - intros p Hp. by rewrite Hrefs, lookup_app_l.
  - do 2 eexists. rewrite Hrefs.
    rewrite !lookup_app_r by lia. rewrite Nat.sub_diag.
    replace (S (length (refs h)) - length (refs h)) with 1 by lia. simpl.
    split_and!; done.
  - rewrite !doubleGroup_InsertDouble.
    rewrite (decide_False (P := a = b /\ b = a)) by (first [intros [??]|intros ?]; congruence).
    by rewrite decide_True.
  - rewrite !doubleGroup_InsertDouble.
    rewrite decide_True by done.
    by rewrite decide_False by (first [intros [??]|intros ?]; congruence).
  - intros x y Hxy Hyx. rewrite !doubleGroup_InsertDouble.
    rewrite !decide_False by (first [intros [??]|intros ?]; congruence). done.
  - intros x. by rewrite !singlesOf_InsertDouble, !constraintsOf_InsertDouble.
Qed.

End Classification.

(** ** The stable sort *)

Lemma filter_none {A} (P : A -> Prop) `{forall x, Decision (P x)} (l : list A) :
  Forall (fun x => ¬ P x) l -> filter P l = [].
Proof.
  induction 1 as [|x l Hx _ IH]; [done|]. by rewrite filter_cons_False.
Qed.

Section SortingProps.
Context {A : Type} (key : A -> Z) (less : A -> A -> bool).
Hypothesis less_key : forall x y, less x y = true <-> (key x < key y)%Z.

Let le (x y : A) : Prop := (key x <= key y)%Z.

Lemma insertSorted_Permutation x l : insertSorted less x l ≡ₚ x :: l.
Proof.
  induction l as [|y l IH]; simpl; [done|].
  destruct (less x y); [done|]. rewrite IH. apply Permutation_swap.
Qed.

Lemma insertSorted_sorted x l :
  StronglySorted le l -> StronglySorted le (insertSorted less x l).
Proof.
  induction l as [|y l IH]; simpl; intros Hl.
  - by repeat constructor.
  - apply StronglySorted_cons in Hl as [Hy Hl].
    destruct (less x y) eqn:Hxy.
    + apply less_key in Hxy. constructor; [by constructor|].
      constructor; [unfold le; lia|].
      eapply Forall_impl; [exact Hy|]. unfold le. intros; lia.
    + assert (¬ (key x < key y)%Z) as Hge by (rewrite <- less_key; congruence).
      constructor; [by apply IH|].
      rewrite insertSorted_Permutation. constructor; [unfold le; lia|done].
Qed.

(** An inserted element goes behind the elements of the same key. *)
Lemma insertSorted_filter x l n :
  StronglySorted le l ->
  filter (fun y => key y = n) (insertSorted less x l)
  = filter (fun y => key y = n) l ++ filter (fun y => key y = n) [x].
Proof.
  induction l as [|y l IH]; simpl; intros Hl; [done|].
  apply StronglySorted_cons in Hl as [Hy Hl].
  destruct (less x y) eqn:Hxy.
  - apply less_key in Hxy. destruct (decide (key x = n)) as [Hn|Hn].
    + assert (filter (fun z => key z = n) (y :: l) = []) as Hnil.
      { apply filter_none. constructor; [lia|].
        eapply Forall_impl; [exact Hy|]. unfold le. intros; lia. }
      rewrite (filter_cons_True _ x (y :: l)), Hnil by done.
      by rewrite (filter_cons_True _ x []) by done.
    + rewrite (filter_cons_False _ x) by done.
      rewrite (filter_cons_False _ x []) by done. by rewrite app_nil_r.
  - rewrite !(filter_cons _ y), IH by done. by destruct (decide (key y = n)).
Qed.

Lemma sortStable_from acc l :
  StronglySorted le acc ->
  StronglySorted le (foldl (fun acc x => insertSorted less x acc) acc l)
  /\ foldl (fun acc x => insertSorted less x acc) acc l ≡ₚ acc ++ l
  /\ forall n, filter (fun y => key y = n) (foldl (fun acc x => insertSorted less x acc) acc l)
       = filter (fun y => key y = n) (acc ++ l).
Proof.
  revert acc. induction l as [|x l IH]; intros acc Hacc; simpl.
  - by rewrite app_nil_r.
  - destruct (IH (insertSorted less x acc)) as (Hs & Hp & Hf);
      [by apply insertSorted_sorted|].
    split_and!; [done| |].
    + rewrite Hp, insertSorted_Permutation. apply Permutation_middle.
    + intros n. rewrite Hf, !filter_app, insertSorted_filter by done.
      by rewrite <- app_assoc, <- filter_app.
Qed.

(** The result is sorted, a rearrangement of the input and keeps elements
    of equal key in their input order. *)
Lemma sortStable_spec l :
  StronglySorted le (sortStable less l)
  /\ sortStable less l ≡ₚ l
  /\ forall n, filter (fun y => key y = n) (sortStable less l)
       = filter (fun y => key y = n) l.
Proof. apply (sortStable_from [] l). constructor. Qed.

End SortingProps.

Lemma StronglySorted_weaken {A} (R1 R2 : relation A) l :
  (forall x y, R1 x y -> R2 x y) -> StronglySorted R1 l -> StronglySorted R2 l.
Proof.
  intros HR. induction 1 as [|x l _ IH Hx]; constructor; [done|].
  eapply Forall_impl; [exact Hx|]. auto.
Qed.

Lemma sortDependencies_spec l :
  StronglySorted le (sortDependencies l) /\ sortDependencies l ≡ₚ l.
Proof.
  destruct (sortStable_spec Z.of_nat Nat.ltb) with (l := l) as (Hs & Hp & _).
  - intros x y. rewrite Nat.ltb_lt. lia.
  - split; [|done]. eapply StronglySorted_weaken; [|exact Hs]. simpl. intros; lia.
Qed.

(** Sorting two rearrangements of the same positions gives the same list. *)
Lemma sortDependencies_Permutation l1 l2 :
  l1 ≡ₚ l2 -> sortDependencies l1 = sortDependencies l2.
Proof.
  intros Hl. destruct (sortDependencies_spec l1) as [Hs1 Hp1].
  destruct (sortDependencies_spec l2) as [Hs2 Hp2].
  apply (StronglySorted_unique le); [done..|]. by rewrite Hp1, Hp2.
Qed.

(** ** getAssignmentTree: its three phases *)

Section Assignments.
Context {V : Type}.
Variable assembleCountKey : Reference.t -> bool -> list byte * bool.
Variable txn : Txn.
Variable setValueRoot : Heap -> Assignment.t V -> option V.

Lemma bind_Ok {A B} (m : result A) (k : A -> result B) b :
  m ≫= k = Ok b -> exists a, m = Ok a /\ k a = Ok b.
Proof. destruct m; simpl; [eauto|done..]. Qed.

Lemma getAssignmentTree_Ok s c h c' h' idx :
  getAssignmentTree assembleCountKey txn setValueRoot s c h = Ok (c', h', idx) ->
  exists c1 h1,
    probePhase assembleCountKey txn s c h = Ok (c1, h1)
    /\ Stable c1 = Ok c'
    /\ resolvePhase setValueRoot s c' h1 = Ok (h', idx).
Proof.
  unfold getAssignmentTree. intros ([c1 h1] & Hprobe & Hrest)%bind_Ok.
  apply bind_Ok in Hrest as (c2 & Hsort & Hrest).
  apply bind_Ok in Hrest as ([h2 idx2] & Hres & [= -> -> ->]).
  by exists c1, h1.
Qed.

Lemma probePhase_Slice s c h c1 h1 :
  probePhase assembleCountKey txn s c h = Ok (c1, h1) ->
  CodexMap.Slice c1 = CodexMap.Slice c.
Proof.
  unfold probePhase. intros ([[h' major] index] & _ & [= <- _])%bind_Ok. done.
Qed.

Lemma Stable_Ok c c' :
  Stable c = Ok c' ->
  CodexMap.Index c' = CodexMap.Index c
  /\ CodexMap.Slice c' = sortStable (Less c) (CodexMap.Slice c).
Proof. unfold Stable. case_decide; [done|]. by intros [= <-]. Qed.

Lemma countOf_Index c c' id :
  CodexMap.Index c' = CodexMap.Index c -> countOf c' id = countOf c id.
Proof. unfold countOf. by intros ->. Qed.

(** The returned order is a rearrangement of the input Slice. *)
Lemma getAssignmentTree_Slice s c h c' h' idx :
  getAssignmentTree assembleCountKey txn setValueRoot s c h = Ok (c', h', idx) ->
  CodexMap.Slice c' ≡ₚ CodexMap.Slice c.
Proof.
  intros (c1 & h1 & Hprobe & Hsort & _)%getAssignmentTree_Ok.
  apply probePhase_Slice in Hprobe. apply Stable_Ok in Hsort as [_ ->].
  rewrite Hprobe.
  destruct (sortStable_spec (fun id => - countOf c1 id)%Z (Less c1)) with (l := CodexMap.Slice c)
    as (_ & Hp & _); [|done].
  intros x y. unfold Less. rewrite bool_decide_eq_true. lia.
Qed.

(** *** Resolution: the shape of one turn *)

Lemma resolveAssignment_Ok s c h index indexMap i id h' index' indexMap' a :
  resolveAssignment setValueRoot s c (h, index, indexMap) i id = Ok (h', index', indexMap', a) ->
  index' = <[id := a]> index /\ indexMap' = <[id := i]> indexMap.
Proof.
  unfold resolveAssignment. destruct (CodexMap.Index c !! id) as [codex|]; [|done].
  intros ([[h1 a1] deps] & _ & [= <- <- <- <-])%bind_Ok.
  by rewrite insert_insert_eq.
Qed.

Lemma resolveVariable_Ok s c h index indexMap i id h' index' indexMap' :
  resolveVariable setValueRoot s c (h, index, indexMap) i id = Ok (h', index', indexMap') ->
  exists a v,
    resolveAssignment setValueRoot s c (h, index, indexMap) i id = Ok (h', index', indexMap', a)
    /\ Assignment.ValueRoot a = Some v.
Proof.
  unfold resolveVariable. intros ([[[h1 index1] indexMap1] a] & Hres & Hroot)%bind_Ok.
  destruct (Assignment.ValueRoot a) as [v|] eqn:Hv; [|done].
  injection Hroot as <- <- <-. by exists a, v.
Qed.

(** After [k] turns the assignment map holds the variables at the first [k]
    positions, each with a ValueRoot. *)
Lemma resolveLoop_ValueRoot s c slice h h' (index : gmap string (Assignment.t V)) indexMap :
  foldMi (resolveVariable setValueRoot s c) 0 slice (h, ∅, ∅) = Ok (h', index, indexMap) ->
  (forall id a, index !! id = Some a -> is_Some (Assignment.ValueRoot a))
  /\ (forall id, id ∈ slice -> is_Some (index !! id)).
Proof.
  intros Hrun.
  pose (P := fun (k : nat) (st : Heap * gmap string (Assignment.t V) * gmap string nat) =>
    (forall id a, st.1.2 !! id = Some a -> is_Some (Assignment.ValueRoot a))
    /\ (forall id, id ∈ take k slice -> is_Some (st.1.2 !! id))).
  apply (foldMi_inv P) in Hrun.
  - destruct Hrun as [H1 H2]. simpl in *. split; [done|].
    intros id Hid. apply H2. by rewrite firstn_all.
  - intros [[h1 index1] indexMap1] k id [[h2 index2] indexMap2] Hk [H1 H2] Hstep.
    simpl in *.
    apply resolveVariable_Ok in Hstep as (a & v & Hres & Hv).
    apply resolveAssignment_Ok in Hres as (-> & ->). split; simpl.
    + intros id' a'. rewrite lookup_insert. case_decide; [|by apply H1].
      intros [= <-]. by rewrite Hv.
    + intros id'. rewrite (take_S_r _ _ id) by done.
      rewrite elem_of_app, list_elem_of_singleton, lookup_insert.
      intros [Hin| ->]; case_decide; eauto; done.
  - split; simpl; [by intros ?? ?%lookup_empty_Some|by intros ? ?%elem_of_nil].
Qed.

(** C9.  When the ValueRoot of a variable is nil after setValueRoot,
    getAssignmentTree returns the error of an empty intersection and with it
    neither an order nor an assignment map; so every variable of a returned
    order has an assignment, and every assignment of a returned map has a
    ValueRoot that is not nil. *)
Theorem getAssignmentTree_ValueRoot s c h :
  (forall c1 h1 c2 pre id post st h2 index indexMap a,
      probePhase assembleCountKey txn s c h = Ok (c1, h1) ->
      Stable c1 = Ok c2 ->
      CodexMap.Slice c2 = pre ++ id :: post ->
      foldMi (resolveVariable setValueRoot s c2) 0 pre (h1, ∅, ∅) = Ok st ->
      resolveAssignment setValueRoot s c2 st (length pre) id = Ok (h2, index, indexMap, a) ->
      Assignment.ValueRoot a = None ->
      getAssignmentTree assembleCountKey txn setValueRoot s c h = Err (EmptyIntersect id))
  /\ (forall c' h' idx,
      getAssignmentTree assembleCountKey txn setValueRoot s c h = Ok (c', h', idx) ->
      (forall id, id ∈ CodexMap.Slice c' ->
         exists a v, idx !! id = Some a /\ Assignment.ValueRoot a = Some v)
      /\ (forall id a, idx !! id = Some a -> is_Some (Assignment.ValueRoot a))).
Proof.
  split.
  - intros c1 h1 c2 pre id post st h2 index indexMap a Hprobe Hsort Hslice Hpre Hres Hnil.
    unfold getAssignmentTree. rewrite Hprobe. simpl. rewrite Hsort. simpl.
    unfold resolvePhase. rewrite Hslice.
    erewrite foldMi_stops; [done|exact Hpre|].
    unfold resolveVariable. rewrite Hres. simpl. by rewrite Hnil.
  - intros c' h' idx (c1 & h1 & _ & _ & Hres)%getAssignmentTree_Ok.
    unfold resolvePhase in Hres.
    apply bind_Ok in Hres as ([[h2 index] indexMap] & Hrun & [= <- <-]).
    apply resolveLoop_ValueRoot in Hrun as [Hroot Hall].
    split; [|done]. intros id Hid. destruct (Hall id Hid) as [a Ha].
    destruct (Hroot id a Ha) as [v Hv]. by exists a, v.
Qed.

(** *** The probe phase: what a probe leaves in the heap *)

Lemma setCursor_setCursor c1 c2 r :
  Reference.setCursor c1 (Reference.setCursor c2 r) = Reference.setCursor c1 r.
Proof. by destruct r. Qed.

Lemma setCursor_id r : Reference.setCursor (Reference.Cursor r) r = r.
Proof. by destruct r. Qed.

Lemma sameButCursors_trans h1 h2 h3 :
  sameButCursors h1 h2 -> sameButCursors h2 h3 -> sameButCursors h1 h3.
Proof. unfold sameButCursors. congruence. Qed.

Lemma sameButCursors_lookup h h' p r' :
  sameButCursors h h' -> refs h' !! p = Some r' ->
  exists r, refs h !! p = Some r /\ forall cur, Reference.setCursor cur r' = Reference.setCursor cur r.
Proof.
  intros Hsame Hp. apply (f_equal (fun l => l !! p)) in Hsame.
  rewrite !list_lookup_fmap, Hp in Hsame. simpl in Hsame.
  destruct (refs h !! p) as [r|]; [|done]. simpl in Hsame.
  exists r. split; [done|].
  intros cur. destruct r', r. unfold Reference.setCursor in *. simpl in *. congruence.
Qed.

Lemma probedCount_sameButCursors h h' p n :
  sameButCursors h h' ->
  probedCount assembleCountKey txn h' p n -> probedCount assembleCountKey txn h p n.
Proof.
  intros Hsame (r' & cur & major & Hp & Hn).
  destruct (sameButCursors_lookup _ _ _ _ Hsame Hp) as (r & Hr & Heq).
  exists r, cur, major. by rewrite <- Heq.
Qed.

Lemma probedHeap_nil h : probedHeap assembleCountKey txn [] [] h h.
Proof.
  split_and!; try done.
  - simpl. by rewrite app_nil_r.
  - by intros p ?%elem_of_nil.
Qed.

Lemma probedHeap_app l1 l2 n1 n2 h h1 h2 :
  probedHeap assembleCountKey txn l1 n1 h h1 ->
  probedHeap assembleCountKey txn l2 n2 h1 h2 ->
  probedHeap assembleCountKey txn (l1 ++ l2) (n1 ++ n2) h h2.
Proof.
  intros (Hc1 & Hz1 & Hs1 & Hcur1 & Hout1 & Hin1) (Hc2 & Hz2 & Hs2 & Hcur2 & Hout2 & Hin2).
  assert (length (cursors h) <= length (cursors h1)) as Hle.
  { rewrite Hcur1, length_app. lia. }
  assert (length (cursors h1) <= length (cursors h2)) as Hle'.
  { rewrite Hcur2, length_app. lia. }
  split_and!.
  - apply Forall2_app; [done|].
    eapply Forall2_impl; [exact Hc2|]. intros p n. by apply probedCount_sameButCursors.
  - by apply Forall_app.
  - by eapply sameButCursors_trans.
  - by rewrite Hcur2, Hcur1, fmap_app, app_assoc.
  - intros p [Hp1 Hp2]%not_elem_of_app. by rewrite Hout2, Hout1.
  - intros p Hp. destruct (decide (p ∈ l2)) as [Hp2|Hp2].
    + destruct (Hin2 p Hp2) as (r & cur & ? & ? & ?). exists r, cur. split_and!; [done..|lia|lia].
    + apply elem_of_app in Hp as [Hp1|?]; [|done].
      destruct (Hin1 p Hp1) as (r & cur & ? & ? & ?). exists r, cur.
      rewrite Hout2 by done. split_and!; [done..|lia|lia].
Qed.

Lemma probeRef_Ok zero h major codex p h' major' codex' :
  probeRef assembleCountKey txn zero (h, major, codex) p = Ok (h', major', codex') ->
  exists n, probedHeap assembleCountKey txn [p] [n] h h' /\ codex' = account n codex.
Proof.
  unfold probeRef. destruct (refs h !! p) as [r|] eqn:Hp; [|done].
  destruct (assembleCountKey r major) as [key major1] eqn:Hkey. simpl.
  intros (n & Hn & Hrest)%bind_Ok. case_decide as Hz; [done|].
  injection Hrest as <- <- <-. exists n. split; [|done].
  unfold updCursor, updReference. simpl. split_and!; simpl.
  - constructor; [|done]. exists r, (Reference.Cursor r), major.
    by rewrite setCursor_id, Hkey.
  - by constructor.
  - unfold sameButCursors. simpl.
    apply list_eq. intros i. rewrite !list_lookup_fmap, list_lookup_alter.
    case_decide; [|done]. subst. destruct (refs h !! i); [|done]. simpl.
    by rewrite setCursor_setCursor.
  - rewrite alter_app_r_alt, Nat.sub_diag by done. done.
  - intros q Hq. apply list_lookup_alter_ne. intros ->. apply Hq. by left.
  - intros q ->%list_elem_of_singleton.
    eexists _, _. rewrite list_lookup_alter_eq, Hp. simpl.
    split_and!; [done..|]. rewrite length_alter, length_app. simpl. lia.
Qed.

(** *** The probe phase, loop by loop *)

Lemma probeRefs_Ok zero l h major codex h' major' codex' :
  foldM (probeRef assembleCountKey txn zero) l (h, major, codex) = Ok (h', major', codex') ->
  exists counts,
    probedHeap assembleCountKey txn l counts h h'
    /\ codex' = foldl (fun cx n => account n cx) codex counts.
Proof.
  revert h major codex. induction l as [|p l IH]; intros h major codex; simpl.
  - intros [= <- <- <-]. exists []. split; [apply probedHeap_nil|done].
  - intros ([[h1 major1] codex1] & Hp & Hl)%bind_Ok.
    apply probeRef_Ok in Hp as (n & Hn & ->).
    apply IH in Hl as (counts & Hcounts & ->).
    exists (n :: counts). split; [|done].
    by apply (probedHeap_app [p] l [n] counts h h1 h').
Qed.

Lemma probeGroups_Ok (groups : list (string * list ptr)) h major codex h' major' codex' :
  foldM (fun st '(_, rs) => foldM (probeRef assembleCountKey txn DoubleCountZero) rs st)
        groups (h, major, codex) = Ok (h', major', codex') ->
  exists counts,
    probedHeap assembleCountKey txn (mjoin (snd <$> groups)) counts h h'
    /\ codex' = foldl (fun cx n => account n cx) codex counts.
Proof.
  revert h major codex. induction groups as [|[dep rs] groups IH]; intros h major codex; simpl.
  - intros [= <- <- <-]. exists []. split; [apply probedHeap_nil|done].
  - intros ([[h1 major1] codex1] & Hrs & Hrest)%bind_Ok.
    apply probeRefs_Ok in Hrs as (n1 & Hn1 & ->).
    apply IH in Hrest as (n2 & Hn2 & ->).
    exists (n1 ++ n2). split; [by eapply probedHeap_app|by rewrite foldl_app].
Qed.

Lemma account_fold_Double counts codex :
  Codex.Double (foldl (fun cx n => account n cx) codex counts) = Codex.Double codex.
Proof.
  revert codex. induction counts as [|n counts IH]; intros codex; simpl; [done|].
  by rewrite IH.
Qed.

Lemma probeCodex_Ok s h major index id codex h' major' index' :
  probeCodex assembleCountKey txn s (h, major, index) (id, codex) = Ok (h', major', index') ->
  exists counts,
    probedHeap assembleCountKey txn (probeList s id codex) counts h h'
    /\ index' = <[id := foldl (fun cx n => account n cx) (Codex.setCount 0 codex) counts]> index.
Proof.
  unfold probeCodex. intros ([[h1 major1] codex1] & Hs & Hrest)%bind_Ok.
  apply bind_Ok in Hrest as ([[h2 major2] codex2] & Hd & [= <- <- <-]).
  apply probeRefs_Ok in Hs as (n1 & Hn1 & ->).
  rewrite account_fold_Double in Hd. simpl in Hd.
  apply probeGroups_Ok in Hd as (n2 & Hn2 & ->).
  exists (n1 ++ n2). split; [by eapply probedHeap_app|by rewrite foldl_app].
Qed.

Lemma probeLoop_Ok s (entries : list (string * Codex.t)) h major index h' major' index' :
  NoDup (fst <$> entries) ->
  foldM (probeCodex assembleCountKey txn s) entries (h, major, index) = Ok (h', major', index') ->
  (exists counts,
     probedHeap assembleCountKey txn
       (mjoin ((fun e : string * Codex.t => probeList s e.1 e.2) <$> entries)) counts h h')
  /\ (forall id, id ∉ fst <$> entries -> index' !! id = index !! id)
  /\ (forall id codex, (id, codex) ∈ entries ->
        exists counts,
          Forall2 (probedCount assembleCountKey txn h) (probeList s id codex) counts
          /\ Forall (fun n => n ≠ 0%Z) counts
          /\ index' !! id
             = Some (foldl (fun cx n => account n cx) (Codex.setCount 0 codex) counts)).
Proof.
  revert h major index. induction entries as [|[id codex] entries IH];
    intros h major index Hnd; simpl.
  - intros [= <- <- <-]. split_and!.
    + exists []. apply probedHeap_nil.
    + done.
    + by intros ?? ?%elem_of_nil.
  - intros ([[h1 major1] index1] & Hc & Hrest)%bind_Ok.
    apply NoDup_cons in Hnd as [Hid Hnd].
    apply probeCodex_Ok in Hc as (n1 & Hn1 & ->).
    apply IH in Hrest as ((n2 & Hn2) & Hout & Hin); [|done].
    split_and!.
    + exists (n1 ++ n2). by eapply probedHeap_app.
    + intros id' [Hne Hid']%not_elem_of_cons. rewrite Hout by done.
      by rewrite lookup_insert_ne.
    + intros id' codex' [[= -> ->]|Hin']%elem_of_cons.
      * exists n1. destruct Hn1 as (? & ? & _). split_and!; [done..|].
        rewrite Hout by done. by rewrite lookup_insert_eq.
      * destruct (Hin id' codex' Hin') as (cs & Hcs & Hz & Hlook).
        exists cs. split_and!; [|done..].
        eapply Forall2_impl; [exact Hcs|]. intros p n.
        apply probedCount_sameButCursors. by destruct Hn1 as (_ & _ & ? & _).
Qed.

(** The whole probe phase. *)
Lemma probePhase_Ok s c h c1 h1 :
  probePhase assembleCountKey txn s c h = Ok (c1, h1) ->
  CodexMap.Slice c1 = CodexMap.Slice c
  /\ (exists counts, probedHeap assembleCountKey txn (probeWork s c) counts h h1)
  /\ (forall id, CodexMap.Index c !! id = None -> CodexMap.Index c1 !! id = None)
  /\ (forall id codex, CodexMap.Index c !! id = Some codex ->
        exists counts,
          Forall2 (probedCount assembleCountKey txn h) (probeList s id codex) counts
          /\ Forall (fun n => n ≠ 0%Z) counts
          /\ CodexMap.Index c1 !! id
             = Some (foldl (fun cx n => account n cx) (Codex.setCount 0 codex) counts)).
Proof.
  unfold probePhase. intros ([[h' major] index] & Hloop & [= <- <-])%bind_Ok.
  apply probeLoop_Ok in Hloop as (Hheap & Hout & Hin); [|apply NoDup_fst_range].
  simpl. split_and!; [done|done| |].
  - intros id Hid. rewrite Hout; [done|].
    intros ([id' codex] & -> & Hin')%list_elem_of_fmap.
    apply elem_of_range in Hin'. simpl in Hid. congruence.
  - intros id codex Hid. apply Hin. by apply elem_of_range.
Qed.

Lemma elem_of_probeList s id codex p :
  p ∈ probeList s id codex
  <-> p ∈ Codex.Single codex \/ exists dep rs, Codex.Double codex !! dep = Some rs /\ p ∈ rs.
Proof.
  unfold probeList. rewrite elem_of_app. apply or_iff_compat_l.
  rewrite list_elem_of_join. split.
  - intros (rs & Hp & ([dep rs'] & -> & Hin%elem_of_range)%list_elem_of_fmap). eauto.
  - intros (dep & rs & Hd & Hp). exists rs. split; [done|].
    apply list_elem_of_fmap. exists (dep, rs). split; [done|]. by apply elem_of_range.
Qed.

Lemma elem_of_probeWork s c p :
  p ∈ probeWork s c
  <-> exists id codex, CodexMap.Index c !! id = Some codex /\ p ∈ probeList s id codex.
Proof.
  unfold probeWork. rewrite list_elem_of_join. split.
  - intros (l & Hp & ([id codex] & -> & Hin%elem_of_range)%list_elem_of_fmap). eauto.
  - intros (id & codex & Hid & Hp). exists (probeList s id codex). split; [done|].
    apply list_elem_of_fmap. exists (id, codex). split; [done|]. by apply elem_of_range.
Qed.

Lemma getCount_absent key : txn key = ErrKeyNotFound -> getCount key txn = Ok 0%Z.
Proof. unfold getCount. by intros ->. Qed.

(** *** The probe phase does not panic on a well-formed store *)

Lemma sameButCursors_length h h' : sameButCursors h h' -> length (refs h') = length (refs h).
Proof. intros Hs. apply (f_equal length) in Hs. by rewrite !length_fmap in Hs. Qed.

Lemma probedHeap_length l counts h h' :
  probedHeap assembleCountKey txn l counts h h' -> length (refs h') = length (refs h).
Proof. intros (_ & _ & Hs & _). by apply sameButCursors_length. Qed.

Lemma probeRef_no_panic zero h major codex p :
  storeWellFormed txn -> p < length (refs h) ->
  probeRef assembleCountKey txn zero (h, major, codex) p ≠ Panic.
Proof.
  intros Hwf Hp. unfold probeRef.
  destruct (lookup_lt_is_Some_2 _ _ Hp) as [r ->].
  destruct (assembleCountKey r major) as [key major1]. simpl. unfold getCount.
  destruct (txn key) as [| |[e|count]] eqn:Hkey; simpl; try done.
  unfold Uint64. pose proof (Hwf key count Hkey). case_decide; [lia|]. simpl.
  by case_decide.
Qed.

Lemma probeRefs_no_panic zero l h major codex :
  storeWellFormed txn -> (forall p, p ∈ l -> p < length (refs h)) ->
  foldM (probeRef assembleCountKey txn zero) l (h, major, codex) ≠ Panic.
Proof.
  intros Hwf Hl.
  apply (foldM_no_panic (fun st : Heap * bool * Codex.t => length (refs st.1.1) = length (refs h)));
    [| |done].
  - intros [[h1 m1] c1] p [[h2 m2] c2] _ Hlen (n & Hn & _)%probeRef_Ok. simpl in *.
    by rewrite (probedHeap_length _ _ _ _ Hn).
  - intros [[h1 m1] c1] p Hp Hlen. simpl in *. apply probeRef_no_panic; [done|].
    rewrite Hlen. by apply Hl.
Qed.

Lemma probeGroups_no_panic (groups : list (string * list ptr)) h major codex :
  storeWellFormed txn ->
  (forall p, p ∈ mjoin (snd <$> groups) -> p < length (refs h)) ->
  foldM (fun st '(_, rs) => foldM (probeRef assembleCountKey txn DoubleCountZero) rs st)
        groups (h, major, codex) ≠ Panic.
Proof.
  intros Hwf Hl.
  apply (foldM_no_panic (fun st : Heap * bool * Codex.t => length (refs st.1.1) = length (refs h)));
    [| |done].
  - intros [[h1 m1] c1] [dep rs] [[h2 m2] c2] _ Hlen (n & Hn & _)%probeRefs_Ok. simpl in *.
    by rewrite (probedHeap_length _ _ _ _ Hn).
  - intros [[h1 m1] c1] [dep rs] Hin Hlen. simpl in *. apply probeRefs_no_panic; [done|].
    intros p Hp. rewrite Hlen. apply Hl, list_elem_of_join. exists rs. split; [done|].
    apply list_elem_of_fmap. by exists (dep, rs).
Qed.

Lemma probeCodex_no_panic s h major index id codex :
  storeWellFormed txn ->
  (forall p, p ∈ probeList s id codex -> p < length (refs h)) ->
  probeCodex assembleCountKey txn s (h, major, index) (id, codex) ≠ Panic.
Proof.
  intros Hwf Hl. unfold probeCodex.
  destruct (foldM _ (Codex.Single _) _) as [[[h1 major1] codex1]| |] eqn:Hs; simpl; [|done|].
  - pose proof Hs as (n1 & Hn1 & ->)%probeRefs_Ok.
    rewrite account_fold_Double. simpl.
    destruct (foldM _ (range _ _) _) as [[[h2 major2] codex2]| |] eqn:Hd; simpl; [done..|].
    exfalso. refine (probeGroups_no_panic _ _ _ _ Hwf _ Hd).
    intros p Hp. rewrite (probedHeap_length _ _ _ _ Hn1). apply Hl.
    unfold probeList. apply elem_of_app. by right.
  - exfalso. refine (probeRefs_no_panic _ _ _ _ _ Hwf _ Hs).
    intros p Hp. apply Hl. unfold probeList. apply elem_of_app. by left.
Qed.

Lemma probePhase_no_panic s c h :
  storeWellFormed txn -> referencesIn h c ->
  probePhase assembleCountKey txn s c h ≠ Panic.
Proof.
  intros Hwf Hin. unfold probePhase.
  destruct (foldM _ _ _) as [[[h1 major1] index1]| |] eqn:Hloop; simpl; [done..|].
  exfalso.
  refine (foldM_no_panic (fun st : Heap * bool * gmap string Codex.t =>
                            length (refs st.1.1) = length (refs h)) _ _ _ _ _ _ Hloop);
    [| |done].
  - intros [[h1 m1] i1] [id codex] [[h2 m2] i2] _ Hlen (n & Hn & _)%probeCodex_Ok. simpl in *.
    by rewrite (probedHeap_length _ _ _ _ Hn).
  - intros [[h1 m1] i1] [id codex] Hentry%elem_of_range Hlen. simpl in *.
    apply probeCodex_no_panic; [done|].
    intros p Hp%elem_of_probeList. rewrite Hlen. apply lookup_lt_is_Some.
    by eapply Hin.
Qed.

(** *** Resolution: what one Double group does *)

Lemma sameButTags_refl h : sameButTags h h.
Proof. done. Qed.

Lemma sameButTags_trans h1 h2 h3 :
  sameButTags h1 h2 -> sameButTags h2 h3 -> sameButTags h1 h3.
Proof. unfold sameButTags. intros [H1 H2] [H3 H4]. split; congruence. Qed.

Lemma sameButTags_updCursor h cur f :
  (forall c, Cursor.Count (f c) = Cursor.Count c) -> sameButTags h (updCursor cur f h).
Proof.
  intros Hf. split; [done|]. simpl. apply list_eq. intros i.
  rewrite !list_lookup_fmap, list_lookup_alter. case_decide; [subst|done].
  destruct (cursors h !! i); simpl; [|done]. by rewrite Hf.
Qed.

Lemma pastRef_Ok dep h past k p h' past' :
  pastRef dep (h, past) k p = Ok (h', past') ->
  exists cp, cursorAt h p cp /\ sameButTags h h'
    /\ Past.Cursors past' = Past.Cursors past ++ [cp]
    /\ Past.Groups past' = Past.Groups past.
Proof.
  unfold pastRef. destruct (refs h !! p) as [r|] eqn:Hp; [|done].
  destruct (Reference.Cursor r) as [cp|] eqn:Hcp; [|done].
  intros [= <- <-]. exists cp. split_and!; [by exists r| |done..].
  eapply sameButTags_trans; by apply sameButTags_updCursor.
Qed.

Lemma pastRefs_Ok dep rs k h past h' past' :
  foldMi (pastRef dep) k rs (h, past) = Ok (h', past') ->
  exists new, Forall2 (cursorAt h) rs new /\ sameButTags h h'
    /\ Past.Cursors past' = Past.Cursors past ++ new
    /\ Past.Groups past' = Past.Groups past.
Proof.
  revert k h past. induction rs as [|p rs IH]; intros k h past; simpl.
  - intros [= <- <-]. exists []. by rewrite app_nil_r.
  - intros ([h1 past1] & Hp & Hrs)%bind_Ok.
    apply pastRef_Ok in Hp as (cp & Hcp & Hh & Hc & Hg).
    apply IH in Hrs as (new & Hnew & Hh' & Hc' & Hg').
    exists (cp :: new). split_and!.
    + constructor; [done|]. eapply Forall2_impl; [exact Hnew|].
      intros q cq (r & Hq & Hr). exists r. destruct Hh as [<- _]. done.
    + by eapply sameButTags_trans.
    + by rewrite Hc', Hc, <- app_assoc.
    + by rewrite Hg', Hg.
Qed.

Lemma elem_of_dom_raiseDep j (deps : gmap nat nat) k k' :
  k' ∈ dom (raiseDep j deps k) <-> k' ∈ dom deps \/ (k' = k /\ 0 < j).
Proof.
  unfold raiseDep. rewrite !elem_of_dom. case_decide as Hlt.
  - rewrite lookup_insert. case_decide as Hk.
    + subst. split; [intros _; right; split; [done|lia]|by eauto].
    + split; [by left|]. by intros [?|[? _]].
  - split; [by left|]. intros [?|[-> Hj]]; [done|].
    destruct (deps !! k) as [v|] eqn:Hv; [done|]. simpl in Hlt. lia.
Qed.

Lemma elem_of_dom_raiseDeps j (deps : gmap nat nat) l k' :
  k' ∈ dom (foldl (raiseDep j) deps l) <-> k' ∈ dom deps \/ (k' ∈ l /\ 0 < j).
Proof.
  revert deps. induction l as [|k l IH]; intros deps; simpl.
  - split; [by left|]. by intros [?|[?%elem_of_nil _]].
  - rewrite IH, elem_of_dom_raiseDep, elem_of_cons. tauto.
Qed.

Lemma resolveGroup_Ok indexMap (index : gmap string (Assignment.t V)) h a deps dep rs h' a' deps' :
  resolveGroup indexMap index (h, a, deps) (dep, rs) = Ok (h', a', deps') ->
  sameButTags h h' /\ sameStatics a a'
  /\ match indexMap !! dep with
     | Some j =>
         exists new adep,
           Forall2 (cursorAt h) rs new
           /\ Past.Cursors (Assignment.Past a') = Past.Cursors (Assignment.Past a) ++ new
           /\ Assignment.Future a' = Assignment.Future a
           /\ index !! dep = Some adep
           /\ deps' = foldl (raiseDep j) (raiseDep j deps j) (Assignment.Dependencies adep)
     | None =>
         Assignment.Past a' = Assignment.Past a
         /\ Assignment.Future a' = <[dep := rs]> (Assignment.Future a)
         /\ deps' = deps
     end.
Proof.
  unfold resolveGroup. destruct (indexMap !! dep) as [j|].
  - intros ([h1 past1] & Hrs & Hrest)%bind_Ok.
    destruct (index !! dep) as [adep|]; [|done]. injection Hrest as <- <- <-.
    apply pastRefs_Ok in Hrs as (new & Hnew & Hh & Hc & _).
    split_and!; [done|done|]. exists new, adep. by split_and!.
  - intros [= <- <- <-]. by split_and!.
Qed.

Lemma cursorAt_sameButTags h h' p cp :
  sameButTags h h' -> cursorAt h' p cp <-> cursorAt h p cp.
Proof. intros [Hrefs _]. unfold cursorAt. by rewrite Hrefs. Qed.

Lemma cursorAt_new h rs new cp :
  Forall2 (cursorAt h) rs new ->
  cp ∈ new <-> exists p, p ∈ rs /\ cursorAt h p cp.
Proof.
  intros Hnew. split.
  - intros [k Hk]%list_elem_of_lookup.
    destruct (Forall2_lookup_r _ _ _ _ _ Hnew Hk) as (p & Hp & Hcp).
    exists p. split; [|done]. apply list_elem_of_lookup. eauto.
  - intros (p & [k Hk]%list_elem_of_lookup & (r & Hr & Hcp)).
    destruct (Forall2_lookup_l _ _ _ _ _ Hnew Hk) as (cp' & Hcp' & (r' & Hr' & Hcp'')).
    assert (cp' = cp) as -> by congruence.
    apply list_elem_of_lookup. eauto.
Qed.

Lemma sameStatics_trans (a1 a2 a3 : Assignment.t V) :
  sameStatics a1 a2 -> sameStatics a2 a3 -> sameStatics a1 a3.
Proof. unfold sameStatics. intros (?&?&?&?) (?&?&?&?). split_and!; congruence. Qed.

(** The loop over codex.Double, for any visiting order [entries]. *)
Lemma resolveGroups_Ok indexMap (index : gmap string (Assignment.t V)) entries h a deps h' a' deps' :
  NoDup (fst <$> entries) ->
  foldM (resolveGroup indexMap index) entries (h, a, deps) = Ok (h', a', deps') ->
  sameButTags h h' /\ sameStatics a a'
  /\ (forall cp, cp ∈ Past.Cursors (Assignment.Past a') <->
        cp ∈ Past.Cursors (Assignment.Past a)
        \/ exists dep rs j p, (dep, rs) ∈ entries /\ indexMap !! dep = Some j
             /\ p ∈ rs /\ cursorAt h p cp)
  /\ (forall dep rs, (dep, rs) ∈ entries -> indexMap !! dep = None ->
        Assignment.Future a' !! dep = Some rs)
  /\ (forall dep, dep ∉ fst <$> entries \/ is_Some (indexMap !! dep) ->
        Assignment.Future a' !! dep = Assignment.Future a !! dep)
  /\ (forall k, k ∈ dom deps' <->
        k ∈ dom deps
        \/ exists dep rs j adep, (dep, rs) ∈ entries /\ indexMap !! dep = Some j /\ 0 < j
             /\ index !! dep = Some adep /\ (k = j \/ k ∈ Assignment.Dependencies adep)).
Proof.
  revert h a deps. induction entries as [|[dep rs] entries IH]; intros h a deps Hnd; simpl.
  - intros [= <- <- <-]. split_and!; try done.
    + intros cp. split; [by left|]. by intros [?|(?&?&?&?&?%elem_of_nil&_)].
    + by intros ?? ?%elem_of_nil.
    + intros k. split; [by left|]. by intros [?|(?&?&?&?&?%elem_of_nil&_)].
  - intros ([[h1 a1] deps1] & Hg & Hrest)%bind_Ok.
    apply NoDup_cons in Hnd as [Hdep Hnd].
    apply resolveGroup_Ok in Hg as (Hh1 & Ha1 & Hcase).
    apply IH in Hrest as (Hh' & Ha' & Hcur & Hfut & Hfut' & Hdeps); [|done].
    split_and!.
    + by eapply sameButTags_trans.
    + by eapply sameStatics_trans.
    + intros cp. rewrite Hcur. setoid_rewrite (cursorAt_sameButTags h h1); [|done..].
      setoid_rewrite elem_of_cons.
      destruct (indexMap !! dep) as [j|] eqn:Hj.
      * destruct Hcase as (new & adep & Hnew & -> & _).
        rewrite elem_of_app, (cursorAt_new h rs new cp Hnew). split.
        -- intros [[?|(p & ? & ?)]|(d & rs' & j' & p & ? & ? & ? & ?)]; [by left| |].
           ++ right. exists dep, rs, j, p. eauto.
           ++ right. exists d, rs', j', p. eauto.
        -- intros [?|(d & rs' & j' & p & [[= -> ->]|?] & ? & ? & ?)]; [by left;left| |].
           ++ left. right. by exists p.
           ++ right. exists d, rs', j', p. eauto.
      * destruct Hcase as (-> & _). split.
        -- intros [?|(d & rs' & j' & p & ? & ? & ? & ?)]; [by left|].
           right. exists d, rs', j', p. eauto.
        -- intros [?|(d & rs' & j' & p & [[= -> ->]|?] & ? & ? & ?)]; [by left|congruence|].
           right. exists d, rs', j', p. eauto.
    + intros d rs' [[= -> ->]|Hin]%elem_of_cons Hnone.
      * rewrite Hnone in Hcase. destruct Hcase as (_ & HF & _).
        rewrite Hfut'; [by rewrite HF, lookup_insert_eq|by left].
      * by apply Hfut.
    + intros d Hd. rewrite Hfut'.
      * destruct (indexMap !! dep) as [j|] eqn:Hj.
        -- by destruct Hcase as (new & adep & _ & _ & -> & _).
        -- destruct Hcase as (_ & -> & _). rewrite lookup_insert_ne; [done|].
           intros ->. destruct Hd as [Hd|[? Hd]]; [|congruence].
           apply Hd. simpl. by left.
      * destruct Hd as [Hd|Hd]; [|by right]. left. intros ?. apply Hd. simpl. by right.
    + intros k. rewrite Hdeps. setoid_rewrite elem_of_cons.
      destruct (indexMap !! dep) as [j|] eqn:Hj.
      * destruct Hcase as (new & adep & _ & _ & _ & Hadep & ->).
        rewrite elem_of_dom_raiseDeps, elem_of_dom_raiseDep. split.
        -- intros [[[?|[-> ?]]|[? ?]]|(d & rs' & j' & ad & ? & ? & ? & ? & ?)].
           ++ by left.
           ++ right. exists dep, rs, j, adep. eauto 10.
           ++ right. exists dep, rs, j, adep. eauto 10.
           ++ right. exists d, rs', j', ad. eauto 10.
        -- intros [?|(d & rs' & j' & ad & [[= -> ->]|?] & ? & ? & ? & ?)].
           ++ by left; left; left.
           ++ simplify_eq. left. tauto.
           ++ right. exists d, rs', j', ad. eauto 10.
      * destruct Hcase as (_ & _ & ->). split.
        -- intros [?|(d & rs' & j' & ad & ? & ? & ? & ? & ?)]; [by left|].
           right. exists d, rs', j', ad. eauto 10.
        -- intros [?|(d & rs' & j' & ad & [[= -> ->]|?] & ? & ? & ? & ?)];
             [by left|congruence|].
           right. exists d, rs', j', ad. eauto 10.
Qed.

(** *** Resolution: one variable *)

Lemma resolveAssignment_spec s c h index indexMap i id h' index' indexMap' a :
  resolveAssignment setValueRoot s c (h, index, indexMap) i id = Ok (h', index', indexMap', a) ->
  exists codex,
    CodexMap.Index c !! id = Some codex
    /\ sameButTags h h'
    /\ Assignment.Constraint a = Codex.Constraint codex
    /\ Assignment.Present a = Codex.Single codex
    /\ (forall cp, cp ∈ Past.Cursors (Assignment.Past a) <->
          exists dep rs j p, Codex.Double codex !! dep = Some rs
            /\ <[id := i]> indexMap !! dep = Some j /\ p ∈ rs /\ cursorAt h p cp)
    /\ (forall dep rs, Assignment.Future a !! dep = Some rs <->
          Codex.Double codex !! dep = Some rs /\ <[id := i]> indexMap !! dep = None)
    /\ (forall k, k ∈ Assignment.Dependencies a <->
          exists dep rs j adep, Codex.Double codex !! dep = Some rs
            /\ <[id := i]> indexMap !! dep = Some j /\ 0 < j
            /\ <[id := Assignment.mk (Codex.Constraint codex) (Codex.Single codex)
                          Past.zero ∅ [] None]> index !! dep = Some adep
            /\ (k = j \/ k ∈ Assignment.Dependencies adep))
    /\ StronglySorted le (Assignment.Dependencies a)
    /\ NoDup (Assignment.Dependencies a).
Proof.
  unfold resolveAssignment. destruct (CodexMap.Index c !! id) as [codex|]; [|done].
  intros ([[h1 a1] deps] & Hloop & [= <- <- <- <-])%bind_Ok.
  apply resolveGroups_Ok in Hloop
    as (Hh & (HC & HP & _ & _) & Hcur & Hfut & Hfut' & Hdeps); [|apply NoDup_fst_range].
  exists codex. simpl in *.
  destruct (sortDependencies_spec (fst <$> range (sDeps s i) deps)) as [Hsorted Hperm].
  split_and!; try done.
  - intros cp. rewrite Hcur. setoid_rewrite elem_of_range.
    split; [by intros [?%elem_of_nil|?]|by right].
  - intros dep rs. split.
    + intros HF. destruct (Codex.Double codex !! dep) as [rs'|] eqn:HD.
      * destruct (<[id:=i]> indexMap !! dep) as [j|] eqn:Hj.
        -- rewrite Hfut' in HF by (right; eauto). by rewrite lookup_empty in HF.
        -- rewrite (Hfut dep rs') in HF; [by simplify_eq|by apply elem_of_range|done].
      * rewrite Hfut' in HF; [by rewrite lookup_empty in HF|]. left.
        intros ([d rs'] & -> & Hin%elem_of_range)%list_elem_of_fmap. simpl in HD. congruence.
    + intros [HD Hj]. apply Hfut; [by apply elem_of_range|done].
  - intros k. rewrite Hperm, elem_of_fst_range, <- elem_of_dom.
    rewrite Hdeps, dom_empty_L. setoid_rewrite elem_of_range.
    split; [by intros [?%not_elem_of_empty|?]|by right].
  - rewrite Hperm. apply NoDup_fst_range.
Qed.

(** *** Resolution: the whole loop *)

Lemma resolved_index c slice h (index index' : gmap string (Assignment.t V)) i id a :
  (forall dep j, slice !! j = Some dep -> j < i -> index' !! dep = index !! dep) ->
  resolved c slice h index i id a -> resolved c slice h index' i id a.
Proof.
  intros Hsame (codex & Hc & HC & HP & Hpast & Hfut & Hdeps & Hs & Hnd).
  exists codex. split_and!; try done.
  intros k. rewrite Hdeps. split.
  - intros (dep & rs & j & adep & ? & [? ?] & ? & ? & ?).
    exists dep, rs, j, adep. rewrite (Hsame dep j) by done. eauto 10.
  - intros (dep & rs & j & adep & ? & [? ?] & ? & Hl & ?).
    exists dep, rs, j, adep. rewrite (Hsame dep j) in Hl by done. eauto 10.
Qed.

Lemma resolveLoop_spec s c h1 h' (index : gmap string (Assignment.t V)) indexMap :
  NoDup (CodexMap.Slice c) ->
  (forall id codex, CodexMap.Index c !! id = Some codex -> Codex.Double codex !! id = None) ->
  foldMi (resolveVariable setValueRoot s c) 0 (CodexMap.Slice c) (h1, ∅, ∅)
  = Ok (h', index, indexMap) ->
  sameButTags h1 h'
  /\ forall i id, CodexMap.Slice c !! i = Some id ->
       exists a, index !! id = Some a /\ resolved c (CodexMap.Slice c) h1 index i id a.
Proof.
  intros Hnd Hself Hrun. set (slice := CodexMap.Slice c) in *.
  pose (P := fun (k : nat) (st : Heap * gmap string (Assignment.t V) * gmap string nat) =>
    sameButTags h1 st.1.1
    /\ (forall id j, st.2 !! id = Some j <-> slice !! j = Some id /\ j < k)
    /\ (forall i id, slice !! i = Some id -> i < k ->
          exists a, st.1.2 !! id = Some a /\ resolved c slice h1 st.1.2 i id a)).
  apply (foldMi_inv P) in Hrun.
  - destruct Hrun as (Hh & _ & Hall). simpl in *. split; [done|].
    intros i id Hi. apply Hall; [done|]. by eapply lookup_lt_Some.
  - clear Hrun. intros [[h index0] indexMap0] k id [[h2 index2] indexMap2] Hk (Hh & Hpos & Hall) Hstep.
    simpl in *.
    apply resolveVariable_Ok in Hstep as (a & v & Hres & Hv).
    pose proof (resolveAssignment_Ok _ _ _ _ _ _ _ _ _ _ _ Hres) as [-> ->].
    apply resolveAssignment_spec in Hres
      as (codex & Hc & Hh2 & HC & HP & Hpast & Hfut & Hdeps & Hsorted & Hnodup).
    assert (forall dep rs j, Codex.Double codex !! dep = Some rs ->
              (<[id:=k]> indexMap0 !! dep = Some j <-> slice !! j = Some dep /\ j < k)) as Hbefore.
    { intros dep rs j HD. rewrite lookup_insert_ne; [apply Hpos|].
      intros ->. rewrite (Hself _ _ Hc) in HD. done. }
    assert (forall dep rs, Codex.Double codex !! dep = Some rs ->
              (<[id:=k]> indexMap0 !! dep = None <-> forall j, slice !! j = Some dep -> k <= j))
      as Hnotyet.
    { intros dep rs HD. split.
      - intros Hnone j Hj. destruct (decide (j < k)) as [Hlt|]; [|lia].
        assert (<[id:=k]> indexMap0 !! dep = Some j) by (by apply (Hbefore dep rs j HD)).
        congruence.
      - intros Hlater. destruct (<[id:=k]> indexMap0 !! dep) as [j|] eqn:Hj; [|done].
        apply (Hbefore dep rs j HD) in Hj as [Hj ?]. apply Hlater in Hj. lia. }
    split_and!; simpl.
    + by eapply sameButTags_trans.
    + intros id' j. rewrite lookup_insert. case_decide as Hid.
      * subst id'. split.
        -- intros [= <-]. split; [done|lia].
        -- intros [Hj ?]. f_equal. exact (NoDup_lookup slice k j id Hnd Hk Hj).
      * rewrite Hpos. split; [intros [? ?]; split; [done|lia]|].
        intros [Hj ?]. split; [done|]. destruct (decide (j = k)) as [->|]; [congruence|lia].
    + intros i id' Hi Hlt. destruct (decide (i = k)) as [->|Hne].
      * assert (id' = id) as -> by congruence. exists a. rewrite lookup_insert_eq. split; [done|].
        exists codex. split_and!; try done.
        -- intros cp. rewrite Hpast. setoid_rewrite (cursorAt_sameButTags h1 h); [|done..].
           split; intros (dep & rs & j & p & HD & Hj & ?); exists dep, rs, j, p;
             (split; [done|]); (split; [by apply (Hbefore dep rs j HD)|done]).
        -- intros dep rs. rewrite Hfut. split; intros [HD Hj]; (split; [done|]);
             by apply (Hnotyet dep rs HD).
        -- intros n. rewrite Hdeps.
           split; intros (dep & rs & j & adep & HD & Hj & ? & Hl & ?); exists dep, rs, j, adep;
             (assert (dep ≠ id) as Hne' by (intros ->; by rewrite (Hself _ _ Hc) in HD));
             rewrite lookup_insert_ne in Hl by done;
             (split; [done|]); (split; [by apply (Hbefore dep rs j HD)|]);
             (split; [done|]); rewrite lookup_insert_ne by done; done.
      * destruct (Hall i id' Hi ltac:(lia)) as (a' & Ha' & Hres').
        assert (id' ≠ id) as Hid.
        { intros ->. apply Hne. exact (NoDup_lookup slice i k id Hnd Hi Hk). }
        exists a'. rewrite lookup_insert_ne by done. split; [done|].
        eapply resolved_index; [|exact Hres'].
        intros dep j Hj Hji. apply lookup_insert_ne. intros Heq. rewrite <- Heq in Hj.
        pose proof (NoDup_lookup slice j k id Hnd Hj Hk). lia.
  - split_and!; simpl.
    + apply sameButTags_refl.
    + intros id j. rewrite lookup_empty. split; [done|lia].
    + intros; lia.
Qed.

Lemma resolved_heap c slice h h' (index : gmap string (Assignment.t V)) i id a :
  sameButTags h h' -> resolved c slice h index i id a -> resolved c slice h' index i id a.
Proof.
  intros Hh (codex & Hc & HC & HP & Hpast & Hfut & Hdeps & Hs & Hnd).
  exists codex. split_and!; try done.
  intros cp. rewrite Hpast. by setoid_rewrite (cursorAt_sameButTags h h').
Qed.

Lemma resolvePhase_heap s c h1 h' (idx : gmap string (Assignment.t V)) :
  resolvePhase setValueRoot s c h1 = Ok (h', idx) -> sameButTags h1 h'.
Proof.
  unfold resolvePhase. intros ([[h2 index] indexMap] & Hrun & [= <- <-])%bind_Ok.
  pose (P := fun (k : nat) (st : Heap * gmap string (Assignment.t V) * gmap string nat) =>
    sameButTags h1 st.1.1).
  apply (foldMi_inv P) in Hrun; [done| |done].
  intros [[h index0] indexMap0] k id [[h3 index3] indexMap3] _ Hh Hstep.
  apply resolveVariable_Ok in Hstep as (a & v & Hres & _).
  apply resolveAssignment_spec in Hres as (codex & _ & Hh' & _).
  by eapply sameButTags_trans.
Qed.

(** The Double groups of a codex are the same after the probe phase. *)
Lemma probePhase_Double s c h c1 h1 id codex1 :
  probePhase assembleCountKey txn s c h = Ok (c1, h1) ->
  CodexMap.Index c1 !! id = Some codex1 ->
  exists codex, CodexMap.Index c !! id = Some codex
    /\ Codex.Double codex1 = Codex.Double codex.
Proof.
  intros (_ & _ & Hout & Hin)%probePhase_Ok Hid.
  destruct (CodexMap.Index c !! id) as [codex|] eqn:Hc.
  - destruct (Hin id codex Hc) as (counts & _ & _ & Hid').
    exists codex. split; [done|]. rewrite Hid in Hid'. injection Hid' as ->.
    by rewrite account_fold_Double.
  - rewrite (Hout id Hc) in Hid. done.
Qed.

(** Every variable of the returned order has an assignment that is as
    [resolved] says, when the codex map lists no variable twice and pairs no
    variable with itself. *)
Lemma getAssignmentTree_resolved s c h c' h' idx :
  NoDup (CodexMap.Slice c) ->
  (forall id codex, CodexMap.Index c !! id = Some codex -> Codex.Double codex !! id = None) ->
  getAssignmentTree assembleCountKey txn setValueRoot s c h = Ok (c', h', idx) ->
  forall i id, CodexMap.Slice c' !! i = Some id ->
    exists a, idx !! id = Some a /\ resolved c' (CodexMap.Slice c') h' idx i id a.
Proof.
  intros Hnd Hself Hrun.
  pose proof (getAssignmentTree_Slice _ _ _ _ _ _ Hrun) as Hperm.
  apply getAssignmentTree_Ok in Hrun as (c1 & h1 & Hprobe & Hsort & Hres).
  pose proof (resolvePhase_heap _ _ _ _ _ Hres) as Hh.
  unfold resolvePhase in Hres.
  apply bind_Ok in Hres as ([[h2 index] indexMap] & Hloop & [= <- <-]).
  apply resolveLoop_spec in Hloop as (_ & Hall).
  - intros i id Hi. destruct (Hall i id Hi) as (a & Ha & Hgood).
    exists a. split; [done|]. by eapply resolved_heap.
  - by rewrite Hperm.
  - intros id codex' Hid. apply Stable_Ok in Hsort as [Hindex _]. rewrite Hindex in Hid.
    destruct (probePhase_Double _ _ _ _ _ _ _ Hprobe Hid) as (codex & Hc & ->).
    by eapply Hself.
Qed.

(** *** Aggregate statistics *)

Lemma wrap64_add_l a b : wrap64 (wrap64 a + b) = wrap64 (a + b).
Proof. unfold wrap64. by rewrite Zplus_mod_idemp_l. Qed.

Lemma wrap64_add_mid a b c : wrap64 (a + wrap64 b + c) = wrap64 (a + b + c).
Proof.
  replace (a + wrap64 b + c)%Z with (wrap64 b + (a + c))%Z by lia.
  rewrite wrap64_add_l. f_equal. lia.
Qed.

Lemma wrapInt_add_l a b : wrapInt (wrapInt a + b) = wrapInt (a + b).
Proof.
  unfold wrapInt. f_equal.
  replace ((a + 2 ^ 63) mod 2 ^ 64 - 2 ^ 63 + b + 2 ^ 63)%Z
    with ((a + 2 ^ 63) mod 2 ^ 64 + b)%Z by lia.
  rewrite Zplus_mod_idemp_l. f_equal. lia.
Qed.

Lemma account_fold counts codex :
  wrap64 (Codex.Count (foldl (fun cx n => account n cx) codex counts))
  = wrap64 (Codex.Count codex + sumZ counts)
  /\ wrap64 (Codex.Norm (foldl (fun cx n => account n cx) codex counts))
     = wrap64 (Codex.Norm codex + sumZ ((fun n => n * n)%Z <$> counts))
  /\ wrapInt (Codex.Length (foldl (fun cx n => account n cx) codex counts))
     = wrapInt (Codex.Length codex + Z.of_nat (length counts))
  /\ Codex.Constraint (foldl (fun cx n => account n cx) codex counts) = Codex.Constraint codex
  /\ Codex.Single (foldl (fun cx n => account n cx) codex counts) = Codex.Single codex
  /\ Codex.Double (foldl (fun cx n => account n cx) codex counts) = Codex.Double codex.
Proof.
  revert codex. induction counts as [|n counts IH]; intros codex; simpl.
  - rewrite !Z.add_0_r. done.
  - destruct (IH (account n codex)) as (HC & HN & HL & -> & -> & ->). simpl.
    rewrite HC, HN, HL. simpl. split_and!; try done.
    + rewrite wrap64_add_l. f_equal. lia.
    + rewrite wrap64_add_l, wrap64_add_mid. f_equal. symmetry. apply Z.add_assoc.
    + rewrite wrapInt_add_l. f_equal. lia.
Qed.

Lemma wrap64_wrap64 a : wrap64 (wrap64 a) = wrap64 a.
Proof. unfold wrap64. by rewrite Zmod_mod. Qed.

Lemma account_fold_Count counts codex :
  wrap64 (Codex.Count codex) = Codex.Count codex ->
  wrap64 (Codex.Count (foldl (fun cx n => account n cx) codex counts))
  = Codex.Count (foldl (fun cx n => account n cx) codex counts).
Proof.
  revert codex. induction counts as [|n counts IH]; intros codex Hc; simpl; [done|].
  apply IH. simpl. apply wrap64_wrap64.
Qed.


End Assignments.

(** ** What classification guarantees *)

Section ClassificationInvariants.
Variable perms : Permutations.

Lemma Index_updCodex f c id x :
  CodexMap.Index (updCodex f c id) !! x
  = if decide (x = id) then Some (f (default Codex.zero (CodexMap.Index c !! id)))
    else CodexMap.Index c !! x.
Proof.
  unfold updCodex, GetCodex, putCodex.
  destruct (CodexMap.Index c !! id) as [codex|] eqn:Hid; simpl;
    case_decide; subst; by rewrite ?lookup_insert_eq, ?lookup_insert_ne by done.
Qed.

Lemma Slice_updCodex f c id :
  CodexMap.Slice (updCodex f c id)
  = if decide (is_Some (CodexMap.Index c !! id)) then CodexMap.Slice c
    else CodexMap.Slice c ++ [id].
Proof.
  unfold updCodex, GetCodex, putCodex.
  destruct (decide (is_Some (CodexMap.Index c !! id))) as [[codex Hs]|Hs].
  - by rewrite Hs.
  - destruct (CodexMap.Index c !! id) as [codex|]; [|done]. destruct Hs. by eexists.
Qed.

Lemma InsertDouble_updCodex c a b p :
  InsertDouble c a b p
  = updCodex (fun codex =>
      Codex.setDouble (<[b := default [] (Codex.Double codex !! b) ++ [p]]> (Codex.Double codex))
                      codex) c a.
Proof.
  unfold InsertDouble, updCodex. destruct (GetCodex c a) as [c1 codex].
  by destruct (Codex.Double codex !! b).
Qed.

Lemma wellFormed_updCodex f c id :
  (forall codex, Codex.Double codex !! id = None -> Codex.Double (f codex) !! id = None) ->
  wellFormed c -> wellFormed (updCodex f c id).
Proof.
  intros Hf (Hnd & Hdom & Hself). split_and!.
  - rewrite Slice_updCodex. case_decide as Hid; [done|].
    apply NoDup_app. split_and!; [done| |apply NoDup_singleton].
    intros x Hx ->%list_elem_of_singleton. by apply Hid, Hdom.
  - intros x. rewrite Index_updCodex, Slice_updCodex.
    destruct (decide (x = id)) as [->|Hx].
    + split; [by eauto|]. intros _. case_decide as Hid; [by apply Hdom|].
      apply elem_of_app. right. by left.
    + case_decide; [by apply Hdom|].
      rewrite elem_of_app, list_elem_of_singleton, Hdom. tauto.
  - intros x codex. rewrite Index_updCodex. case_decide as Hx.
    + subst. intros [= <-]. apply Hf.
      destruct (CodexMap.Index c !! id) as [cx|] eqn:Hid; simpl; [by eapply Hself|done].
    + apply Hself.
Qed.

Lemma wellFormed_InsertDouble c a b p :
  a ≠ b -> wellFormed c -> wellFormed (InsertDouble c a b p).
Proof.
  intros Hab. rewrite InsertDouble_updCodex. apply wellFormed_updCodex.
  intros codex Ha. simpl. by rewrite lookup_insert_ne.
Qed.

Lemma extendsHeap_trans h1 h2 h3 :
  extendsHeap h1 h2 -> extendsHeap h2 h3 -> extendsHeap h1 h3.
Proof.
  intros [Hr1 Hc1] [Hr2 Hc2]. split; [|by eauto].
  intros p r Hp. destruct (Hr1 p r Hp) as (r' & Hp' & Hcur).
  destruct (Hr2 p r' Hp') as (r'' & Hp'' & Hcur'). exists r''. split; congruence.
Qed.

Lemma noCursor_extends h h' p : extendsHeap h h' -> noCursor h p -> noCursor h' p.
Proof.
  intros [Hr _] (r & Hp & Hc). destruct (Hr p r Hp) as (r' & ? & ?).
  exists r'. split; congruence.
Qed.

Lemma emptyCursor_extends h h' p : extendsHeap h h' -> emptyCursor h p -> emptyCursor h' p.
Proof.
  intros [Hr Hc] (r & cur & Hp & Hcur & Hz). destruct (Hr p r Hp) as (r' & ? & ?).
  exists r', cur. split_and!; [done|congruence|by apply Hc].
Qed.

Lemma classifiedHeap_extends h h' constants c :
  extendsHeap h h' -> classifiedHeap h constants c -> classifiedHeap h' constants c.
Proof.
  intros Hext [Hk Hc]. split.
  - intros p Hp. by eapply emptyCursor_extends; eauto.
  - intros id codex Hid. destruct (Hc id codex Hid) as (Hs & Hco & Hd). split_and!.
    + intros p Hp. by eapply noCursor_extends; eauto.
    + intros p Hp. by eapply emptyCursor_extends; eauto.
    + intros dep rs p Hrs Hp. by eapply emptyCursor_extends; eauto.
Qed.

Lemma extendsHeap_newCursor h : extendsHeap h (newCursor h).1.
Proof.
  split; simpl; [by eauto|]. intros cp cur Hcp. by apply lookup_app_l_Some.
Qed.

Lemma extendsHeap_newReference r h : extendsHeap h (newReference r h).1.
Proof.
  split; simpl; [|by eauto]. intros p r' Hp. exists r'. split; [|done].
  by apply lookup_app_l_Some.
Qed.

Lemma extendsHeap_setDual p d h : extendsHeap h (updReference p (Reference.setDual d) h).
Proof.
  split; simpl; [|by eauto]. intros q r Hq. rewrite list_lookup_alter.
  case_decide; subst; rewrite Hq; simpl; eauto.
Qed.

Lemma makeReference_spec h graph index permutation m n h' p :
  makeReference h graph index permutation m n = (h', p) ->
  extendsHeap h h' /\ p = length (refs h) /\ emptyCursor h' p.
Proof.
  unfold makeReference. simpl. intros [= <- <-]. split_and!; [|done|].
  - eapply extendsHeap_trans; [apply extendsHeap_newCursor|].
    apply (extendsHeap_newReference _ (newCursor h).1).
  - eexists _, _. simpl. rewrite lookup_app_r, Nat.sub_diag by done. simpl.
    split_and!; [done..|]. by rewrite lookup_app_r, Nat.sub_diag.
Qed.

Lemma classifiedCodex_zero h : classifiedCodex h Codex.zero.
Proof.
  split_and!; simpl; [by intros ? ?%elem_of_nil..|].
  intros dep rs p Hrs. by rewrite lookup_empty in Hrs.
Qed.

Lemma classifiedHeap_updCodex f h constants c id :
  (forall codex, classifiedCodex h codex -> classifiedCodex h (f codex)) ->
  classifiedHeap h constants c -> classifiedHeap h constants (updCodex f c id).
Proof.
  intros Hf [Hk Hc]. split; [done|]. intros x codex. rewrite Index_updCodex.
  case_decide; [|by apply Hc]. intros [= <-]. apply Hf.
  destruct (CodexMap.Index c !! id) as [cx|] eqn:Hid; simpl;
    [by eapply Hc|apply classifiedCodex_zero].
Qed.

Lemma classified_single h constants c r id :
  Reference.Cursor r = None ->
  classified (h, constants, c) ->
  classified ((newReference r h).1, constants,
              updCodex (fun codex =>
                Codex.setSingle (Codex.Single codex ++ [length (refs h)]) codex) c id).
Proof.
  intros Hr [Hw Hh]. split; simpl.
  - by apply wellFormed_updCodex.
  - apply classifiedHeap_updCodex.
    + intros codex (Hs & Hc & Hd). split_and!; simpl; [|done..].
      intros p [Hp| ->%list_elem_of_singleton]%elem_of_app; [by apply Hs|].
      exists r. split; [|done]. simpl. by rewrite lookup_app_r, Nat.sub_diag.
    + eapply classifiedHeap_extends; [|done]. apply (extendsHeap_newReference r h).
Qed.

Lemma classified_constant h constants c graph index permutation m n h' p :
  makeReference h graph index permutation m n = (h', p) ->
  classified (h, constants, c) -> classified (h', constants ++ [p], c).
Proof.
  intros (Hext & _ & Hp)%makeReference_spec [Hw Hh]. split; [done|]. simpl in *.
  apply (classifiedHeap_extends _ _ _ _ Hext) in Hh as [Hk Hc]. split; [|done].
  intros q [Hq| ->%list_elem_of_singleton]%elem_of_app; [by apply Hk|done].
Qed.

Lemma classified_constraint h constants c graph index permutation n a h' c' :
  insertConstraint h c graph index permutation n a = (h', c') ->
  classified (h, constants, c) -> classified (h', constants, c').
Proof.
  unfold insertConstraint.
  destruct (makeReference h graph index permutation None (Some n)) as [h1 p] eqn:Hmk.
  apply makeReference_spec in Hmk as (Hext & _ & Hp).
  intros Hrun [Hw Hh].
  assert (h' = h1 /\ c' = updCodex (fun codex =>
            Codex.setConstraint (Codex.Constraint codex ++ [p]) codex) c a) as [-> ->].
  { unfold updCodex. destruct (GetCodex c a). by injection Hrun as <- <-. }
  split; simpl in *.
  - by apply wellFormed_updCodex.
  - apply classifiedHeap_updCodex.
    + intros codex (Hs & Hc & Hd). split_and!; simpl; [done| |done].
      intros q [Hq| ->%list_elem_of_singleton]%elem_of_app; [by apply Hc|done].
    + by eapply classifiedHeap_extends.
Qed.

Lemma classifiedHeap_InsertDouble h constants c a b p :
  emptyCursor h p ->
  classifiedHeap h constants c -> classifiedHeap h constants (InsertDouble c a b p).
Proof.
  intros Hp. rewrite InsertDouble_updCodex. apply classifiedHeap_updCodex.
  intros codex (Hs & Hc & Hd). split_and!; simpl; [done..|].
  intros dep rs q. rewrite lookup_insert. case_decide; [|by apply Hd].
  intros [= <-] [Hq| ->%list_elem_of_singleton]%elem_of_app; [|done].
  destruct (Codex.Double codex !! b) as [rs|] eqn:Hb; simpl in Hq; [by eapply Hd|].
  by apply elem_of_nil in Hq.
Qed.

Lemma classified_pair h constants c graph index a pa ma na b pb mb nb h' c' :
  a ≠ b ->
  insertPair h c graph index a pa ma na b pb mb nb = (h', c') ->
  classified (h, constants, c) -> classified (h', constants, c').
Proof.
  intros Hab. unfold insertPair.
  destruct (makeReference h graph index pa (Some ma) (Some na)) as [h1 refA] eqn:HA.
  destruct (makeReference h1 graph index pb (Some mb) (Some nb)) as [h2 refB] eqn:HB.
  apply makeReference_spec in HA as (Hext1 & _ & HpA).
  apply makeReference_spec in HB as (Hext2 & _ & HpB).
  intros [= <- <-] [Hw Hh]. simpl in *.
  assert (extendsHeap h2 (updReference refB (Reference.setDual (Some refA))
                           (updReference refA (Reference.setDual (Some refB)) h2))) as Hext3.
  { eapply extendsHeap_trans; apply extendsHeap_setDual. }
  split; simpl.
  - apply wellFormed_InsertDouble; [done|]. by apply wellFormed_InsertDouble.
  - apply classifiedHeap_InsertDouble.
    { by eapply emptyCursor_extends. }
    apply classifiedHeap_InsertDouble.
    { eapply emptyCursor_extends; [exact Hext3|]. by eapply emptyCursor_extends. }
    eapply classifiedHeap_extends; [exact Hext3|].
    eapply classifiedHeap_extends; [exact Hext2|].
    by eapply classifiedHeap_extends.
Qed.

Lemma classify_classified graph st index q st' :
  classify perms graph st index q = Ok st' -> classified st -> classified st'.
Proof.
  destruct st as [[h constants] c]. intros Hrun Hst.
  destruct q as [[] [] []];
    cbn -[insertConstraint insertPair makeReference GetCodex newReference] in Hrun;
    repeat match type of Hrun with
    | context [decide (?a = ?b)] => destruct (decide (a = b))
    end;
    try discriminate;
    match type of Hrun with
    | context [insertConstraint] =>
        destruct (insertConstraint _ _ _ _ _ _ _) as [h' c'] eqn:Hins;
        injection Hrun as <-; by eapply classified_constraint
    | context [insertPair] =>
        destruct (insertPair _ _ _ _ _ _ _ _ _ _ _ _) as [h' c'] eqn:Hins;
        injection Hrun as <-; eapply classified_pair; [|exact Hins|done]; congruence
    | context [GetCodex c ?id] =>
        match type of Hrun with
        | context [newReference ?r h] =>
            assert (st' = ((newReference r h).1, constants,
                           updCodex (fun codex =>
                             Codex.setSingle (Codex.Single codex ++ [length (refs h)]) codex)
                             c id)) as ->
              by (unfold updCodex; simpl in Hrun; destruct (GetCodex c id);
                  by injection Hrun as <-);
            by apply classified_single
        end
    | context [makeReference] =>
        destruct (makeReference _ _ _ _ _ _) as [h' p] eqn:Hmk;
        injection Hrun as <-; by eapply classified_constant
    end.
Qed.

Lemma classified_zero : classified (emptyHeap, [], CodexMap.zero).
Proof.
  split; [split_and!|split]; simpl.
  - apply NoDup_nil_2.
  - intros id. rewrite lookup_empty. split; [by intros ?%elem_of_nil|by intros [? ?]].
  - intros id codex Hid. by rewrite lookup_empty in Hid.
  - by intros p ?%elem_of_nil.
  - intros id codex Hid. by rewrite lookup_empty in Hid.
Qed.

Lemma getInitalCodexMap_classified s dataset st :
  getInitalCodexMap perms s dataset = Ok st -> classified st.
Proof.
  unfold getInitalCodexMap. apply foldM_inv; [|apply classified_zero].
  intros st1 [graph quads] st2 _ Hst1 Hrun.
  apply (foldMi_inv (fun _ => classified)) in Hrun; [done| |done].
  intros st3 k q st4 _ Hst3 Hq. by eapply classify_classified.
Qed.

End ClassificationInvariants.

(** ** The full compilation *)

Section Pipeline.
Context {V : Type}.
Variable perms : Permutations.
Variable assembleCountKey : Reference.t -> bool -> list byte * bool.
Variable txn : Txn.
Variable setValueRoot : Heap -> Assignment.t V -> option V.

Lemma compile_Ok s dataset c' h' (idx : gmap string (Assignment.t V)) :
  compile perms assembleCountKey txn setValueRoot s dataset = Ok (c', h', idx) ->
  exists h0 constants c0,
    getInitalCodexMap perms s dataset = Ok (h0, constants, c0)
    /\ classified (h0, constants, c0)
    /\ getAssignmentTree assembleCountKey txn setValueRoot s c0 h0 = Ok (c', h', idx).
Proof.
  unfold compile. intros ([[h0 constants] c0] & Hinit & Hrun)%bind_Ok.
  exists h0, constants, c0. split_and!; [done| |done].
  by eapply getInitalCodexMap_classified.
Qed.

Lemma compile_resolved s dataset c' h' (idx : gmap string (Assignment.t V)) :
  compile perms assembleCountKey txn setValueRoot s dataset = Ok (c', h', idx) ->
  NoDup (CodexMap.Slice c')
  /\ forall i id, CodexMap.Slice c' !! i = Some id ->
       exists a, idx !! id = Some a /\ resolved c' (CodexMap.Slice c') h' idx i id a.
Proof.
  intros (h0 & constants & c0 & _ & [(Hnd & _ & Hself) _] & Hrun)%compile_Ok. simpl in *.
  split.
  - by rewrite (getAssignmentTree_Slice _ _ _ _ _ _ _ _ _ Hrun).
  - by eapply getAssignmentTree_resolved.
Qed.


(** C6, as amended.  After classification a Single reference has no Cursor,
    while every reference that makeReference made (constant, Constraint and
    Double) holds an empty Cursor from its creation.  The probe phase gives
    every Single and Double reference a Cursor that it allocates itself, so
    it replaces the Cursor of a Double reference; it allocates one Cursor
    for each visit and leaves all other references alone.  The resolution
    that follows writes no field of any Reference. *)
Theorem cursor_lifecycle s dataset h0 constants c :
  getInitalCodexMap perms s dataset = Ok (h0, constants, c) ->
  (forall id codex, CodexMap.Index c !! id = Some codex ->
     (forall p, p ∈ Codex.Single codex -> noCursor h0 p)
     /\ (forall p, p ∈ Codex.Constraint codex -> emptyCursor h0 p)
     /\ (forall dep rs p, Codex.Double codex !! dep = Some rs -> p ∈ rs -> emptyCursor h0 p))
  /\ (forall p, p ∈ constants -> emptyCursor h0 p)
  /\ forall c1 h1, probePhase assembleCountKey txn s c h0 = Ok (c1, h1) ->
       (forall id codex p, CodexMap.Index c !! id = Some codex ->
          p ∈ Codex.Single codex
          \/ (exists dep rs, Codex.Double codex !! dep = Some rs /\ p ∈ rs) ->
          exists r cur, refs h1 !! p = Some r /\ Reference.Cursor r = Some cur
            /\ length (cursors h0) <= cur < length (cursors h1))
       /\ (forall p, p ∉ probeWork s c -> refs h1 !! p = refs h0 !! p)
       /\ length (cursors h1) = length (cursors h0) + length (probeWork s c)
       /\ forall c2 h2 (idx : gmap string (Assignment.t V)),
            resolvePhase setValueRoot s c2 h1 = Ok (h2, idx) -> refs h2 = refs h1.
Proof.
  intros [_ [Hk Hc]]%getInitalCodexMap_classified. simpl in *.
  split_and!; [done..|].
  intros c1 h1 (_ & (counts & Hheap) & _)%probePhase_Ok.
  destruct Hheap as (Hf2 & _ & _ & Hcur & Hout & Hin).
  split_and!; [|done| |].
  - intros id codex p Hid Hp. apply Hin, elem_of_probeWork.
    exists id, codex. split; [done|]. by apply elem_of_probeList.
  - by rewrite Hcur, length_app, length_fmap, (Forall2_length _ _ _ Hf2).
  - intros c2 h2 idx Hres. by apply resolvePhase_heap in Hres as [-> _].
Qed.

(** *** Independence of the visiting orders *)

Lemma probedCount_countIn h p n :
  keyFromKnownValues assembleCountKey ->
  probedCount assembleCountKey txn h p n -> n = countIn assembleCountKey txn h p.
Proof.
  intros Hkey (r & cur & major & Hp & Hn). unfold countIn. rewrite Hp.
  rewrite (Hkey r (Reference.setCursor cur r) false major) by (by destruct r).
  by rewrite Hn.
Qed.

Lemma Forall2_probedCount h l counts :
  keyFromKnownValues assembleCountKey ->
  Forall2 (probedCount assembleCountKey txn h) l counts ->
  counts = countIn assembleCountKey txn h <$> l.
Proof.
  intros Hkey. induction 1 as [|p n l counts Hn _ IH]; simpl; [done|].
  by rewrite IH, (probedCount_countIn h p n).
Qed.

Lemma account_comm n m codex : account n (account m codex) = account m (account n codex).
Proof.
  unfold account. simpl. f_equal.
  - rewrite !wrap64_add_l. f_equal. lia.
  - rewrite !wrap64_add_l. f_equal. lia.
Qed.

Lemma account_fold_Permutation l1 l2 codex :
  l1 ≡ₚ l2 ->
  foldl (fun cx n => account n cx) codex l1 = foldl (fun cx n => account n cx) codex l2.
Proof.
  intros Hl. revert codex. induction Hl as [|n l1 l2 _ IH|n m l|l1 l2 l3 _ IH1 _ IH2];
    intros codex; simpl.
  - done.
  - apply IH.
  - by rewrite account_comm.
  - by rewrite IH1, IH2.
Qed.

Lemma probeList_Permutation s1 s2 id codex :
  probeList s1 id codex ≡ₚ probeList s2 id codex.
Proof. unfold probeList. by rewrite !range_Permutation. Qed.

Lemma probePhase_deterministic s1 s2 c h ca ha cb hb :
  keyFromKnownValues assembleCountKey ->
  probePhase assembleCountKey txn s1 c h = Ok (ca, ha) ->
  probePhase assembleCountKey txn s2 c h = Ok (cb, hb) ->
  ca = cb.
Proof.
  intros Hkey (Hsa & _ & Houta & Hina)%probePhase_Ok (Hsb & _ & Houtb & Hinb)%probePhase_Ok.
  destruct ca as [ia sa], cb as [ib sb]. simpl in *. subst sa sb. f_equal.
  apply map_eq. intros id. destruct (CodexMap.Index c !! id) as [codex|] eqn:Hid.
  - destruct (Hina id codex Hid) as (na & Hna & _ & ->).
    destruct (Hinb id codex Hid) as (nb & Hnb & _ & ->).
    f_equal. apply account_fold_Permutation.
    rewrite (Forall2_probedCount _ _ _ Hkey Hna), (Forall2_probedCount _ _ _ Hkey Hnb).
    by rewrite (probeList_Permutation s1 s2).
  - by rewrite Houta, Houtb.
Qed.

Lemma resolved_Dependencies c slice h1 h2 (idx1 idx2 : gmap string (Assignment.t V)) :
  (forall i id, slice !! i = Some id ->
     exists a, idx1 !! id = Some a /\ resolved c slice h1 idx1 i id a) ->
  (forall i id, slice !! i = Some id ->
     exists a, idx2 !! id = Some a /\ resolved c slice h2 idx2 i id a) ->
  forall i id, slice !! i = Some id ->
    exists a1 a2, idx1 !! id = Some a1 /\ idx2 !! id = Some a2
      /\ Assignment.Dependencies a1 = Assignment.Dependencies a2.
Proof.
  intros H1 H2 i. induction i as [i IH] using lt_wf_ind. intros id Hi.
  destruct (H1 i id Hi) as (a1 & Ha1 & codex1 & Hc1 & _ & _ & _ & _ & Hd1 & Hs1 & Hn1).
  destruct (H2 i id Hi) as (a2 & Ha2 & codex2 & Hc2 & _ & _ & _ & _ & Hd2 & Hs2 & Hn2).
  assert (codex2 = codex1) as -> by congruence.
  exists a1, a2. split_and!; [done..|].
  apply (StronglySorted_unique le); [done..|].
  apply NoDup_Permutation; [done..|].
  intros k. rewrite Hd1, Hd2.
  split; intros (dep & rs & j & adep & HD & [Hj Hji] & H0j & Hadep & Hk);
    destruct (IH j Hji dep Hj) as (b1 & b2 & Hb1 & Hb2 & Hb).
  - exists dep, rs, j, b2. split_and!; try done.
    assert (adep = b1) as -> by congruence. by rewrite <- Hb.
  - exists dep, rs, j, b1. split_and!; try done.
    assert (adep = b2) as -> by congruence. by rewrite Hb.
Qed.

(** C2, as amended.  Two compilations of the same dataset against the same
    store that visit the graphs of the dataset in the same order, and that
    both succeed, return the same order, the same codex map and, for every
    variable, the same Dependencies, in whatever orders the two runs visit
    c.Index, the Double maps and the deps maps, provided that the count key
    of a reference is built from its permutation and known values. *)
Theorem compile_deterministic s1 s2 dataset c1 h1 idx1 c2 h2
    (idx2 : gmap string (Assignment.t V)) :
  keyFromKnownValues assembleCountKey ->
  range (sGraphs s1) (Graphs dataset) = range (sGraphs s2) (Graphs dataset) ->
  compile perms assembleCountKey txn setValueRoot s1 dataset = Ok (c1, h1, idx1) ->
  compile perms assembleCountKey txn setValueRoot s2 dataset = Ok (c2, h2, idx2) ->
  c1 = c2
  /\ forall i id, CodexMap.Slice c1 !! i = Some id ->
       exists a1 a2, idx1 !! id = Some a1 /\ idx2 !! id = Some a2
         /\ Assignment.Dependencies a1 = Assignment.Dependencies a2.
Proof.
  intros Hkey Hgraphs Hrun1 Hrun2.
  pose proof (compile_resolved _ _ _ _ _ Hrun1) as [_ Hres1].
  pose proof (compile_resolved _ _ _ _ _ Hrun2) as [_ Hres2].
  apply compile_Ok in Hrun1 as (h0 & constants & c0 & Hinit1 & _ & Htree1).
  apply compile_Ok in Hrun2 as (h0' & constants' & c0' & Hinit2 & _ & Htree2).
  assert (h0' = h0 /\ c0' = c0) as [-> ->].
  { unfold getInitalCodexMap in Hinit1, Hinit2. rewrite Hgraphs in Hinit1.
    rewrite Hinit1 in Hinit2. by injection Hinit2 as <- <- <-. }
  apply getAssignmentTree_Ok in Htree1 as (ca & ha & Hprobe1 & Hsort1 & _).
  apply getAssignmentTree_Ok in Htree2 as (cb & hb & Hprobe2 & Hsort2 & _).
  assert (ca = cb) as -> by (by eapply probePhase_deterministic).
  assert (c1 = c2) as -> by congruence.
  split; [done|]. by eapply resolved_Dependencies.
Qed.

(** The part of C1 that the code keeps: a partner at an earlier position
    other than 0 is among the Dependencies, with its own Dependencies. *)
Lemma compile_dependencies_absorb s dataset c' h' (idx : gmap string (Assignment.t V))
    i id j dep a codex rs :
  compile perms assembleCountKey txn setValueRoot s dataset = Ok (c', h', idx) ->
  CodexMap.Slice c' !! i = Some id -> CodexMap.Slice c' !! j = Some dep -> j < i ->
  idx !! id = Some a -> CodexMap.Index c' !! id = Some codex ->
  Codex.Double codex !! dep = Some rs ->
  0 < j ->
  j ∈ Assignment.Dependencies a
  /\ exists adep, idx !! dep = Some adep
       /\ forall k, k ∈ Assignment.Dependencies adep -> k ∈ Assignment.Dependencies a.
Proof.
  intros [Hnd Hall]%compile_resolved Hi Hj Hji Ha Hc HD H0.
  destruct (Hall i id Hi) as (a' & Ha' & codex' & Hc' & _ & _ & _ & _ & Hdeps & _).
  assert (a' = a) as -> by congruence. assert (codex' = codex) as -> by congruence.
  destruct (Hall j dep Hj) as (adep & Hadep & _).
  split.
  - apply Hdeps. exists dep, rs, j, adep. split_and!; auto.
  - exists adep. split; [done|]. intros k Hk.
    apply Hdeps. exists dep, rs, j, adep. split_and!; auto.
Qed.

End Pipeline.

(** ** Concrete runs *)

(** C1.  [(?x, friend, ?y)] over a store of ones: the order is x, y; the
    codex of y pairs it with x, which has position 0, and the Cursor of that
    reference is in the Past of y; yet the Dependencies of y are empty, as
    [if j > deps[j]] reads 0 for the missing key and 0 > 0 fails. *)
Theorem compile_friends_misses_position_0 :
  match compileOnes sched0 friends with
  | Ok (c, h, idx) =>
      CodexMap.Slice c = ["x"; "y"]
      /\ doubleGroup c "y" "x" = [1]
      /\ (Past.Cursors <$> (Assignment.Past <$> idx !! "y")) = Some [2]
      /\ (Assignment.Dependencies <$> idx !! "y") = Some []
  | _ => False
  end.
Proof. vm_compute. by split_and!. Qed.

(** Two runs over the same dataset and store that visit dataset.Graphs in
    opposite orders return opposite orders of the two variables. *)
Lemma compile_order_follows_graph_order :
  orderOf (compileOnes sched0 twoGraphs) = Some ["x"; "y"]
  /\ orderOf (compileOnes sched1 twoGraphs) = Some ["y"; "x"].
Proof. split; vm_compute; reflexivity. Qed.

(** [(?x, ?x, ?y)] is rejected although its three variables do not all
    differ. *)
Lemma getInitalCodexMap_fails_on_repeated_blank :
  getInitalCodexMap somePermutations sched0 repeatedBlank = Err AllBlankTriple
  /\ ¬ exists q, inDataset q repeatedBlank /\ distinctBlanks q.
Proof.
  split; [by vm_compute|].
  intros (q & (graph & quads & Hg & Hq) & (a & b & c & HS & HP & _ & Hab & _)).
  unfold repeatedBlank in Hg. simpl in Hg.
  apply lookup_singleton_Some in Hg as [_ <-].
  apply list_elem_of_singleton in Hq as ->. simpl in *. congruence.
Qed.

(** The Double reference of x in [(?x, friend, ?y)] holds Cursor 0 right
    after classification, and Cursor 3 after the probe phase. *)
Lemma double_reference_cursor_replaced :
  match getInitalCodexMap somePermutations sched0 friends with
  | Ok (h0, _, c) =>
      doubleGroup c "x" "y" = [0]
      /\ (Reference.Cursor <$> refs h0 !! 0) = Some (Some 0)
      /\ match probePhase plainKey storeOfOnes sched0 c h0 with
         | Ok (_, h1) => (Reference.Cursor <$> refs h1 !! 0) = Some (Some 3)
         | _ => False
         end
  | _ => False
  end.
Proof. vm_compute. by split_and!. Qed.

(** ** The theorems at concrete inputs *)

Lemma compile_deterministic_witness :
  exists c1 h1 idx1 c2 h2 idx2,
    compileOnes sched0 joel = Ok (c1, h1, idx1)
    /\ compileOnes sched2 joel = Ok (c2, h2, idx2)
    /\ c1 = c2.
Proof.
  destruct (compileOnes sched0 joel) as [[[c1 h1] idx1]| |] eqn:E1; [|by vm_compute in E1..].
  destruct (compileOnes sched2 joel) as [[[c2 h2] idx2]| |] eqn:E2; [|by vm_compute in E2..].
  exists c1, h1, idx1, c2, h2, idx2. split_and!; [reflexivity..|].
  refine (proj1 (compile_deterministic somePermutations plainKey storeOfOnes
                   (fun _ _ => Some tt) sched0 sched2 joel c1 h1 idx1 c2 h2 idx2 _ _ E1 E2)).
  - intros r r' major major' _ _ _. reflexivity.
  - reflexivity.
Defined.

Lemma cursor_lifecycle_witness :
  exists h0 constants c,
    getInitalCodexMap somePermutations sched0 joel = Ok (h0, constants, c)
    /\ forall p, p ∈ constants -> emptyCursor h0 p.
Proof.
  destruct (getInitalCodexMap somePermutations sched0 joel) as [[[h0 constants] c]| |] eqn:E;
    [|by vm_compute in E..].
  exists h0, constants, c. split; [reflexivity|].
  exact (proj1 (proj2 (cursor_lifecycle (V := unit) somePermutations plainKey storeOfOnes
                         (fun _ _ => Some tt) sched0 joel h0 constants c E))).
Defined.

Lemma classify_two_variables_witness :
  exists h' c',
    classify somePermutations "g" (emptyHeap, [], CodexMap.zero) 0
      (quad (BlankNode "x") (IRI "friend") (BlankNode "y"))
    = Ok (h', [], c')
    /\ length (refs h') = 2.
Proof.
  destruct (classify_two_variables somePermutations "g" 0
              (quad (BlankNode "x") (IRI "friend") (BlankNode "y"))
              emptyHeap [] CodexMap.zero "x" "y")
    as (h' & c' & Hrun & Hlen & _).
  - reflexivity.
  - discriminate.
  - exists h', c'. split; [exact Hrun|exact Hlen].
Defined.


Lemma getAssignmentTree_ValueRoot_witness :
  exists c' h' idx,
    getAssignmentTree plainKey storeOfOnes (fun _ _ => Some tt) sched0 tinyMap tinyHeap
    = Ok (c', h', idx)
    /\ forall id a, idx !! id = Some a -> is_Some (Assignment.ValueRoot a).
Proof.
  destruct (getAssignmentTree plainKey storeOfOnes (fun _ _ => Some tt) sched0 tinyMap tinyHeap)
    as [[[c' h'] idx]| |] eqn:E; [|by vm_compute in E..].
  exists c', h', idx. split; [reflexivity|].
  exact (proj2 (proj2 (getAssignmentTree_ValueRoot plainKey storeOfOnes (fun _ _ => Some tt)
                         sched0 tinyMap tinyHeap) c' h' idx E)).
Defined.


Lemma getInitalCodexMap_fails_iff_allBlank_witness :
  getInitalCodexMap somePermutations sched0 repeatedBlank = Err AllBlankTriple.
Proof.
  apply (proj1 (getInitalCodexMap_fails_iff_allBlank somePermutations sched0 repeatedBlank)).
  exists (quad (BlankNode "x") (BlankNode "x") (BlankNode "y")). split; [|reflexivity].
  exists "g", [quad (BlankNode "x") (BlankNode "x") (BlankNode "y")].
  split; [vm_compute; reflexivity|left].
Defined.

(** * Further properties of the classification *)

Section StatementKinds.
Variable perms : Permutations.

Lemma append_empty_r (s : string) : s +:+ "" = s.
Proof.
  induction s as [|ch s IH]; [done|].
  change (String ch s +:+ "") with (String ch (s +:+ "")). by rewrite IH.
Qed.

Lemma append_empty_l (s : string) : "" +:+ s = s.
Proof. done. Qed.

Lemma singlesOf_updCodex f c id x :
  singlesOf (updCodex f c id) x
  = if decide (x = id) then Codex.Single (f (default Codex.zero (CodexMap.Index c !! id)))
    else singlesOf c x.
Proof. unfold singlesOf. rewrite Index_updCodex. by case_decide. Qed.

Lemma constraintsOf_updCodex f c id x :
  constraintsOf (updCodex f c id) x
  = if decide (x = id) then Codex.Constraint (f (default Codex.zero (CodexMap.Index c !! id)))
    else constraintsOf c x.
Proof. unfold constraintsOf. rewrite Index_updCodex. by case_decide. Qed.

Lemma doubleGroup_updCodex f c id x y :
  (forall codex, Codex.Double (f codex) = Codex.Double codex) ->
  doubleGroup (updCodex f c id) x y = doubleGroup c x y.
Proof.
  intros Hf. unfold doubleGroup. rewrite Index_updCodex. case_decide; [|done]. subst.
  simpl. rewrite Hf. by destruct (CodexMap.Index c !! id).
Qed.

Lemma singlesOf_default c id :
  Codex.Single (default Codex.zero (CodexMap.Index c !! id)) = singlesOf c id.
Proof. unfold singlesOf. by destruct (CodexMap.Index c !! id). Qed.

Lemma constraintsOf_default c id :
  Codex.Constraint (default Codex.zero (CodexMap.Index c !! id)) = constraintsOf c id.
Proof. unfold constraintsOf. by destruct (CodexMap.Index c !! id). Qed.

(** X2.  A statement with one variable [a]: classification creates one
    Reference without Cursor and without Dual, appends it to the Single
    list of [a] and changes no other list or group; the permutation is 0,
    1 or 2 as the variable is the subject, the predicate or the object, and
    M and N are the other two nodes in the rotation that starts after the
    variable. *)
Theorem classify_one_variable graph index q h constants c a :
  variablesOf q = [a] ->
  exists r c',
    classify perms graph (h, constants, c) index q
    = Ok ({| refs := refs h ++ [r]; cursors := cursors h |}, constants, c')
    /\ Reference.Graph r = graph /\ Reference.Index r = index
    /\ Reference.Cursor r = None /\ Reference.Dual r = None
    /\ (asBlank (Subject q) = Some a ->
        Reference.Permutation r = 0%Z
        /\ Reference.M r = Some (Predicate q) /\ Reference.N r = Some (Object q))
    /\ (asBlank (Predicate q) = Some a ->
        Reference.Permutation r = 1%Z
        /\ Reference.M r = Some (Object q) /\ Reference.N r = Some (Subject q))
    /\ (asBlank (Object q) = Some a ->
        Reference.Permutation r = 2%Z
        /\ Reference.M r = Some (Subject q) /\ Reference.N r = Some (Predicate q))
    /\ singlesOf c' a = singlesOf c a ++ [length (refs h)]
    /\ (forall x, x ≠ a -> singlesOf c' x = singlesOf c x)
    /\ (forall x, constraintsOf c' x = constraintsOf c x)
    /\ (forall x y, doubleGroup c' x y = doubleGroup c x y).
Proof.
  intros Hq.
  assert (exists r,
    classify perms graph (h, constants, c) index q
    = Ok ({| refs := refs h ++ [r]; cursors := cursors h |}, constants,
          updCodex (fun codex =>
            Codex.setSingle (Codex.Single codex ++ [length (refs h)]) codex) c a)
    /\ Reference.Graph r = graph /\ Reference.Index r = index
    /\ Reference.Cursor r = None /\ Reference.Dual r = None
    /\ (asBlank (Subject q) = Some a ->
        Reference.Permutation r = 0%Z
        /\ Reference.M r = Some (Predicate q) /\ Reference.N r = Some (Object q))
    /\ (asBlank (Predicate q) = Some a ->
        Reference.Permutation r = 1%Z
        /\ Reference.M r = Some (Object q) /\ Reference.N r = Some (Subject q))
    /\ (asBlank (Object q) = Some a ->
        Reference.Permutation r = 2%Z
        /\ Reference.M r = Some (Subject q) /\ Reference.N r = Some (Predicate q)))
    as (r & Hrun & Hrest).
  { unfold updCodex.
    destruct q as [[] [] []]; cbn in Hq; simplify_eq;
      cbn -[GetCodex]; repeat (rewrite append_empty_l || rewrite append_empty_r);
      destruct (GetCodex c a) as [c1 codex]; eexists; (split; [reflexivity|]);
      cbn; by split_and!. }
  eexists r, _. split; [exact Hrun|].
  destruct Hrest as (? & ? & ? & ? & ? & ? & ?). split_and!; try done.
  - rewrite singlesOf_updCodex, decide_True by done. simpl. by rewrite singlesOf_default.
  - intros x Hx. by rewrite singlesOf_updCodex, decide_False.
  - intros x. rewrite constraintsOf_updCodex. case_decide; [|done]. subst. simpl.
    apply constraintsOf_default.
  - intros x y. by apply doubleGroup_updCodex.
Qed.

(** X3.  A statement in which one variable [a] holds two positions and the
    third is a constant: classification creates one Reference with an empty
    Cursor, no M, the constant as N and no Dual, appends it to the
    Constraint list of [a], and adds nothing to any Single list or Double
    group; the permutation names the pair of positions. *)
Theorem classify_repeated_variable graph index q h constants c a :
  variablesOf q = [a; a] ->
  exists r c',
    classify perms graph (h, constants, c) index q
    = Ok ({| refs := refs h ++ [r]; cursors := cursors h ++ [Cursor.zero] |}, constants, c')
    /\ Reference.Graph r = graph /\ Reference.Index r = index
    /\ Reference.M r = None
    /\ Reference.Cursor r = Some (length (cursors h)) /\ Reference.Dual r = None
    /\ (asBlank (Object q) = None ->
        Reference.Permutation r = permutationAB perms /\ Reference.N r = Some (Object q))
    /\ (asBlank (Predicate q) = None ->
        Reference.Permutation r = permutationCA perms /\ Reference.N r = Some (Predicate q))
    /\ (asBlank (Subject q) = None ->
        Reference.Permutation r = permutationBC perms /\ Reference.N r = Some (Subject q))
    /\ constraintsOf c' a = constraintsOf c a ++ [length (refs h)]
    /\ (forall x, x ≠ a -> constraintsOf c' x = constraintsOf c x)
    /\ (forall x, singlesOf c' x = singlesOf c x)
    /\ (forall x y, doubleGroup c' x y = doubleGroup c x y).
Proof.
  intros Hq.
  assert (exists r,
    classify perms graph (h, constants, c) index q
    = Ok ({| refs := refs h ++ [r]; cursors := cursors h ++ [Cursor.zero] |}, constants,
          updCodex (fun codex =>
            Codex.setConstraint (Codex.Constraint codex ++ [length (refs h)]) codex) c a)
    /\ Reference.Graph r = graph /\ Reference.Index r = index
    /\ Reference.M r = None
    /\ Reference.Cursor r = Some (length (cursors h)) /\ Reference.Dual r = None
    /\ (asBlank (Object q) = None ->
        Reference.Permutation r = permutationAB perms /\ Reference.N r = Some (Object q))
    /\ (asBlank (Predicate q) = None ->
        Reference.Permutation r = permutationCA perms /\ Reference.N r = Some (Predicate q))
    /\ (asBlank (Subject q) = None ->
        Reference.Permutation r = permutationBC perms /\ Reference.N r = Some (Subject q)))
    as (r & Hrun & Hrest).
  { unfold updCodex.
    destruct q as [[] [] []]; cbn in Hq; simplify_eq;
      cbn -[GetCodex]; rewrite decide_True by done;
      unfold insertConstraint; cbn -[GetCodex];
      destruct (GetCodex c a) as [c1 codex]; eexists; (split; [reflexivity|]);
      cbn; by split_and!. }
  eexists r, _. split; [exact Hrun|].
  destruct Hrest as (? & ? & ? & ? & ? & ? & ? & ?). split_and!; try done.
  - rewrite constraintsOf_updCodex, decide_True by done. simpl.
    by rewrite constraintsOf_default.
  - intros x Hx. by rewrite constraintsOf_updCodex, decide_False.
  - intros x. rewrite singlesOf_updCodex. case_decide; [|done]. subst. simpl.
    apply singlesOf_default.
  - intros x y. by apply doubleGroup_updCodex.
Qed.

(** X4.  GetCodex: the id has a codex afterwards, the one returned; asking
    again changes nothing and returns the same codex; no other variable is
    touched; a known id leaves the map as it is, a new id gets the empty
    codex and goes to the end of the Slice; a well-formed map stays
    well-formed. *)
Theorem GetCodex_lookup c id :
  CodexMap.Index (GetCodex c id).1 !! id = Some (GetCodex c id).2
  /\ GetCodex (GetCodex c id).1 id = GetCodex c id
  /\ (forall x, x ≠ id -> CodexMap.Index (GetCodex c id).1 !! x = CodexMap.Index c !! x)
  /\ (is_Some (CodexMap.Index c !! id) -> (GetCodex c id).1 = c)
  /\ (CodexMap.Index c !! id = None ->
      (GetCodex c id).2 = Codex.zero
      /\ CodexMap.Slice (GetCodex c id).1 = CodexMap.Slice c ++ [id])
  /\ (wellFormed c -> wellFormed (GetCodex c id).1).
Proof.
  split_and!.
  - unfold GetCodex. destruct (CodexMap.Index c !! id) eqn:Hid; simpl; [done|].
    apply lookup_insert_eq.
  - unfold GetCodex at 2 3. destruct (CodexMap.Index c !! id) eqn:Hid; simpl.
    + unfold GetCodex. by rewrite Hid.
    + unfold GetCodex. simpl. by rewrite lookup_insert_eq.
  - intros x Hx. unfold GetCodex. destruct (CodexMap.Index c !! id); simpl; [done|].
    by apply lookup_insert_ne.
  - intros [codex Hid]. unfold GetCodex. by rewrite Hid.
  - intros Hid. unfold GetCodex. by rewrite Hid.
  - intros Hw. pose proof (wellFormed_updCodex (fun codex => codex) c id) as Hupd.
    assert (updCodex (fun codex => codex) c id = (GetCodex c id).1) as <-.
    { unfold updCodex, GetCodex, putCodex.
      destruct (CodexMap.Index c !! id) as [codex|] eqn:Hid; simpl.
      - destruct c as [i sl]. simpl in *. f_equal. by apply insert_id.
      - by rewrite insert_insert_eq. }
    by apply Hupd.
Qed.

(** X5.  InsertDouble appends the reference to the group of [b] in the
    codex of [a], which it creates when needed; it changes no other group
    and no Single or Constraint list, and puts [a] at the end of the Slice
    exactly when [a] had no codex.  It does not compare [a] with [b]: called
    with different ids it keeps a well-formed map well-formed, called with
    the same id twice it pairs the variable with itself. *)
Theorem InsertDouble_appends c a b p :
  doubleGroup (InsertDouble c a b p) a b = doubleGroup c a b ++ [p]
  /\ (forall x y, ¬ (x = a /\ y = b) ->
        doubleGroup (InsertDouble c a b p) x y = doubleGroup c x y)
  /\ (forall x, singlesOf (InsertDouble c a b p) x = singlesOf c x
                /\ constraintsOf (InsertDouble c a b p) x = constraintsOf c x)
  /\ CodexMap.Slice (InsertDouble c a b p)
     = (if decide (is_Some (CodexMap.Index c !! a)) then CodexMap.Slice c
        else CodexMap.Slice c ++ [a])
  /\ (a ≠ b -> wellFormed c -> wellFormed (InsertDouble c a b p))
  /\ ¬ wellFormed (InsertDouble c a a p).
Proof.
  split_and!.
  - by rewrite doubleGroup_InsertDouble, decide_True.
  - intros x y Hxy. by rewrite doubleGroup_InsertDouble, decide_False.
  - intros x. by rewrite singlesOf_InsertDouble, constraintsOf_InsertDouble.
  - rewrite InsertDouble_updCodex. apply Slice_updCodex.
  - apply wellFormed_InsertDouble.
  - intros (_ & _ & Hself).
    pose proof (Index_updCodex (fun codex =>
      Codex.setDouble (<[a := default [] (Codex.Double codex !! a) ++ [p]]> (Codex.Double codex))
                      codex) c a a) as Hidx.
    rewrite <- InsertDouble_updCodex, decide_True in Hidx by done.
    apply Hself in Hidx. simpl in Hidx. by rewrite lookup_insert_eq in Hidx.
Qed.

End StatementKinds.

(** * What classification keeps from statement to statement *)

Section ClassificationFacts.
Variable perms : Permutations.

Ltac from_statement :=
  split; [done|split; [done|]];
  let n := fresh "n" in let Hn := fresh "Hn" in
  intros n [Hn|Hn]; simpl in Hn; simplify_eq; set_solver.

(** The four ways in which a statement changes the state. *)
Lemma classify_shape graph h constants c index q h' constants' c' :
  classify perms graph (h, constants, c) index q = Ok (h', constants', c') ->
  (exists r, variablesOf q = []
     /\ refs h' = refs h ++ [r] /\ cursors h' = cursors h ++ [Cursor.zero]
     /\ fromStatement graph index q r /\ Reference.Dual r = None
     /\ constants' = constants ++ [length (refs h)] /\ c' = c)
  \/ (exists r a, variablesOf q = [a]
     /\ refs h' = refs h ++ [r] /\ cursors h' = cursors h
     /\ fromStatement graph index q r /\ Reference.Dual r = None
     /\ constants' = constants
     /\ c' = updCodex (fun codex =>
               Codex.setSingle (Codex.Single codex ++ [length (refs h)]) codex) c a)
  \/ (exists r a, variablesOf q = [a; a]
     /\ refs h' = refs h ++ [r] /\ cursors h' = cursors h ++ [Cursor.zero]
     /\ fromStatement graph index q r /\ Reference.Dual r = None
     /\ constants' = constants
     /\ c' = updCodex (fun codex =>
               Codex.setConstraint (Codex.Constraint codex ++ [length (refs h)]) codex) c a)
  \/ (exists rA rB a b, a ≠ b /\ variablesOf q = [a; b]
     /\ refs h' = refs h ++ [rA; rB]
     /\ cursors h' = cursors h ++ [Cursor.zero; Cursor.zero]
     /\ fromStatement graph index q rA /\ fromStatement graph index q rB
     /\ Reference.Dual rA = Some (S (length (refs h)))
     /\ Reference.Dual rB = Some (length (refs h))
     /\ constants' = constants
     /\ c' = InsertDouble (InsertDouble c a b (length (refs h))) b a (S (length (refs h)))).
Proof.
  intros Hrun.
  destruct q as [[] [] []];
    cbn -[insertConstraint insertPair GetCodex] in Hrun;
    repeat match type of Hrun with
    | context [decide (?a = ?b)] => destruct (decide (a = b)); [subst|]
    end;
    try discriminate;
    repeat (rewrite append_empty_l in Hrun || rewrite append_empty_r in Hrun);
    match type of Hrun with
    | context [insertConstraint _ _ _ _ _ _ ?a] =>
        unfold insertConstraint in Hrun; cbn -[GetCodex] in Hrun;
        assert (c' = updCodex (fun codex =>
                  Codex.setConstraint (Codex.Constraint codex ++ [length (refs h)]) codex) c a)
          as Hc by (unfold updCodex; destruct (GetCodex c a); by injection Hrun);
        right; right; left;
        destruct (GetCodex c a); injection Hrun as <- <- _;
        eexists _, a; split_and!; [done|reflexivity|reflexivity| |done|done|exact Hc];
        from_statement
    | context [insertPair _ _ _ _ ?a _ _ _ ?b _ _ _] =>
        destruct (insertPair _ _ _ _ _ _ _ _ _ _ _ _) as [h1 c1] eqn:Hins;
        injection Hrun as <- <- <-;
        apply insertPair_heap in Hins as (Hrefs & Hcur & ->);
        right; right; right;
        eexists _, _, a, b; split_and!;
          [congruence|done|exact Hrefs|exact Hcur| | |done|done|done|done];
        from_statement
    | context [GetCodex c ?a] =>
        assert (c' = updCodex (fun codex =>
                  Codex.setSingle (Codex.Single codex ++ [length (refs h)]) codex) c a)
          as Hc by (unfold updCodex; destruct (GetCodex c a); by injection Hrun);
        right; left;
        destruct (GetCodex c a); injection Hrun as <- <- _;
        eexists _, a; split_and!; [done|reflexivity|reflexivity| |done|done|exact Hc];
        from_statement
    | _ =>
        injection Hrun as <- <- <-; left;
        eexists; split_and!; [done|reflexivity|reflexivity| |done|done|done];
        from_statement
    end.
Qed.

(** *** How the lists of pointers change *)

Lemma pointersAt_constant constants c p place :
  pointersAt (constants ++ [p]) c place = appendAt (pointersAt constants c) InConstants p place.
Proof. unfold appendAt. by destruct place; simpl. Qed.

Lemma pointersAt_single constants c a p place :
  pointersAt constants
    (updCodex (fun codex => Codex.setSingle (Codex.Single codex ++ [p]) codex) c a) place
  = appendAt (pointersAt constants c) (InSingle a) p place.
Proof.
  unfold appendAt. destruct place as [|x|x|x y]; simpl.
  - done.
  - rewrite singlesOf_updCodex. destruct (decide (x = a)) as [->|Hx].
    + rewrite decide_True by done. simpl. by rewrite singlesOf_default.
    + rewrite decide_False by congruence. done.
  - rewrite constraintsOf_updCodex. case_decide; [|done]. subst. simpl.
    apply constraintsOf_default.
  - by apply doubleGroup_updCodex.
Qed.

Lemma pointersAt_constraint constants c a p place :
  pointersAt constants
    (updCodex (fun codex => Codex.setConstraint (Codex.Constraint codex ++ [p]) codex) c a) place
  = appendAt (pointersAt constants c) (InConstraint a) p place.
Proof.
  unfold appendAt. destruct place as [|x|x|x y]; simpl.
  - done.
  - rewrite singlesOf_updCodex. case_decide; [|done]. subst. simpl.
    apply singlesOf_default.
  - rewrite constraintsOf_updCodex. destruct (decide (x = a)) as [->|Hx].
    + rewrite decide_True by done. simpl. by rewrite constraintsOf_default.
    + rewrite decide_False by congruence. done.
  - by apply doubleGroup_updCodex.
Qed.

Lemma pointersAt_InsertDouble constants c a b p place :
  pointersAt constants (InsertDouble c a b p) place
  = appendAt (pointersAt constants c) (InDouble a b) p place.
Proof.
  unfold appendAt. destruct place as [|x|x|x y]; simpl.
  - done.
  - apply singlesOf_InsertDouble.
  - apply constraintsOf_InsertDouble.
  - rewrite doubleGroup_InsertDouble. destruct (decide (x = a /\ y = b)) as [[-> ->]|Hxy].
    + by rewrite decide_True.
    + rewrite decide_False; [done|]. intros [= -> ->]. by apply Hxy.
Qed.

Lemma owned_ext n view view' :
  (forall place, view' place = view place) -> owned n view -> owned n view'.
Proof.
  intros Hv (Hnd & Hlt & Hone). split_and!.
  - intros place. rewrite Hv. apply Hnd.
  - intros place p. rewrite Hv. apply Hlt.
  - intros place1 place2 p. rewrite !Hv. apply Hone.
Qed.

Lemma covered_ext n view view' :
  (forall place, view' place = view place) -> covered n view -> covered n view'.
Proof.
  intros Hv Hc p Hp. destruct (Hc p Hp) as [place Hin]. exists place. by rewrite Hv.
Qed.

Lemma elem_of_appendAt view place p pl q :
  q ∈ appendAt view place p pl <-> q ∈ view pl \/ (pl = place /\ q = p).
Proof.
  unfold appendAt. case_decide as Hpl.
  - rewrite elem_of_app, list_elem_of_singleton. tauto.
  - split; [by left|]. by intros [?|[? _]].
Qed.

(** A new pointer, appended to one list. *)
Lemma owned_appendAt n view place :
  owned n view -> owned (S n) (appendAt view place n).
Proof.
  intros (Hnd & Hlt & Hone). split_and!.
  - intros pl. unfold appendAt. case_decide; [|done].
    apply NoDup_app. split_and!; [done| |apply NoDup_singleton].
    intros q Hq ->%list_elem_of_singleton. apply Hlt in Hq. lia.
  - intros pl q [Hq|[_ ->]]%elem_of_appendAt; [|lia]. apply Hlt in Hq. lia.
  - intros pl1 pl2 q [Hq1|[-> ->]]%elem_of_appendAt [Hq2|[-> Heq]]%elem_of_appendAt.
    + by eapply Hone.
    + subst. apply Hlt in Hq1. lia.
    + apply Hlt in Hq2. lia.
    + done.
Qed.

Lemma covered_appendAt n view place :
  covered n view -> covered (S n) (appendAt view place n).
Proof.
  intros Hc p Hp. destruct (decide (p = n)) as [->|Hne].
  - exists place. apply elem_of_appendAt. by right.
  - destruct (Hc p ltac:(lia)) as [pl Hin]. exists pl. apply elem_of_appendAt. by left.
Qed.

Lemma classify_owned graph h constants c index q h' constants' c' :
  classify perms graph (h, constants, c) index q = Ok (h', constants', c') ->
  owned (length (refs h)) (pointersAt constants c) /\ covered (length (refs h)) (pointersAt constants c) ->
  owned (length (refs h')) (pointersAt constants' c')
  /\ covered (length (refs h')) (pointersAt constants' c').
Proof.
  intros Hrun [Ho Hc].
  apply classify_shape in Hrun
    as [(r & _ & Hrefs & _ & _ & _ & -> & ->)
       |[(r & a & _ & Hrefs & _ & _ & _ & -> & ->)
        |[(r & a & _ & Hrefs & _ & _ & _ & -> & ->)
         |(rA & rB & a & b & _ & _ & Hrefs & _ & _ & _ & _ & _ & -> & ->)]]];
    rewrite Hrefs, length_app; simpl; rewrite ?Nat.add_1_r.
  - split; [eapply owned_ext|eapply covered_ext];
      [apply pointersAt_constant|by apply owned_appendAt
      |apply pointersAt_constant|by apply covered_appendAt].
  - split; [eapply owned_ext|eapply covered_ext];
      [apply pointersAt_single|by apply owned_appendAt
      |apply pointersAt_single|by apply covered_appendAt].
  - split; [eapply owned_ext|eapply covered_ext];
      [apply pointersAt_constraint|by apply owned_appendAt
      |apply pointersAt_constraint|by apply covered_appendAt].
  - replace (length (refs h) + 2) with (S (S (length (refs h)))) by lia.
    assert (forall place,
      pointersAt constants
        (InsertDouble (InsertDouble c a b (length (refs h))) b a (S (length (refs h)))) place
      = appendAt (appendAt (pointersAt constants c) (InDouble a b) (length (refs h)))
          (InDouble b a) (S (length (refs h))) place) as Hview.
    { intros place. rewrite pointersAt_InsertDouble. unfold appendAt at 1 3.
      by rewrite !pointersAt_InsertDouble. }
    split; [eapply owned_ext|eapply covered_ext]; try exact Hview.
    + by do 2 apply owned_appendAt.
    + by do 2 apply covered_appendAt.
Qed.

(** *** Statistics stay zero *)

Lemma freshStatistics_updCodex f c id :
  (forall codex, Codex.Norm (f codex) = Codex.Norm codex
                 /\ Codex.Length (f codex) = Codex.Length codex
                 /\ Codex.Count (f codex) = Codex.Count codex) ->
  freshStatistics c -> freshStatistics (updCodex f c id).
Proof.
  intros Hf Hc x codex. rewrite Index_updCodex. case_decide; [|by apply Hc].
  intros [= <-]. destruct (Hf (default Codex.zero (CodexMap.Index c !! id))) as (-> & -> & ->).
  destruct (CodexMap.Index c !! id) as [cx|] eqn:Hid; simpl; [by eapply Hc|done].
Qed.

Lemma classify_freshStatistics graph h constants c index q h' constants' c' :
  classify perms graph (h, constants, c) index q = Ok (h', constants', c') ->
  freshStatistics c -> freshStatistics c'.
Proof.
  intros Hrun Hc.
  apply classify_shape in Hrun
    as [(r & _ & _ & _ & _ & _ & _ & ->)
       |[(r & a & _ & _ & _ & _ & _ & _ & ->)
        |[(r & a & _ & _ & _ & _ & _ & _ & ->)
         |(rA & rB & a & b & _ & _ & _ & _ & _ & _ & _ & _ & _ & ->)]]];
    rewrite ?InsertDouble_updCodex; repeat apply freshStatistics_updCodex; by try done.
Qed.

(** *** Dual fields *)

Lemma pairedDoubles_length h constants c a b :
  pairedDoubles h constants c -> length (doubleGroup c a b) = length (doubleGroup c b a).
Proof.
  intros (_ & Hpair & _).
  assert (forall x y, length (doubleGroup c x y) <= length (doubleGroup c y x)) as Hle.
  { intros x y. destruct (doubleGroup c x y) as [|p l] eqn:Hxy using rev_ind; [simpl; lia|].
    clear IHl. rewrite length_app. simpl.
    destruct (Hpair x y (length l) p) as (_ & q & _ & _ & Hq).
    { rewrite Hxy. by rewrite lookup_app_r, Nat.sub_diag. }
    apply lookup_lt_Some in Hq. lia. }
  apply Nat.le_antisymm; apply Hle.
Qed.

Lemma nonEmptyGroups_updCodex f c id :
  (forall codex b rs, Codex.Double (f codex) !! b = Some rs ->
     Codex.Double codex !! b = Some rs \/ rs ≠ []) ->
  nonEmptyGroups c -> nonEmptyGroups (updCodex f c id).
Proof.
  intros Hf Hc x codex b rs. rewrite Index_updCodex. case_decide; [|by apply Hc].
  intros [= <-] Hrs. apply Hf in Hrs as [Hrs|?]; [|done].
  destruct (CodexMap.Index c !! id) as [cx|] eqn:Hid; simpl in Hrs; [by eapply Hc|].
  by rewrite lookup_empty in Hrs.
Qed.

Lemma nonEmptyGroups_InsertDouble c a b p :
  nonEmptyGroups c -> nonEmptyGroups (InsertDouble c a b p).
Proof.
  rewrite InsertDouble_updCodex. apply nonEmptyGroups_updCodex.
  intros codex y rs. simpl. rewrite lookup_insert. case_decide; [|by left].
  intros [= <-]. right. by intros [? ?]%app_eq_nil.
Qed.

Lemma classify_nonEmptyGroups graph h constants c index q h' constants' c' :
  classify perms graph (h, constants, c) index q = Ok (h', constants', c') ->
  nonEmptyGroups c -> nonEmptyGroups c'.
Proof.
  intros Hrun Hc.
  apply classify_shape in Hrun
    as [(r & _ & _ & _ & _ & _ & _ & ->)
       |[(r & a & _ & _ & _ & _ & _ & _ & ->)
        |[(r & a & _ & _ & _ & _ & _ & _ & ->)
         |(rA & rB & a & b & _ & _ & _ & _ & _ & _ & _ & _ & _ & ->)]]].
  - done.
  - apply nonEmptyGroups_updCodex; [|done]. intros; by left.
  - apply nonEmptyGroups_updCodex; [|done]. intros; by left.
  - by do 2 apply nonEmptyGroups_InsertDouble.
Qed.

Lemma noDual_app h h' p more :
  refs h' = refs h ++ more -> noDual h p -> noDual h' p.
Proof.
  intros Hrefs (r & Hp & Hr). exists r. split; [|done].
  rewrite Hrefs. by apply lookup_app_l_Some.
Qed.

(** A statement that makes one reference without Dual, put in a list that
    is no Double group. *)
Lemma pairedDoubles_append h constants c h' constants' c' r place :
  (forall a b, place ≠ InDouble a b) ->
  refs h' = refs h ++ [r] -> Reference.Dual r = None ->
  (forall pl, pointersAt constants' c' pl
              = appendAt (pointersAt constants c) place (length (refs h)) pl) ->
  nonEmptyGroups c' ->
  pairedDoubles h constants c -> pairedDoubles h' constants' c'.
Proof.
  intros Hplace Hrefs Hdual Hview Hne (_ & Hpair & Hno).
  assert (forall a b, doubleGroup c' a b = doubleGroup c a b) as Hgroup.
  { intros a b. change (pointersAt constants' c' (InDouble a b) = doubleGroup c a b).
    rewrite Hview. unfold appendAt. rewrite decide_False; [done|]. intros Heq.
    by eapply Hplace. }
  split_and!.
  - exact Hne.
  - intros a b k p. rewrite !Hgroup. intros Hk.
    destruct (Hpair a b k p Hk) as (r0 & q & Hp & Hq & Hkq).
    exists r0, q. split_and!; [|done|done]. rewrite Hrefs. by apply lookup_app_l_Some.
  - intros pl p Hpl. rewrite Hview. intros [Hp|[-> ->]]%elem_of_appendAt.
    + eapply noDual_app; [done|]. by eapply Hno.
    + exists r. split; [|done]. rewrite Hrefs. by rewrite lookup_app_r, Nat.sub_diag.
Qed.

(** A statement of two distinct variables. *)
Lemma pairedDoubles_pair h constants c h' rA rB a b :
  a ≠ b ->
  refs h' = refs h ++ [rA; rB] ->
  Reference.Dual rA = Some (S (length (refs h))) ->
  Reference.Dual rB = Some (length (refs h)) ->
  pairedDoubles h constants c ->
  pairedDoubles h' constants
    (InsertDouble (InsertDouble c a b (length (refs h))) b a (S (length (refs h)))).
Proof.
  intros Hab Hrefs HA HB Hold.
  pose proof (pairedDoubles_length _ _ _ a b Hold) as Hlen.
  destruct Hold as (Hne & Hpair & Hno).
  set (n := length (refs h)) in *.
  assert (refs h' !! n = Some rA) as HnA.
  { rewrite Hrefs. by rewrite lookup_app_r, Nat.sub_diag. }
  assert (refs h' !! S n = Some rB) as HnB.
  { rewrite Hrefs. rewrite lookup_app_r by (unfold n; lia).
    by replace (S n - length (refs h)) with 1 by (unfold n; lia). }
  assert (forall x y, doubleGroup (InsertDouble (InsertDouble c a b n) b a (S n)) x y
            = if decide (x = b /\ y = a) then doubleGroup c b a ++ [S n]
              else if decide (x = a /\ y = b) then doubleGroup c a b ++ [n]
              else doubleGroup c x y) as Hgroup.
  { intros x y. rewrite !doubleGroup_InsertDouble.
    destruct (decide (x = b /\ y = a)) as [[-> ->]|Hxy]; [|done].
    by rewrite decide_False by (intros [? ?]; congruence). }
  split_and!.
  - by do 2 apply nonEmptyGroups_InsertDouble.
  - intros x y k p. rewrite !Hgroup.
    destruct (decide (x = b /\ y = a)) as [[-> ->]|Hba].
    + rewrite (decide_False (P := a = b /\ b = a)) by (intros [? ?]; congruence).
      rewrite decide_True by done.
      intros [Hk|[Hk Hp]]%lookup_app_Some.
      * destruct (Hpair b a k p Hk) as (r0 & q & Hp & Hq & Hkq).
        exists r0, q. split_and!; [|done|by apply lookup_app_l_Some].
        rewrite Hrefs. by apply lookup_app_l_Some.
      * apply list_lookup_singleton_Some in Hp as [Hk0 <-].
        exists rB, n. split_and!; [done|done|].
        replace k with (length (doubleGroup c a b)) by lia.
        by rewrite lookup_app_r, Nat.sub_diag.
    + destruct (decide (x = a /\ y = b)) as [[-> ->]|Hab'].
      * rewrite decide_True by done.
        intros [Hk|[Hk Hp]]%lookup_app_Some.
        -- destruct (Hpair a b k p Hk) as (r0 & q & Hp & Hq & Hkq).
           exists r0, q. split_and!; [|done|by apply lookup_app_l_Some].
           rewrite Hrefs. by apply lookup_app_l_Some.
        -- apply list_lookup_singleton_Some in Hp as [Hk0 <-].
           exists rA, (S n). split_and!; [done|done|].
           replace k with (length (doubleGroup c b a)) by lia.
           by rewrite lookup_app_r, Nat.sub_diag.
      * rewrite (decide_False (P := y = b /\ x = a)) by tauto.
        rewrite (decide_False (P := y = a /\ x = b)) by tauto.
        intros Hk. destruct (Hpair x y k p Hk) as (r0 & q & Hp & Hq & Hkq).
        exists r0, q. split_and!; [|done|done].
        rewrite Hrefs. by apply lookup_app_l_Some.
  - intros pl p Hpl. rewrite pointersAt_InsertDouble. unfold appendAt at 1.
    rewrite decide_False by apply Hpl. rewrite pointersAt_InsertDouble.
    unfold appendAt. rewrite decide_False by apply Hpl.
    intros Hp. eapply noDual_app; [done|]. by eapply Hno.
Qed.

Lemma classify_pairedDoubles graph h constants c index q h' constants' c' :
  classify perms graph (h, constants, c) index q = Ok (h', constants', c') ->
  pairedDoubles h constants c -> pairedDoubles h' constants' c'.
Proof.
  intros Hrun Hold.
  assert (nonEmptyGroups c') as Hne.
  { eapply classify_nonEmptyGroups; [done|]. exact (proj1 Hold). }
  apply classify_shape in Hrun
    as [(r & _ & Hrefs & _ & _ & Hdual & -> & ->)
       |[(r & a & _ & Hrefs & _ & _ & Hdual & -> & ->)
        |[(r & a & _ & Hrefs & _ & _ & Hdual & -> & ->)
         |(rA & rB & a & b & Hab & _ & Hrefs & _ & _ & _ & HA & HB & -> & ->)]]].
  - eapply (pairedDoubles_append _ _ _ _ _ _ r InConstants); try done.
    apply pointersAt_constant.
  - eapply (pairedDoubles_append _ _ _ _ _ _ r (InSingle a)); try done.
    apply pointersAt_single.
  - eapply (pairedDoubles_append _ _ _ _ _ _ r (InConstraint a)); try done.
    apply pointersAt_constraint.
  - by eapply pairedDoubles_pair.
Qed.

Lemma classify_classifiedMore graph st index q st' :
  classify perms graph st index q = Ok st' -> classifiedMore st -> classifiedMore st'.
Proof.
  destruct st as [[h constants] c], st' as [[h' constants'] c'].
  intros Hrun (Ho & Hc & Hp & Hf).
  destruct (classify_owned _ _ _ _ _ _ _ _ _ Hrun (conj Ho Hc)) as [Ho' Hc'].
  split_and!; simpl; [done|done| |].
  - by eapply classify_pairedDoubles.
  - by eapply classify_freshStatistics.
Qed.

Lemma classifiedMore_zero : classifiedMore (emptyHeap, [], CodexMap.zero).
Proof.
  assert (forall place, pointersAt [] CodexMap.zero place = []) as Hnil.
  { by intros []. }
  split_and!; simpl.
  - split_and!.
    + intros place. rewrite Hnil. apply NoDup_nil_2.
    + intros place p. rewrite Hnil. by intros ?%elem_of_nil.
    + intros place1 place2 p. rewrite Hnil. by intros ?%elem_of_nil.
  - intros p Hp. lia.
  - split_and!.
    + intros a codex b rs Ha. simpl in Ha. by rewrite lookup_empty in Ha.
    + intros a b k p. pose proof (Hnil (InDouble a b)) as Hg. simpl in Hg. by rewrite Hg.
    + intros place p _. rewrite Hnil. by intros ?%elem_of_nil.
  - intros id codex Ha. simpl in Ha. by rewrite lookup_empty in Ha.
Qed.

Lemma getInitalCodexMap_classifiedMore s dataset st :
  getInitalCodexMap perms s dataset = Ok st -> classifiedMore st.
Proof.
  unfold getInitalCodexMap. apply foldM_inv; [|apply classifiedMore_zero].
  intros st1 [graph quads] st2 _ Hst1 Hrun.
  apply (foldMi_inv (fun _ => classifiedMore)) in Hrun; [done| |done].
  intros st3 k q st4 _ Hst3 Hq. by eapply classify_classifiedMore.
Qed.

(** *** Sizes *)

Lemma foldMi_measure {A B} (f : B -> nat -> A -> result B) (m : B -> nat) (w : A -> nat)
    l i b b' :
  (forall b k x b', f b k x = Ok b' -> m b' = m b + w x) ->
  foldMi f i l b = Ok b' -> m b' = m b + sum_list_with w l.
Proof.
  intros Hstep. revert i b. induction l as [|x l IH]; intros i b; simpl.
  - intros [= <-]. lia.
  - destruct (f b i x) as [b1| |] eqn:E; simpl; try done.
    intros Hrun. apply IH in Hrun. apply Hstep in E. lia.
Qed.

Lemma foldM_measure {A B} (f : B -> A -> result B) (m : B -> nat) (w : A -> nat) l b b' :
  (forall b x b', f b x = Ok b' -> m b' = m b + w x) ->
  foldM f l b = Ok b' -> m b' = m b + sum_list_with w l.
Proof.
  intros Hstep. revert b. induction l as [|x l IH]; intros b; simpl.
  - intros [= <-]. lia.
  - destruct (f b x) as [b1| |] eqn:E; simpl; try done.
    intros Hrun. apply IH in Hrun. apply Hstep in E. lia.
Qed.

Lemma sum_list_with_mjoin {A} (w : A -> nat) (ls : list (list A)) :
  sum_list_with w (mjoin ls) = sum_list_with (sum_list_with w) ls.
Proof.
  induction ls as [|l ls IH]; simpl; [done|]. by rewrite sum_list_with_app, IH.
Qed.

Lemma sum_list_with_fmap {A B} (w : B -> nat) (g : A -> B) (l : list A) :
  sum_list_with w (g <$> l) = sum_list_with (fun x => w (g x)) l.
Proof. induction l as [|x l IH]; simpl; [done|]. by f_equal. Qed.

Lemma classify_sizes graph h constants c index q h' constants' c' :
  classify perms graph (h, constants, c) index q = Ok (h', constants', c') ->
  length (refs h') = length (refs h) + referencesFor q
  /\ length (cursors h') = length (cursors h) + cursorsFor q.
Proof.
  intros Hrun. unfold referencesFor, cursorsFor.
  apply classify_shape in Hrun
    as [(r & -> & -> & -> & _)
       |[(r & a & -> & -> & -> & _)
        |[(r & a & -> & -> & -> & _)
         |(rA & rB & a & b & Hab & -> & -> & -> & _)]]];
    rewrite ?length_app; simpl; rewrite ?decide_True by done; rewrite ?decide_False by done;
    lia.
Qed.

Lemma getInitalCodexMap_sizes s dataset h constants c :
  getInitalCodexMap perms s dataset = Ok (h, constants, c) ->
  length (refs h) = sum_list_with referencesFor (quadsOf dataset)
  /\ length (cursors h) = sum_list_with cursorsFor (quadsOf dataset).
Proof.
  unfold getInitalCodexMap, quadsOf. intros Hrun.
  assert (forall w : Quad -> nat,
    sum_list_with w (mjoin (snd <$> map_to_list (Graphs dataset)))
    = sum_list_with (fun e : string * list Quad => sum_list_with w e.2)
        (range (sGraphs s) (Graphs dataset))) as Hsum.
  { intros w. rewrite <- (range_Permutation (sGraphs s)), sum_list_with_mjoin.
    apply sum_list_with_fmap. }
  rewrite !Hsum. split.
  - apply (foldM_measure _ (fun st => length (refs st.1.1))
             (fun e : string * list Quad => sum_list_with referencesFor e.2)) in Hrun; [done|].
    intros [[h1 k1] c1] [graph quads] [[h2 k2] c2] Hin. simpl.
    apply (foldMi_measure _ (fun st => length (refs st.1.1)) referencesFor) in Hin; [done|].
    intros [[h3 k3] c3] i q [[h4 k4] c4] Hq. by apply classify_sizes in Hq as [? _].
  - apply (foldM_measure _ (fun st => length (cursors st.1.1))
             (fun e : string * list Quad => sum_list_with cursorsFor e.2)) in Hrun; [done|].
    intros [[h1 k1] c1] [graph quads] [[h2 k2] c2] Hin. simpl.
    apply (foldMi_measure _ (fun st => length (cursors st.1.1)) cursorsFor) in Hin; [done|].
    intros [[h3 k3] c3] i q [[h4 k4] c4] Hq. by apply classify_sizes in Hq as [_ ?].
Qed.

(** *** Coordinates *)

Lemma classify_located dataset graph quads index q h constants c h' constants' c' :
  Graphs dataset !! graph = Some quads -> quads !! index = Some q ->
  classify perms graph (h, constants, c) index q = Ok (h', constants', c') ->
  located dataset h -> located dataset h'.
Proof.
  intros Hgraph Hindex Hrun Hold.
  assert (forall more p r, refs h' = refs h ++ more -> refs h !! p = Some r ->
            (exists quads q, Graphs dataset !! Reference.Graph r = Some quads
               /\ quads !! Reference.Index r = Some q
               /\ fromStatement (Reference.Graph r) (Reference.Index r) q r)
            /\ forall d, Reference.Dual r = Some d ->
                 exists rd, refs h' !! d = Some rd
                   /\ Reference.Graph rd = Reference.Graph r
                   /\ Reference.Index rd = Reference.Index r) as Hkeep.
  { intros more p r Hrefs Hp. destruct (Hold p r Hp) as [Hloc Hd]. split; [done|].
    intros d Hdual. destruct (Hd d Hdual) as (rd & Hrd & Heq). exists rd. split; [|done].
    rewrite Hrefs. by apply lookup_app_l_Some. }
  assert (forall r, fromStatement graph index q r ->
            exists quads q, Graphs dataset !! Reference.Graph r = Some quads
              /\ quads !! Reference.Index r = Some q
              /\ fromStatement (Reference.Graph r) (Reference.Index r) q r) as Hnew.
  { intros r Hr. pose proof Hr as (Hg & Hi & _). exists quads, q. by rewrite Hg, Hi. }
  apply classify_shape in Hrun
    as [(r0 & _ & Hrefs & _ & Hfrom & Hdual & _)
       |[(r0 & a & _ & Hrefs & _ & Hfrom & Hdual & _)
        |[(r0 & a & _ & Hrefs & _ & Hfrom & Hdual & _)
         |(rA & rB & a & b & _ & _ & Hrefs & _ & HfA & HfB & HA & HB & _)]]];
    intros p r Hp; pose proof Hp as Hp'; rewrite Hrefs in Hp';
    apply lookup_app_Some in Hp' as [Hp'|[Hge Hp']]; try (by eapply Hkeep).
  1-3: apply list_lookup_singleton_Some in Hp' as [_ <-];
       (split; [by apply Hnew|]); intros d Hd; congruence.
  assert (refs h' !! length (refs h) = Some rA) as HnA.
  { rewrite Hrefs. by rewrite lookup_app_r, Nat.sub_diag. }
  assert (refs h' !! S (length (refs h)) = Some rB) as HnB.
  { rewrite Hrefs. rewrite lookup_app_r by lia.
    by replace (S (length (refs h)) - length (refs h)) with 1 by lia. }
  destruct HfA as (HgA & HiA & HkA), HfB as (HgB & HiB & HkB).
  destruct (p - length (refs h)) as [|[|k]] eqn:Hk; simpl in Hp'; [| |done].
  - injection Hp' as <-. split; [by apply Hnew|].
    intros d Hd. exists rB. rewrite HA in Hd. injection Hd as <-. split; [done|]. split; congruence.
  - injection Hp' as <-. split; [by apply Hnew|].
    intros d Hd. exists rA. rewrite HB in Hd. injection Hd as <-. split; [done|]. split; congruence.
Qed.

Lemma getInitalCodexMap_located s dataset h constants c :
  getInitalCodexMap perms s dataset = Ok (h, constants, c) -> located dataset h.
Proof.
  unfold getInitalCodexMap. intros Hrun.
  apply (foldM_inv (fun st => located dataset st.1.1)) in Hrun; [done| |].
  - intros st1 [graph quads] st2 Hgraph%elem_of_range Hst1 Hin.
    apply (foldMi_inv (fun _ st => located dataset st.1.1)) in Hin; [done| |done].
    intros [[h3 k3] c3] k q [[h4 k4] c4] Hk Hst3 Hq.
    exact (classify_located _ _ _ _ _ _ _ _ _ _ _ Hgraph Hk Hq Hst3).
  - intros p r Hp. simpl in Hp. by rewrite lookup_nil in Hp.
Qed.

(** *** The state that classification returns *)

(** X6. When getInitalCodexMap succeeds, the returned lists own the
    references it made: a pointer is a reference of the heap exactly when
    it is in the constants, in a Single list, in a Constraint list or in a
    Double group; no list holds a pointer twice, and no pointer is in two
    lists (of one codex or of two). *)
Theorem getInitalCodexMap_ownership s dataset h constants c :
  getInitalCodexMap perms s dataset = Ok (h, constants, c) ->
  (forall p, p < length (refs h) <-> exists place, p ∈ pointersAt constants c place)
  /\ (forall place, NoDup (pointersAt constants c place))
  /\ (forall place1 place2 p,
        p ∈ pointersAt constants c place1 -> p ∈ pointersAt constants c place2 ->
        place1 = place2).
Proof.
  intros Hrun. apply getInitalCodexMap_classifiedMore in Hrun
    as ((Hnd & Hlt & Hone) & Hcov & _). simpl in *.
  split_and!; [|done|done].
  intros p. split; [apply Hcov|]. intros [place Hp]. by eapply Hlt.
Qed.

(** X7. When getInitalCodexMap succeeds, the Dual fields pair the Double
    groups: the reference at offset k of the group of b in the codex of a
    has as Dual the reference at offset k of the group of a in the codex of
    b, which is another reference and has the first one as Dual; the two
    groups have the same length; a codex holds no empty group, and b has a
    group for a whenever a has one for b; and no constant, Single or
    Constraint reference has a Dual. *)
Theorem getInitalCodexMap_duals s dataset h constants c :
  getInitalCodexMap perms s dataset = Ok (h, constants, c) ->
  (forall a b k p, doubleGroup c a b !! k = Some p ->
     exists r q rq, refs h !! p = Some r /\ Reference.Dual r = Some q
       /\ doubleGroup c b a !! k = Some q
       /\ refs h !! q = Some rq /\ Reference.Dual rq = Some p /\ p ≠ q)
  /\ (forall a b, length (doubleGroup c a b) = length (doubleGroup c b a))
  /\ (forall a b codexA rs,
        CodexMap.Index c !! a = Some codexA -> Codex.Double codexA !! b = Some rs ->
        rs ≠ [] /\ a ≠ b
        /\ exists codexB, CodexMap.Index c !! b = Some codexB
             /\ is_Some (Codex.Double codexB !! a))
  /\ (forall p, p ∈ constants -> noDual h p)
  /\ (forall a p, p ∈ singlesOf c a \/ p ∈ constraintsOf c a -> noDual h p).
Proof.
  intros Hrun.
  pose proof (getInitalCodexMap_classified _ _ _ _ Hrun) as [(_ & _ & Hself) _].
  apply getInitalCodexMap_classifiedMore in Hrun as ((_ & _ & Hone) & _ & Hpaired & _).
  simpl in *.
  pose proof Hpaired as (Hne & Hpair & Hno).
  assert (forall a, doubleGroup c a a = []) as Hdiag.
  { intros a. unfold doubleGroup. destruct (CodexMap.Index c !! a) as [cx|] eqn:Ha; [|done].
    simpl. by rewrite (Hself a cx Ha). }
  split_and!.
  - intros a b k p Hk.
    destruct (Hpair a b k p Hk) as (r & q & Hp & Hq & Hkq).
    destruct (Hpair b a k q Hkq) as (rq & p' & Hrq & Hp' & Hkp).
    assert (p' = p) as -> by congruence.
    exists r, q, rq. split_and!; try done.
    intros <-. apply list_elem_of_lookup_2 in Hk, Hkq.
    assert (InDouble a b = InDouble b a) as [= -> _] by by eapply Hone.
    rewrite Hdiag in Hk. by apply elem_of_nil in Hk.
  - intros a b. by eapply pairedDoubles_length.
  - intros a b codexA rs Ha Hrs.
    pose proof (Hne a codexA b rs Ha Hrs) as Hrs0.
    assert (doubleGroup c a b = rs) as Hg.
    { unfold doubleGroup. rewrite Ha. simpl. by rewrite Hrs. }
    split_and!; [done| |].
    + intros <-. by rewrite Hdiag in Hg.
    + destruct rs as [|p rs]; [done|].
      destruct (Hpair a b 0 p) as (_ & q & _ & _ & Hq); [by rewrite Hg|].
      unfold doubleGroup in Hq.
      destruct (CodexMap.Index c !! b) as [codexB|]; [|done].
      exists codexB. split; [done|]. simpl in Hq.
      by destruct (Codex.Double codexB !! a).
  - intros p Hp. by apply (Hno InConstants).
  - intros a p [Hp|Hp]; [by apply (Hno (InSingle a))|by apply (Hno (InConstraint a))].
Qed.

(** X8. When getInitalCodexMap succeeds, the heap holds one Reference for
    every statement with no variable, with one variable or with one
    variable twice, and two for every statement with two distinct
    variables; it holds one Cursor for each of these References but the
    Single ones, which get none.  The order in which the graphs are visited
    does not change these numbers. *)
Theorem getInitalCodexMap_numbers s dataset h constants c :
  getInitalCodexMap perms s dataset = Ok (h, constants, c) ->
  length (refs h) = sum_list_with referencesFor (quadsOf dataset)
  /\ length (cursors h) = sum_list_with cursorsFor (quadsOf dataset)
  /\ length (cursors h) <= length (refs h) <= 2 * length (quadsOf dataset).
Proof.
  intros Hrun. apply getInitalCodexMap_sizes in Hrun as [-> ->]. split_and!; try done.
  - induction (quadsOf dataset) as [|q l IH]; simpl; [done|].
    assert (cursorsFor q <= referencesFor q); [|lia].
    unfold cursorsFor, referencesFor. destruct (variablesOf q) as [|a [|b [|]]]; try lia.
  - induction (quadsOf dataset) as [|q l IH]; simpl; [done|].
    assert (referencesFor q <= 2); [|lia].
    unfold referencesFor. destruct (variablesOf q) as [|a [|b [|]]]; try lia.
    case_decide; lia.
Qed.

(** X9. When getInitalCodexMap succeeds, every Reference of the heap
    carries the graph name and the index of a statement of the dataset,
    its known values M and N are nodes of that statement, and its Dual,
    when it has one, is a Reference of the heap made for the same
    statement. *)
Theorem getInitalCodexMap_coordinates s dataset h constants c p r :
  getInitalCodexMap perms s dataset = Ok (h, constants, c) ->
  refs h !! p = Some r ->
  (exists quads q, Graphs dataset !! Reference.Graph r = Some quads
     /\ quads !! Reference.Index r = Some q
     /\ forall n, Reference.M r = Some n \/ Reference.N r = Some n ->
          n ∈ [Subject q; Predicate q; Object q])
  /\ forall d, Reference.Dual r = Some d ->
       exists rd, refs h !! d = Some rd
         /\ Reference.Graph rd = Reference.Graph r
         /\ Reference.Index rd = Reference.Index r.
Proof.
  intros Hrun Hp. apply getInitalCodexMap_located in Hrun.
  destruct (Hrun p r Hp) as [(quads & q & Hg & Hi & _ & _ & Hn) Hd].
  split; [|done]. by exists quads, q.
Qed.

End ClassificationFacts.

(** ** The statement kinds and the returned state, on concrete statements *)

Lemma classify_one_variable_witness :
  exists r c',
    classify somePermutations "g" (emptyHeap, [], CodexMap.zero) 0
      (quad (BlankNode "x") (IRI "name") (Literal "Joel" "" ""))
    = Ok ({| refs := [r]; cursors := [] |}, [], c')
    /\ Reference.Cursor r = None.
Proof.
  destruct (classify_one_variable somePermutations "g" 0
              (quad (BlankNode "x") (IRI "name") (Literal "Joel" "" ""))
              emptyHeap [] CodexMap.zero "x" eq_refl)
    as (r & c' & Hrun & _ & _ & Hcur & _).
  exists r, c'. split; [exact Hrun|exact Hcur].
Defined.

Lemma classify_repeated_variable_witness :
  exists r c',
    classify somePermutations "g" (emptyHeap, [], CodexMap.zero) 0
      (quad (BlankNode "x") (BlankNode "x") (IRI "o"))
    = Ok ({| refs := [r]; cursors := [Cursor.zero] |}, [], c')
    /\ Reference.M r = None.
Proof.
  destruct (classify_repeated_variable somePermutations "g" 0
              (quad (BlankNode "x") (BlankNode "x") (IRI "o"))
              emptyHeap [] CodexMap.zero "x" eq_refl)
    as (r & c' & Hrun & _ & _ & HM & _).
  exists r, c'. split; [exact Hrun|exact HM].
Defined.

Lemma getInitalCodexMap_ownership_witness :
  exists h constants c,
    getInitalCodexMap somePermutations sched0 joel = Ok (h, constants, c)
    /\ forall place, NoDup (pointersAt constants c place).
Proof.
  destruct (getInitalCodexMap somePermutations sched0 joel) as [[[h constants] c]| |] eqn:E;
    [|by vm_compute in E..].
  exists h, constants, c. split; [reflexivity|].
  exact (proj1 (proj2 (getInitalCodexMap_ownership somePermutations sched0 joel h constants c E))).
Defined.

Lemma getInitalCodexMap_duals_witness :
  exists h constants c,
    getInitalCodexMap somePermutations sched0 joel = Ok (h, constants, c)
    /\ forall a b, length (doubleGroup c a b) = length (doubleGroup c b a).
Proof.
  destruct (getInitalCodexMap somePermutations sched0 joel) as [[[h constants] c]| |] eqn:E;
    [|by vm_compute in E..].
  exists h, constants, c. split; [reflexivity|].
  exact (proj1 (proj2 (getInitalCodexMap_duals somePermutations sched0 joel h constants c E))).
Defined.

Lemma getInitalCodexMap_numbers_witness :
  exists h constants c,
    getInitalCodexMap somePermutations sched0 joel = Ok (h, constants, c)
    /\ length (refs h) = sum_list_with referencesFor (quadsOf joel).
Proof.
  destruct (getInitalCodexMap somePermutations sched0 joel) as [[[h constants] c]| |] eqn:E;
    [|by vm_compute in E..].
  exists h, constants, c. split; [reflexivity|].
  exact (proj1 (getInitalCodexMap_numbers somePermutations sched0 joel h constants c E)).
Defined.

Lemma getInitalCodexMap_coordinates_witness :
  exists h constants c r,
    getInitalCodexMap somePermutations sched0 joel = Ok (h, constants, c)
    /\ refs h !! 1 = Some r
    /\ forall d, Reference.Dual r = Some d ->
         exists rd, refs h !! d = Some rd
           /\ Reference.Graph rd = Reference.Graph r
           /\ Reference.Index rd = Reference.Index r.
Proof.
  destruct (getInitalCodexMap somePermutations sched0 joel) as [[[h constants] c]| |] eqn:E;
    [|by vm_compute in E..].
  destruct (refs h !! 1) as [r|] eqn:Hr; [|by vm_compute in E; injection E as <- _ _].
  exists h, constants, c, r. split; [reflexivity|]. split; [exact Hr|].
  exact (proj2 (getInitalCodexMap_coordinates somePermutations sched0 joel h constants c 1 r
                  E Hr)).
Defined.

(** * Further properties of getAssignmentTree and of the full compilation *)

Lemma StronglySorted_le_lt (l : list nat) :
  StronglySorted le l -> NoDup l -> StronglySorted lt l.
Proof.
  induction 1 as [|x l Hsorted IH Hall]; intros Hnd; [constructor|].
  apply NoDup_cons in Hnd as [Hx Hnd]. constructor; [by apply IH|].
  apply Forall_forall. intros y Hy.
  pose proof (proj1 (Forall_forall _ _) Hall y Hy).
  assert (x ≠ y) by (intros ->; done). lia.
Qed.

Section PipelineFacts.
Context {V : Type}.
Variable perms : Permutations.
Variable assembleCountKey : Reference.t -> bool -> list byte * bool.
Variable txn : Txn.
Variable setValueRoot : Heap -> Assignment.t V -> option V.

(** ** Dependencies *)

Lemma resolved_Dependencies_bounds c slice h (idx : gmap string (Assignment.t V)) :
  (forall i id, slice !! i = Some id ->
     exists a, idx !! id = Some a /\ resolved c slice h idx i id a) ->
  forall i id a k, slice !! i = Some id -> idx !! id = Some a ->
    k ∈ Assignment.Dependencies a -> 0 < k < i.
Proof.
  intros Hall i. induction i as [i IH] using lt_wf_ind. intros id a k Hi Ha Hk.
  destruct (Hall i id Hi) as (a' & Ha' & codex & _ & _ & _ & _ & _ & Hdeps & _).
  assert (a' = a) as -> by congruence.
  apply Hdeps in Hk as (dep & rs & j & adep & _ & [Hj Hji] & Hj0 & Hadep & [->|Hk]); [lia|].
  pose proof (IH j Hji dep adep k Hj Hadep Hk). lia.
Qed.

(** X10. In the assignments that getAssignmentTree returns for a codex map
    without duplicates in its Slice and without a variable paired with
    itself, the Dependencies of the variable at position i are positions k
    with 0 < k < i, listed in strictly increasing order; so the variables
    at the positions 0 and 1 have no Dependencies, and position 0 is never
    a Dependency of any variable. *)
Theorem getAssignmentTree_Dependencies_bounds s c h c' h' idx i id a :
  NoDup (CodexMap.Slice c) ->
  (forall id codex, CodexMap.Index c !! id = Some codex -> Codex.Double codex !! id = None) ->
  getAssignmentTree assembleCountKey txn setValueRoot s c h = Ok (c', h', idx) ->
  CodexMap.Slice c' !! i = Some id -> idx !! id = Some a ->
  (forall k, k ∈ Assignment.Dependencies a -> 0 < k < i)
  /\ StronglySorted lt (Assignment.Dependencies a)
  /\ (i <= 1 -> Assignment.Dependencies a = []).
Proof.
  intros Hnd Hself Hrun Hi Ha.
  pose proof (getAssignmentTree_resolved _ _ _ _ _ _ _ _ _ Hnd Hself Hrun) as Hall.
  assert (forall k, k ∈ Assignment.Dependencies a -> 0 < k < i) as Hbounds.
  { intros k. by eapply resolved_Dependencies_bounds. }
  split_and!; [done| |].
  - destruct (Hall i id Hi) as (a' & Ha' & codex & _ & _ & _ & _ & _ & _ & Hsorted & Hnodup).
    assert (a' = a) as -> by congruence. by apply StronglySorted_le_lt.
  - intros Hle. destruct (Assignment.Dependencies a) as [|k l]; [done|].
    specialize (Hbounds k ltac:(left)). lia.
Qed.

(** ** The assignment map *)

Lemma resolvePhase_keys s c h h' (idx : gmap string (Assignment.t V)) :
  resolvePhase setValueRoot s c h = Ok (h', idx) ->
  (forall id, is_Some (idx !! id) <-> id ∈ CodexMap.Slice c)
  /\ forall id a, idx !! id = Some a ->
       exists codex, CodexMap.Index c !! id = Some codex
         /\ Assignment.Constraint a = Codex.Constraint codex
         /\ Assignment.Present a = Codex.Single codex
         /\ forall dep rs, Assignment.Future a !! dep = Some rs ->
              Codex.Double codex !! dep = Some rs.
Proof.
  unfold resolvePhase. intros ([[h2 index] indexMap] & Hrun & [= <- <-])%bind_Ok.
  pose (P := fun (k : nat) (st : Heap * gmap string (Assignment.t V) * gmap string nat) =>
    (forall id, is_Some (st.1.2 !! id) <-> id ∈ take k (CodexMap.Slice c))
    /\ forall id a, st.1.2 !! id = Some a ->
         exists codex, CodexMap.Index c !! id = Some codex
           /\ Assignment.Constraint a = Codex.Constraint codex
           /\ Assignment.Present a = Codex.Single codex
           /\ forall dep rs, Assignment.Future a !! dep = Some rs ->
                Codex.Double codex !! dep = Some rs).
  apply (foldMi_inv P) in Hrun.
  - destruct Hrun as [Hkeys Hvals]. simpl in *. split; [|done].
    intros id. rewrite Hkeys. by rewrite firstn_all.
  - clear Hrun. intros [[h0 index0] indexMap0] k id [[h3 index3] indexMap3] Hk [Hkeys Hvals] Hstep.
    simpl in *.
    apply resolveVariable_Ok in Hstep as (a & v & Hres & Hv).
    pose proof Hres as Hres'. apply resolveAssignment_Ok in Hres' as [-> ->].
    apply resolveAssignment_spec in Hres
      as (codex & Hc & _ & HC & HP & _ & Hfut & _).
    split.
    + intros id'. simpl. rewrite (take_S_r _ _ _ Hk), elem_of_app, list_elem_of_singleton.
      rewrite lookup_insert. case_decide as Hid.
      * subst. split; [by right|]. by eexists.
      * rewrite Hkeys. split; [by left|]. by intros [?|?].
    + intros id' a'. simpl. rewrite lookup_insert. case_decide as Hid; [|by apply Hvals].
      intros [= <-]. subst id'. exists codex. split_and!; try done.
      intros dep rs Hd. by apply Hfut in Hd as [? _].
  - split; simpl.
    + intros id. rewrite lookup_empty. split; [by intros [? ?]|by intros ?%elem_of_nil].
    + intros id a. by rewrite lookup_empty.
Qed.

Lemma compile_phases s dataset c' h' (idx : gmap string (Assignment.t V)) :
  compile perms assembleCountKey txn setValueRoot s dataset = Ok (c', h', idx) ->
  exists h0 constants c0 c1 h1,
    getInitalCodexMap perms s dataset = Ok (h0, constants, c0)
    /\ probePhase assembleCountKey txn s c0 h0 = Ok (c1, h1)
    /\ Stable c1 = Ok c'
    /\ resolvePhase setValueRoot s c' h1 = Ok (h', idx).
Proof.
  intros (h0 & constants & c0 & Hinit & _ & Hrun)%compile_Ok.
  apply getAssignmentTree_Ok in Hrun as (c1 & h1 & Hprobe & Hsort & Hres).
  by exists h0, constants, c0, c1, h1.
Qed.

(** The Double groups of the sorted map are those of classification. *)
Lemma compile_Double s dataset c' h' (idx : gmap string (Assignment.t V)) :
  compile perms assembleCountKey txn setValueRoot s dataset = Ok (c', h', idx) ->
  exists h0 constants c0,
    getInitalCodexMap perms s dataset = Ok (h0, constants, c0)
    /\ CodexMap.Slice c' ≡ₚ CodexMap.Slice c0
    /\ (forall id, is_Some (CodexMap.Index c' !! id) <-> is_Some (CodexMap.Index c0 !! id))
    /\ forall id codex', CodexMap.Index c' !! id = Some codex' ->
         exists codex, CodexMap.Index c0 !! id = Some codex
           /\ Codex.Constraint codex' = Codex.Constraint codex
           /\ Codex.Single codex' = Codex.Single codex
           /\ Codex.Double codex' = Codex.Double codex.
Proof.
  intros (h0 & constants & c0 & Hinit & _ & Hrun)%compile_Ok.
  pose proof (getAssignmentTree_Slice _ _ _ _ _ _ _ _ _ Hrun) as Hperm.
  apply getAssignmentTree_Ok in Hrun as (c1 & h1 & Hprobe & Hsort & Hres).
  exists h0, constants, c0. split; [done|].
  pose proof Hprobe as Hprobe'. apply probePhase_Ok in Hprobe' as (Hslice & _ & Hnone & Hsome).
  apply Stable_Ok in Hsort as [HI HS].
  split_and!.
  - done.
  - intros id. rewrite HI. destruct (CodexMap.Index c0 !! id) as [codex|] eqn:Hid.
    + destruct (Hsome id codex Hid) as (counts & _ & _ & ->). split; by eexists.
    + rewrite (Hnone id Hid). done.
  - intros id codex'. rewrite HI. intros Hid'.
    destruct (CodexMap.Index c0 !! id) as [codex|] eqn:Hid.
    + destruct (Hsome id codex Hid) as (counts & _ & _ & Heq).
      exists codex. split; [done|]. rewrite Heq in Hid'. injection Hid' as <-.
      destruct (account_fold counts (Codex.setCount 0 codex)) as (_ & _ & _ & -> & -> & ->).
      done.
    + rewrite (Hnone id Hid) in Hid'. done.
Qed.

(** The partner of a Double group has a codex of its own. *)
Lemma getInitalCodexMap_partner s dataset h constants c a b codexA rs :
  getInitalCodexMap perms s dataset = Ok (h, constants, c) ->
  CodexMap.Index c !! a = Some codexA -> Codex.Double codexA !! b = Some rs ->
  a ≠ b /\ b ∈ CodexMap.Slice c.
Proof.
  intros Hrun Ha Hrs.
  pose proof (getInitalCodexMap_classified _ _ _ _ Hrun) as [(_ & Hslice & Hself) _].
  apply getInitalCodexMap_classifiedMore in Hrun as (_ & _ & (Hne & Hpair & _) & _).
  simpl in *. split.
  - intros <-. rewrite (Hself a codexA Ha) in Hrs. done.
  - apply Hslice. pose proof (Hne a codexA b rs Ha Hrs) as Hrs0.
    destruct rs as [|p rs]; [done|].
    destruct (Hpair a b 0 p) as (_ & q & _ & _ & Hq).
    { unfold doubleGroup. rewrite Ha. simpl. by rewrite Hrs. }
    unfold doubleGroup in Hq. by destruct (CodexMap.Index c !! b).
Qed.

(** X11. In what the full compilation returns, the assignment map has
    exactly the variables of the returned order as keys; the assignment of
    a variable holds the Constraint and the Single list of its codex; every
    Double group of the codex belongs to a partner that has a position of
    its own in the order, different from the variable's; the group is in
    Future exactly when the partner comes later, and Future holds nothing
    else. *)
Theorem compile_assignments s dataset c' h' (idx : gmap string (Assignment.t V)) :
  compile perms assembleCountKey txn setValueRoot s dataset = Ok (c', h', idx) ->
  (forall id, is_Some (idx !! id) <-> id ∈ CodexMap.Slice c')
  /\ forall i id a, CodexMap.Slice c' !! i = Some id -> idx !! id = Some a ->
       exists codex, CodexMap.Index c' !! id = Some codex
         /\ Assignment.Constraint a = Codex.Constraint codex
         /\ Assignment.Present a = Codex.Single codex
         /\ (forall dep, is_Some (Assignment.Future a !! dep) ->
               is_Some (Codex.Double codex !! dep))
         /\ forall dep rs, Codex.Double codex !! dep = Some rs ->
              exists j, CodexMap.Slice c' !! j = Some dep /\ j ≠ i
                /\ (i < j -> Assignment.Future a !! dep = Some rs)
                /\ (j < i -> Assignment.Future a !! dep = None).
Proof.
  intros Hrun.
  pose proof (compile_resolved _ _ _ _ _ _ _ _ _ Hrun) as [Hnd Hall].
  pose proof (compile_Double _ _ _ _ _ Hrun)
    as (h0 & constants & c0 & Hinit & Hperm & _ & Hsame).
  pose proof (compile_phases _ _ _ _ _ Hrun)
    as (_ & _ & _ & c1 & h1 & _ & _ & _ & Hres).
  apply resolvePhase_keys in Hres as [Hkeys _].
  split; [done|].
  intros i id a Hi Ha.
  destruct (Hall i id Hi) as (a' & Ha' & codex & Hc & HC & HP & _ & Hfut & _).
  assert (a' = a) as -> by congruence.
  exists codex. split_and!; try done.
  - intros dep [rs Hrs]. apply Hfut in Hrs as [Hrs _]. by eexists.
  - intros dep rs Hrs.
    destruct (Hsame id codex Hc) as (codex0 & Hc0 & _ & _ & HD).
    rewrite HD in Hrs.
    destruct (getInitalCodexMap_partner _ _ _ _ _ _ _ _ _ Hinit Hc0 Hrs) as [Hne Hin].
    rewrite <- Hperm in Hin. apply list_elem_of_lookup_1 in Hin as [j Hj].
    rewrite <- HD in Hrs.
    assert (forall j', CodexMap.Slice c' !! j' = Some dep -> j' = j) as Hj'.
    { intros j' Hj'. exact (NoDup_lookup _ j' j dep Hnd Hj' Hj). }
    exists j. split_and!; [done| | |].
    + intros ->. congruence.
    + intros Hlt. apply Hfut. split; [done|]. intros j' ->%Hj'. lia.
    + intros Hlt. destruct (Assignment.Future a !! dep) as [rs'|] eqn:Hf; [|done].
      apply Hfut in Hf as [_ Hf]. apply Hf in Hj. lia.
Qed.

(** ** Where the errors come from *)

Lemma foldM_Err {A B} (f : B -> A -> result B) l b e :
  foldM f l b = Err e ->
  exists pre x post b1, l = pre ++ x :: post /\ foldM f pre b = Ok b1 /\ f b1 x = Err e.
Proof.
  revert b. induction l as [|x l IH]; intros b; simpl; [done|].
  destruct (f b x) as [b1|e1|] eqn:E; simpl; [|intros [= <-]|done].
  - intros (pre & y & post & b2 & -> & Hpre & Hy)%IH.
    exists (x :: pre), y, post, b2. simpl. by rewrite E.
  - by exists [], x, l, b.
Qed.

Lemma foldMi_Err {A B} (f : B -> nat -> A -> result B) i l b e :
  foldMi f i l b = Err e ->
  exists pre x post b1,
    l = pre ++ x :: post /\ foldMi f i pre b = Ok b1 /\ f b1 (i + length pre) x = Err e.
Proof.
  revert i b. induction l as [|x l IH]; intros i b; simpl; [done|].
  destruct (f b i x) as [b1|e1|] eqn:E; simpl; [|intros [= <-]|done].
  - intros (pre & y & post & b2 & -> & Hpre & Hy)%IH.
    exists (x :: pre), y, post, b2. simpl. rewrite E. simpl.
    by rewrite <- Nat.add_succ_comm.
  - exists [], x, l, b. simpl. by rewrite Nat.add_0_r.
Qed.

Lemma probeRef_Err zero h major codex p e :
  probeRef assembleCountKey txn zero (h, major, codex) p = Err e ->
  (exists key msg, e = StoreError msg /\ (txn key = GetError msg \/ txn key = Item (inl msg)))
  \/ (e = zero p /\ probedCount assembleCountKey txn h p 0).
Proof.
  unfold probeRef. destruct (refs h !! p) as [r|] eqn:Hp; [|done].
  destruct (assembleCountKey r major) as [key major1] eqn:Hkey. simpl.
  destruct (getCount key txn) as [n|e1|] eqn:Hn; simpl; [| |done].
  - case_decide as Hz; [|done]. intros [= <-]. right. split; [done|].
    exists r, (Reference.Cursor r), major. rewrite setCursor_id, Hkey. simpl.
    by rewrite Hn, Hz.
  - intros [= <-]. left. exists key. unfold getCount in Hn.
    destruct (txn key) as [|msg|[msg|count]]; try done.
    + injection Hn as <-. exists msg. tauto.
    + injection Hn as <-. exists msg. tauto.
    + by destruct (Uint64 count).
Qed.

Lemma probeRefs_Err zero l h major codex e :
  foldM (probeRef assembleCountKey txn zero) l (h, major, codex) = Err e ->
  (exists key msg, e = StoreError msg /\ (txn key = GetError msg \/ txn key = Item (inl msg)))
  \/ (exists p, p ∈ l /\ e = zero p /\ probedCount assembleCountKey txn h p 0).
Proof.
  intros (pre & p & post & [[h1 major1] codex1] & -> & Hpre & Hp)%foldM_Err.
  apply probeRefs_Ok in Hpre as (counts & (_ & _ & Hsame & _) & _).
  apply probeRef_Err in Hp as [Hstore|[-> Hzero]]; [by left|right].
  exists p. split_and!; [set_solver|done|]. by eapply probedCount_sameButCursors.
Qed.

Lemma probeGroups_Err (groups : list (string * list ptr)) h major codex e :
  foldM (fun st '(_, rs) => foldM (probeRef assembleCountKey txn DoubleCountZero) rs st)
        groups (h, major, codex) = Err e ->
  (exists key msg, e = StoreError msg /\ (txn key = GetError msg \/ txn key = Item (inl msg)))
  \/ (exists dep rs p, (dep, rs) ∈ groups /\ p ∈ rs /\ e = DoubleCountZero p
        /\ probedCount assembleCountKey txn h p 0).
Proof.
  intros (pre & [dep rs] & post & [[h1 major1] codex1] & -> & Hpre & Hp)%foldM_Err.
  apply probeGroups_Ok in Hpre as (counts & (_ & _ & Hsame & _) & _).
  apply probeRefs_Err in Hp as [Hstore|(p & Hin & -> & Hzero)]; [by left|right].
  exists dep, rs, p. split_and!; [set_solver|done|done|].
  by eapply probedCount_sameButCursors.
Qed.

Lemma probeCodex_Err s h major index id codex e :
  probeCodex assembleCountKey txn s (h, major, index) (id, codex) = Err e ->
  (exists key msg, e = StoreError msg /\ (txn key = GetError msg \/ txn key = Item (inl msg)))
  \/ (exists p, p ∈ Codex.Single codex /\ e = SingleCountZero p
        /\ probedCount assembleCountKey txn h p 0)
  \/ (exists dep rs p, Codex.Double codex !! dep = Some rs /\ p ∈ rs
        /\ e = DoubleCountZero p /\ probedCount assembleCountKey txn h p 0).
Proof.
  unfold probeCodex. simpl.
  destruct (foldM _ (Codex.Single codex) _) as [[[h1 major1] codex1]|e1|] eqn:Hsingle;
    simpl; [| |done].
  - apply probeRefs_Ok in Hsingle as (counts & (_ & _ & Hsame & _) & ->).
    rewrite account_fold_Double. simpl.
    destruct (foldM _ (range _ _) _) as [[[h2 major2] codex2]|e2|] eqn:Hdouble;
      simpl; [done| |done].
    intros [= <-].
    apply probeGroups_Err in Hdouble as [Hstore|(dep & rs & p & Hin & Hp & -> & Hzero)];
      [by left|right; right].
    exists dep, rs, p. split_and!; [|done|done|by eapply probedCount_sameButCursors].
    by apply elem_of_range in Hin.
  - intros [= <-].
    apply probeRefs_Err in Hsingle as [Hstore|(p & Hin & -> & Hzero)]; [by left|right; left].
    by exists p.
Qed.

Lemma probePhase_Err s c h e :
  probePhase assembleCountKey txn s c h = Err e ->
  (exists key msg, e = StoreError msg /\ (txn key = GetError msg \/ txn key = Item (inl msg)))
  \/ (exists id codex p, CodexMap.Index c !! id = Some codex /\ p ∈ Codex.Single codex
        /\ e = SingleCountZero p /\ probedCount assembleCountKey txn h p 0)
  \/ (exists id codex dep rs p, CodexMap.Index c !! id = Some codex
        /\ Codex.Double codex !! dep = Some rs /\ p ∈ rs
        /\ e = DoubleCountZero p /\ probedCount assembleCountKey txn h p 0).
Proof.
  unfold probePhase.
  destruct (foldM _ _ _) as [[[h1 major1] index1]|e1|] eqn:Hloop; simpl; [done| |done].
  intros [= <-].
  apply foldM_Err in Hloop
    as (pre & [id codex] & post & [[h1 major1] index1] & Hsplit & Hpre & Hstep).
  assert (CodexMap.Index c !! id = Some codex) as Hid.
  { apply (elem_of_range (sIndex s)). rewrite Hsplit. set_solver. }
  assert (NoDup (fst <$> pre)) as Hnd.
  { pose proof (NoDup_fst_range (sIndex s) (CodexMap.Index c)) as Hall.
    rewrite Hsplit, fmap_app in Hall. by apply NoDup_app in Hall as [? _]. }
  apply probeLoop_Ok in Hpre as ((counts & _ & _ & Hsame & _) & _); [|done].
  apply probeCodex_Err in Hstep
    as [Hstore|[(p & Hp & -> & Hzero)|(dep & rs & p & Hrs & Hp & -> & Hzero)]].
  - by left.
  - right; left. exists id, codex, p. split_and!; try done.
    by eapply probedCount_sameButCursors.
  - right; right. exists id, codex, dep, rs, p. split_and!; try done.
    by eapply probedCount_sameButCursors.
Qed.

Lemma pastRef_no_Err dep st k p e : pastRef dep st k p ≠ Err e.
Proof.
  destruct st as [h past]. unfold pastRef.
  destruct (refs h !! p) as [r|]; [|done]. by destruct (Reference.Cursor r).
Qed.

Lemma resolveGroup_no_Err indexMap (index : gmap string (Assignment.t V)) st entry e :
  resolveGroup indexMap index st entry ≠ Err e.
Proof.
  destruct st as [[h a] deps], entry as [dep rs]. unfold resolveGroup.
  destruct (indexMap !! dep) as [j|]; [|done].
  destruct (foldMi _ _ _ _) as [[h1 past1]|e1|] eqn:Hloop; simpl; [| |done].
  - by destruct (index !! dep).
  - apply foldMi_Err in Hloop as (? & ? & ? & ? & _ & _ & Hstep).
    by apply pastRef_no_Err in Hstep.
Qed.

Lemma resolveAssignment_no_Err s c st i id e :
  resolveAssignment setValueRoot s c st i id ≠ Err e.
Proof.
  destruct st as [[h index] indexMap]. unfold resolveAssignment.
  destruct (CodexMap.Index c !! id) as [codex|]; [|done].
  destruct (foldM _ _ _) as [[[h1 a1] deps1]|e1|] eqn:Hloop; simpl; [done| |done].
  apply foldM_Err in Hloop as (? & ? & ? & ? & _ & _ & Hstep).
  by apply resolveGroup_no_Err in Hstep.
Qed.

Lemma resolvePhase_Err s c h e :
  resolvePhase setValueRoot s c h = Err e ->
  exists id, id ∈ CodexMap.Slice c /\ e = EmptyIntersect id.
Proof.
  unfold resolvePhase.
  destruct (foldMi _ _ _ _) as [[[h1 index1] indexMap1]|e1|] eqn:Hloop; simpl; [done| |done].
  intros [= <-].
  apply foldMi_Err in Hloop as (pre & id & post & st & Hsplit & _ & Hstep).
  exists id. split; [rewrite Hsplit; set_solver|].
  unfold resolveVariable in Hstep.
  destruct (resolveAssignment _ _ _ _ _ _) as [[[[h2 index2] indexMap2] a]|e2|] eqn:Hres;
    simpl in Hstep; [| |done].
  - destruct (Assignment.ValueRoot a); [done|]. by injection Hstep as <-.
  - by apply resolveAssignment_no_Err in Hres.
Qed.

(** X12. Every error that getAssignmentTree returns has one of four
    origins: an error of txn.Get or of ValueCopy for some key, passed on
    unchanged; "Single reference count of zero" for a reference of a Single
    list of c whose probed count is zero; "Double reference count of zero"
    for a reference of a Double group of c whose probed count is zero; or
    "static intersect is empty" for a variable of c.Slice.  It never
    returns the all-blank error of classification. *)
Theorem getAssignmentTree_errors s c h e :
  getAssignmentTree assembleCountKey txn setValueRoot s c h = Err e ->
  (exists key msg, e = StoreError msg /\ (txn key = GetError msg \/ txn key = Item (inl msg)))
  \/ (exists id codex p, CodexMap.Index c !! id = Some codex /\ p ∈ Codex.Single codex
        /\ e = SingleCountZero p /\ probedCount assembleCountKey txn h p 0)
  \/ (exists id codex dep rs p, CodexMap.Index c !! id = Some codex
        /\ Codex.Double codex !! dep = Some rs /\ p ∈ rs
        /\ e = DoubleCountZero p /\ probedCount assembleCountKey txn h p 0)
  \/ (exists id, id ∈ CodexMap.Slice c /\ e = EmptyIntersect id).
Proof.
  unfold getAssignmentTree.
  destruct (probePhase _ _ _ _ _) as [[c1 h1]|e1|] eqn:Hprobe; simpl; [| |done].
  - destruct (Stable c1) as [c2| |] eqn:Hsort; simpl; [| |done].
    + destruct (resolvePhase _ _ _ _) as [[h2 index]|e2|] eqn:Hres; simpl; [done| |done].
      intros [= <-]. right; right; right.
      apply resolvePhase_Err in Hres as (id & Hid & ->). exists id. split; [|done].
      apply probePhase_Slice in Hprobe. apply Stable_Ok in Hsort as [_ Hslice].
      rewrite Hslice, Hprobe in Hid.
      destruct (sortStable_spec (fun id => - countOf c1 id)%Z (Less c1))
        with (l := CodexMap.Slice c) as (_ & Hp & _).
      { intros x y. unfold Less. rewrite bool_decide_eq_true. lia. }
      by rewrite Hp in Hid.
    + unfold Stable in Hsort. by case_decide.
  - intros [= <-]. apply probePhase_Err in Hprobe. tauto.
Qed.

(** ** No panic *)

Lemma foldM_Panic {A B} (f : B -> A -> result B) l b :
  foldM f l b = Panic ->
  exists pre x post b1, l = pre ++ x :: post /\ foldM f pre b = Ok b1 /\ f b1 x = Panic.
Proof.
  revert b. induction l as [|x l IH]; intros b; simpl; [done|].
  destruct (f b x) as [b1|e1|] eqn:E; simpl; [|done|intros _].
  - intros (pre & y & post & b2 & -> & Hpre & Hy)%IH.
    exists (x :: pre), y, post, b2. simpl. by rewrite E.
  - by exists [], x, l, b.
Qed.

Lemma foldMi_Panic {A B} (f : B -> nat -> A -> result B) i l b :
  foldMi f i l b = Panic ->
  exists pre x post b1,
    l = pre ++ x :: post /\ foldMi f i pre b = Ok b1 /\ f b1 (i + length pre) x = Panic.
Proof.
  revert i b. induction l as [|x l IH]; intros i b; simpl; [done|].
  destruct (f b i x) as [b1|e1|] eqn:E; simpl; [|done|intros _].
  - intros (pre & y & post & b2 & -> & Hpre & Hy)%IH.
    exists (x :: pre), y, post, b2. simpl. rewrite E. simpl.
    by rewrite <- Nat.add_succ_comm.
  - exists [], x, l, b. simpl. by rewrite Nat.add_0_r.
Qed.

Lemma hasCursor_sameButTags h h' p : sameButTags h h' -> hasCursor h p -> hasCursor h' p.
Proof. intros [Hrefs _]. unfold hasCursor. by rewrite Hrefs. Qed.

Lemma pastRefs_no_panic dep rs k h past :
  (forall p, p ∈ rs -> hasCursor h p) ->
  foldMi (pastRef dep) k rs (h, past) ≠ Panic.
Proof.
  intros Hrs (pre & p & post & [h1 past1] & -> & Hpre & Hstep)%foldMi_Panic.
  apply pastRefs_Ok in Hpre as (_ & _ & Hsame & _).
  destruct (hasCursor_sameButTags h h1 p Hsame) as (r & cur & Hp & Hcur); [set_solver|].
  unfold pastRef in Hstep. by rewrite Hp, Hcur in Hstep.
Qed.

Lemma resolveGroup_no_panic indexMap (index : gmap string (Assignment.t V)) h a deps dep rs :
  (forall p, p ∈ rs -> hasCursor h p) ->
  (is_Some (indexMap !! dep) -> is_Some (index !! dep)) ->
  resolveGroup indexMap index (h, a, deps) (dep, rs) ≠ Panic.
Proof.
  intros Hrs Hdep. unfold resolveGroup.
  destruct (indexMap !! dep) as [j|]; [|done].
  destruct (foldMi _ _ _ _) as [[h1 past1]|e1|] eqn:Hloop; simpl; [|done|].
  - by destruct Hdep as [adep ->].
  - by apply pastRefs_no_panic in Hloop.
Qed.

Lemma resolveAssignment_no_panic s c h (index : gmap string (Assignment.t V)) indexMap i id :
  is_Some (CodexMap.Index c !! id) ->
  (forall codex dep rs p, CodexMap.Index c !! id = Some codex ->
     Codex.Double codex !! dep = Some rs -> p ∈ rs -> hasCursor h p) ->
  (forall dep, is_Some (indexMap !! dep) -> is_Some (index !! dep)) ->
  resolveAssignment setValueRoot s c (h, index, indexMap) i id ≠ Panic.
Proof.
  intros [codex Hc] Hcur Hdom. unfold resolveAssignment. rewrite Hc.
  destruct (foldM _ _ _) as [[[h1 a1] deps1]|e1|] eqn:Hloop; simpl; [done|done|].
  apply foldM_Panic in Hloop
    as (pre & [dep rs] & post & [[h1 a1] deps1] & Hsplit & Hpre & Hstep).
  assert (Codex.Double codex !! dep = Some rs) as Hrs.
  { apply (elem_of_range (sDouble s i)). rewrite Hsplit. set_solver. }
  assert (NoDup (fst <$> pre)) as Hnd.
  { pose proof (NoDup_fst_range (sDouble s i) (Codex.Double codex)) as Hall.
    rewrite Hsplit, fmap_app in Hall. by apply NoDup_app in Hall as [? _]. }
  apply resolveGroups_Ok in Hpre as (Hsame & _); [|exact setValueRoot|done].
  intros _. revert Hstep. apply resolveGroup_no_panic.
  - intros p Hp. eapply hasCursor_sameButTags; [done|]. by eapply Hcur.
  - intros [j Hj]. destruct (decide (dep = id)) as [->|Hne].
    + rewrite lookup_insert_eq. by eexists.
    + rewrite lookup_insert_ne by done. apply Hdom. rewrite lookup_insert_ne in Hj by done.
      by eexists.
Qed.

Lemma resolvePhase_no_panic s c h :
  sliceInIndex c ->
  (forall id codex dep rs p, CodexMap.Index c !! id = Some codex ->
     Codex.Double codex !! dep = Some rs -> p ∈ rs -> hasCursor h p) ->
  resolvePhase setValueRoot s c h ≠ Panic.
Proof.
  intros Hslice Hcur. unfold resolvePhase.
  destruct (foldMi _ _ _ _) as [[[h1 index1] indexMap1]|e1|] eqn:Hloop; simpl; [done|done|].
  intros _.
  apply foldMi_Panic in Hloop as (pre & id & post & [[h1 index1] indexMap1] & Hsplit & Hpre & Hstep).
  pose (P := fun (k : nat) (st : Heap * gmap string (Assignment.t V) * gmap string nat) =>
    sameButTags h st.1.1
    /\ forall dep, is_Some (st.2 !! dep) -> is_Some (st.1.2 !! dep)).
  apply (foldMi_inv P) in Hpre.
  - destruct Hpre as [Hsame Hdom]. simpl in *.
    unfold resolveVariable in Hstep.
    destruct (resolveAssignment _ _ _ _ _ _) as [[[[h2 index2] indexMap2] a]|e2|] eqn:Hres;
      simpl in Hstep; [by destruct (Assignment.ValueRoot a)|done|].
    revert Hres. apply resolveAssignment_no_panic; [| |done].
    + apply Hslice. rewrite Hsplit. set_solver.
    + intros codex dep rs p Hc Hrs Hp. eapply hasCursor_sameButTags; [done|]. by eapply Hcur.
  - clear Hstep. intros [[h2 index2] indexMap2] k x [[h3 index3] indexMap3] _ [Hsame Hdom] Hx.
    simpl in *.
    apply resolveVariable_Ok in Hx as (a & v & Hres & _).
    pose proof Hres as Hres'. apply resolveAssignment_Ok in Hres' as [-> ->].
    apply resolveAssignment_spec in Hres as (_ & _ & Hsame' & _).
    split; simpl; [by eapply sameButTags_trans|].
    intros dep. rewrite !lookup_insert. case_decide; [by eexists|apply Hdom].
  - split; simpl; [apply sameButTags_refl|]. intros dep. by rewrite lookup_empty.
Qed.

(** What follows a probe phase that succeeded. *)
Lemma afterProbe_no_panic s c h c1 h1 :
  sliceInIndex c ->
  probePhase assembleCountKey txn s c h = Ok (c1, h1) ->
  (c2 ← Stable c1;
   '(h2, index) ← resolvePhase setValueRoot s c2 h1;
   Ok (c2, h2, index)) ≠ Panic.
Proof.
  intros Hslice Hprobe.
  pose proof Hprobe as Hprobe'.
  apply probePhase_Ok in Hprobe' as (Hsl & (counts & Hheap) & Hnone & Hsome).
  assert (sliceInIndex c1) as Hslice1.
  { intros id. rewrite Hsl. intros [codex Hc]%Hslice.
    destruct (Hsome id codex Hc) as (? & _ & _ & ->). by eexists. }
  destruct (Stable c1) as [c2| |] eqn:Hsort; simpl; [|done|].
  - apply Stable_Ok in Hsort as [HI HS].
    destruct (resolvePhase _ _ _ _) as [[h2 index]|e2|] eqn:Hres; simpl; [done|done|].
    intros _. revert Hres. apply resolvePhase_no_panic.
    + intros id. rewrite HS, HI. intros Hid. apply Hslice1.
      destruct (sortStable_spec (fun id => - countOf c1 id)%Z (Less c1))
        with (l := CodexMap.Slice c1) as (_ & Hp & _).
      { intros x y. unfold Less. rewrite bool_decide_eq_true. lia. }
      by rewrite Hp in Hid.
    + intros id codex2 dep rs p. rewrite HI. intros Hc2 Hrs Hp.
      destruct (probePhase_Double _ _ _ _ _ _ _ _ _ Hprobe Hc2) as (codex & Hc & HD).
      destruct Hheap as (_ & _ & _ & _ & _ & Hnew).
      destruct (Hnew p) as (r & cur & Hr & Hcur & _); [|by exists r, cur].
      apply elem_of_probeWork. exists id, codex. split; [done|].
      apply elem_of_probeList. right. exists dep, rs. by rewrite <- HD.
  - intros _. unfold Stable in Hsort. case_decide as Hbad; [|done].
    destruct Hbad as [_ Hbad]. apply Hbad. by apply Forall_forall.
Qed.

(** X13. getAssignmentTree does not panic when every value of the store
    has the eight bytes of a counter, every pointer of a Single list or a
    Double group is a Reference of the heap, and every variable of c.Slice
    has a codex in c.Index: it returns the order with the assignments, or
    an error. *)
Theorem getAssignmentTree_never_panics s c h :
  storeWellFormed txn -> referencesIn h c -> sliceInIndex c ->
  getAssignmentTree assembleCountKey txn setValueRoot s c h ≠ Panic.
Proof.
  intros Hstore Hrefs Hslice. unfold getAssignmentTree.
  destruct (probePhase _ _ _ _ _) as [[c1 h1]|e1|] eqn:Hprobe; simpl; [|done|].
  - by eapply afterProbe_no_panic.
  - intros _. by eapply probePhase_no_panic.
Qed.

(** X14. The full compilation of any dataset does not panic when every
    value of the store has the eight bytes of a counter: classification
    returns a state in which every listed pointer is a Reference, every
    variable of the Slice has a codex and every Double reference gets its
    Cursor from the probe before the resolution reads it. *)
Theorem compile_never_panics s dataset :
  storeWellFormed txn ->
  compile perms assembleCountKey txn setValueRoot s dataset ≠ Panic.
Proof.
  intros Hstore. unfold compile.
  destruct (getInitalCodexMap perms s dataset) as [[[h0 constants] c0]|e0|] eqn:Hinit;
    simpl; [|done|].
  - pose proof (getInitalCodexMap_classified _ _ _ _ Hinit) as [(_ & Hslice & _) _].
    pose proof (getInitalCodexMap_classifiedMore _ _ _ _ Hinit) as ((_ & Hlt & _) & _).
    simpl in *. unfold getAssignmentTree.
    destruct (probePhase _ _ _ _ _) as [[c1 h1]|e1|] eqn:Hprobe; simpl; [|done|].
    + eapply afterProbe_no_panic; [|done]. intros id. apply Hslice.
    + intros _. revert Hprobe. apply probePhase_no_panic; [done|].
      intros id codex p Hc Hp. apply lookup_lt_is_Some.
      destruct Hp as [Hp|(dep & rs & Hrs & Hp)].
      * apply (Hlt (InSingle id)). simpl. unfold singlesOf. by rewrite Hc.
      * apply (Hlt (InDouble id dep)). simpl. unfold doubleGroup. rewrite Hc. simpl.
        by rewrite Hrs.
  - intros _. unfold getInitalCodexMap in Hinit.
    pose proof (classifyGraphs_result perms (range (sGraphs s) (Graphs dataset))
                  (emptyHeap, [], CodexMap.zero)) as Hres.
    case_decide; [congruence|]. destruct Hres as [st Hst]. congruence.
Qed.

(** ** The counters of the store *)

Lemma bigEndian_range (l : list byte) (acc : Z) (k : nat) :
  (0 <= acc < 256 ^ Z.of_nat k)%Z ->
  (0 <= foldl (fun acc x => acc * 256 + Z.of_N (Byte.to_N x)) acc l
   < 256 ^ Z.of_nat (k + length l))%Z.
Proof.
  revert acc k. induction l as [|x l IH]; intros acc k Hacc; simpl.
  - by rewrite Nat.add_0_r.
  - replace (k + S (length l)) with (S k + length l) by lia. apply IH.
    pose proof (Byte.to_N_bounded x).
    rewrite Nat2Z.inj_succ, Z.pow_succ_r by lia. lia.
Qed.

Lemma byte_zero (x : byte) : Z.of_N (Byte.to_N x) = 0%Z <-> x = x00%byte.
Proof.
  split; [|by intros ->]. intros Hx.
  assert (Byte.to_N x = 0%N) as Hn by lia.
  pose proof (Byte.of_to_N x) as Hof. rewrite Hn in Hof. simpl in Hof. congruence.
Qed.

Lemma bigEndian_zero (l : list byte) (acc : Z) :
  (0 <= acc)%Z ->
  foldl (fun acc x => acc * 256 + Z.of_N (Byte.to_N x))%Z acc l = 0%Z
  <-> acc = 0%Z /\ Forall (fun x => x = x00%byte) l.
Proof.
  revert acc. induction l as [|x l IH]; intros acc Hacc; simpl.
  - split; [by intros ->|by intros [-> _]].
  - pose proof (N2Z.is_nonneg (Byte.to_N x)).
    rewrite IH by lia. rewrite Forall_cons, <- byte_zero. split.
    + intros [Hz Hl]. split_and!; [lia|lia|done].
    + intros (-> & Hx & Hl). split; [lia|done].
Qed.

(** X15. The four outcomes of getCount: a key that the store does not have
    counts 0 without error; an error of txn.Get or of ValueCopy is returned
    as it is; a value of fewer than eight bytes panics (in
    binary.BigEndian.Uint64); a value of eight bytes or more gives the
    big-endian number of its first eight bytes.  A returned count is below
    2^64 and not negative, and it is 0 only for a missing key or for a
    value whose first eight bytes are all zero. *)
Theorem getCount_outcomes key :
  (txn key = ErrKeyNotFound -> getCount key txn = Ok 0%Z)
  /\ (forall msg, txn key = GetError msg \/ txn key = Item (inl msg) ->
        getCount key txn = Err (StoreError msg))
  /\ (forall count, txn key = Item (inr count) ->
        if decide (length count < 8) then getCount key txn = Panic
        else exists n, getCount key txn = Ok n /\ Uint64 (take 8 count) = Some n)
  /\ (forall n, getCount key txn = Ok n ->
        (0 <= n < 2 ^ 64)%Z
        /\ (n = 0%Z <->
            txn key = ErrKeyNotFound
            \/ exists count, txn key = Item (inr count) /\ 8 <= length count
                 /\ take 8 count = replicate 8 x00%byte)).
Proof.
  unfold getCount. split_and!.
  - by intros ->.
  - by intros msg [-> | ->].
  - intros count ->. unfold Uint64. case_decide as Hlen.
    + done.
    + eexists. split; [done|].
      rewrite decide_False by (rewrite length_take; lia). by rewrite take_take.
  - intros n. destruct (txn key) as [|msg|[msg|count]] eqn:Hkey; try done.
    + intros [= <-]. split; [lia|]. split; [by left|done].
    + unfold Uint64. case_decide as Hlen; [done|]. intros [= <-].
      assert (length (take 8 count) = 8) as Hlen8 by (rewrite length_take; lia).
      split.
      * pose proof (bigEndian_range (take 8 count) 0 0 ltac:(simpl; lia)) as Hr.
        rewrite Hlen8 in Hr. simpl in Hr. lia.
      * rewrite bigEndian_zero by lia. split.
        -- intros [_ Hall]. right. exists count. split_and!; [done|lia|].
           rewrite <- Hlen8 at 2. apply list_eq. intros i.
           destruct (take 8 count !! i) as [x|] eqn:Hi.
           ++ rewrite (proj1 (Forall_lookup _ _) Hall i x Hi).
              symmetry. apply lookup_replicate_2. by eapply lookup_lt_Some.
           ++ symmetry. apply lookup_replicate_None. by apply lookup_ge_None in Hi.
        -- intros [?|(count' & [= <-] & _ & Hzero)]; [done|]. split; [done|].
           rewrite Hzero. by apply Forall_replicate.
Qed.

Lemma getCount_range key n : getCount key txn = Ok n -> (0 <= n < 2 ^ 64)%Z.
Proof.
  unfold getCount. destruct (txn key) as [|msg|[msg|count]]; try done.
  - intros [= <-]. lia.
  - unfold Uint64. case_decide as Hlen; [done|]. intros [= <-].
    pose proof (bigEndian_range (take 8 count) 0 0 ltac:(simpl; lia)) as Hr.
    rewrite length_take in Hr. replace (0 + 8 `min` length count) with 8 in Hr by lia.
    simpl in Hr. lia.
Qed.

(** ** The statistics of the full compilation *)

Lemma wrapInt_wrapInt a : wrapInt (wrapInt a) = wrapInt a.
Proof. pose proof (wrapInt_add_l a 0) as H. by rewrite !Z.add_0_r in H. Qed.

Lemma account_fold_canonical counts codex :
  wrap64 (Codex.Norm codex) = Codex.Norm codex ->
  wrapInt (Codex.Length codex) = Codex.Length codex ->
  wrap64 (Codex.Norm (foldl (fun cx n => account n cx) codex counts))
  = Codex.Norm (foldl (fun cx n => account n cx) codex counts)
  /\ wrapInt (Codex.Length (foldl (fun cx n => account n cx) codex counts))
     = Codex.Length (foldl (fun cx n => account n cx) codex counts).
Proof.
  revert codex. induction counts as [|n counts IH]; intros codex HN HL; simpl; [done|].
  apply IH; simpl; [apply wrap64_wrap64|apply wrapInt_wrapInt].
Qed.

Lemma sumZ_lower (counts : list Z) :
  Forall (fun n => 0 < n)%Z counts -> (Z.of_nat (length counts) <= sumZ counts)%Z.
Proof. induction 1 as [|n l Hn _ IH]; simpl; lia. Qed.

(** X16. After a full compilation that succeeded, the statistics of every
    codex are absolute: Count is the sum of the counts probed for its
    Single and Double references, Norm the sum of their squares (both in
    uint64 arithmetic) and Length their number, since classification
    leaves the three fields zero.  Every probed count is at least 1 and
    below 2^64, so without overflow Length is at most Count; the
    Constraint references are not counted. *)
Theorem compile_statistics s dataset c' h' (idx : gmap string (Assignment.t V)) id codex :
  compile perms assembleCountKey txn setValueRoot s dataset = Ok (c', h', idx) ->
  CodexMap.Index c' !! id = Some codex ->
  exists h0 constants c0 counts,
    getInitalCodexMap perms s dataset = Ok (h0, constants, c0)
    /\ Forall2 (probedCount assembleCountKey txn h0) (probeList s id codex) counts
    /\ Forall (fun n => 0 < n < 2 ^ 64)%Z counts
    /\ Codex.Count codex = wrap64 (sumZ counts)
    /\ Codex.Norm codex = wrap64 (sumZ ((fun n => n * n)%Z <$> counts))
    /\ Codex.Length codex = wrapInt (Z.of_nat (length (probeList s id codex)))
    /\ ((sumZ counts < 2 ^ 63)%Z ->
        Codex.Count codex = sumZ counts
        /\ Codex.Length codex = Z.of_nat (length (probeList s id codex))
        /\ (Codex.Length codex <= Codex.Count codex)%Z).
Proof.
  intros Hrun Hid.
  destruct (compile_phases _ _ _ _ _ Hrun)
    as (h0 & constants & c0 & c1 & h1 & Hinit & Hprobe & Hsort & _).
  pose proof (getInitalCodexMap_classifiedMore _ _ _ _ Hinit) as (_ & _ & _ & Hfresh).
  simpl in Hfresh.
  apply Stable_Ok in Hsort as [HI _]. rewrite HI in Hid.
  apply probePhase_Ok in Hprobe as (_ & _ & Hnone & Hsome).
  destruct (CodexMap.Index c0 !! id) as [codex0|] eqn:Hid0;
    [|by rewrite (Hnone id Hid0) in Hid].
  destruct (Hsome id codex0 Hid0) as (counts & Hcounts & Hnz & Heq).
  rewrite Heq in Hid. injection Hid as <-.
  destruct (Hfresh id codex0 Hid0) as (HN0 & HL0 & _).
  destruct (account_fold counts (Codex.setCount 0 codex0)) as (HC & HN & HL & _ & HS & HD).
  destruct (account_fold_canonical counts (Codex.setCount 0 codex0)) as [HN' HL'];
    [by simpl; rewrite HN0|by simpl; rewrite HL0|].
  pose proof (account_fold_Count counts (Codex.setCount 0 codex0) eq_refl) as HC'.
  simpl in HC, HN, HL. rewrite HN0 in HN. rewrite HL0 in HL.
  rewrite HC' in HC. rewrite HN' in HN. rewrite HL' in HL.
  rewrite Z.add_0_l in HC, HN, HL.
  assert (probeList s id (foldl (fun cx n => account n cx) (Codex.setCount 0 codex0) counts)
          = probeList s id codex0) as Hlist.
  { unfold probeList. by rewrite HS, HD. }
  assert (Forall (fun n => 0 < n < 2 ^ 64)%Z counts) as Hrange.
  { apply Forall_forall. intros n Hn.
    pose proof (proj1 (Forall_forall _ _) Hnz n Hn) as Hn0.
    apply list_elem_of_lookup_1 in Hn as [k Hk].
    destruct (Forall2_lookup_r _ _ _ _ _ Hcounts Hk) as (p & _ & r & cur & major & _ & Hget).
    apply getCount_range in Hget. simpl in Hn0. lia. }
  assert (length (probeList s id codex0) = length counts) as Hlen
    by by eapply Forall2_length.
  exists h0, constants, c0, counts. rewrite Hlist. split_and!; try done.
  - by rewrite Hlen.
  - intros Hsmall.
    assert (Z.of_nat (length counts) <= sumZ counts)%Z as Hlow.
    { apply sumZ_lower. eapply Forall_impl; [exact Hrange|]. simpl. lia. }
    assert (wrap64 (sumZ counts) = sumZ counts) as Hw.
    { unfold wrap64. apply Z.mod_small. lia. }
    assert (wrapInt (Z.of_nat (length counts)) = Z.of_nat (length counts)) as Hwi.
    { unfold wrapInt. rewrite Z.mod_small; lia. }
    rewrite HC, HL, Hlen, Hw, Hwi. done.
Qed.

(** ** A dataset without variables *)

Lemma range_empty `{Countable K} {A} (o : RangeOrder K) : range o (∅ : gmap K A) = [].
Proof.
  apply Permutation_nil_r. rewrite range_Permutation. by rewrite map_to_list_empty.
Qed.

Lemma sum_list_with_ones {A} (w : A -> nat) (l : list A) :
  (forall x, x ∈ l -> w x = 1) -> sum_list_with w l = length l.
Proof.
  induction l as [|x l IH]; intros Hall; simpl; [done|].
  rewrite (Hall x) by left. rewrite IH; [done|]. intros y Hy. apply Hall. by right.
Qed.

Lemma allBlank_no_variable q : variablesOf q = [] -> allBlank q = false.
Proof. by destruct q as [[] [] []]. Qed.

Lemma classify_ground graph h constants c index q h' constants' c' :
  variablesOf q = [] ->
  classify perms graph (h, constants, c) index q = Ok (h', constants', c') ->
  length (refs h') = S (length (refs h))
  /\ constants' = constants ++ [length (refs h)] /\ c' = c.
Proof.
  intros Hq Hrun.
  apply classify_shape in Hrun
    as [(r & _ & Hrefs & _ & _ & _ & -> & ->)
       |[(r & a & Hv & _)|[(r & a & Hv & _)|(rA & rB & a & b & _ & Hv & _)]]];
    try congruence.
  rewrite Hrefs, length_app. simpl. split_and!; [lia|done|done].
Qed.

(** X17. A dataset in which no statement has a variable compiles to the
    empty plan whatever the store holds: classification puts one Reference
    per statement into the constants list, in the order of creation, and
    builds no codex; getAssignmentTree then reads no key of the store and
    returns the empty order with the empty assignment map. *)
Theorem compile_ground s dataset :
  (forall q, inDataset q dataset -> variablesOf q = []) ->
  exists h,
    getInitalCodexMap perms s dataset
    = Ok (h, seq 0 (length (quadsOf dataset)), CodexMap.zero)
    /\ length (refs h) = length (quadsOf dataset)
    /\ compile perms assembleCountKey txn setValueRoot s dataset = Ok (CodexMap.zero, h, ∅).
Proof.
  intros Hground.
  pose proof (classifyGraphs_result perms (range (sGraphs s) (Graphs dataset))
                (emptyHeap, [], CodexMap.zero)) as Hres.
  case_decide as Hbad.
  { apply Exists_allBlank_range in Hbad as (q & Hq & Hb).
    apply Hground, allBlank_no_variable in Hq. congruence. }
  destruct Hres as [[[h constants] c] Hinit].
  change (getInitalCodexMap perms s dataset = Ok (h, constants, c)) in Hinit.
  pose proof (getInitalCodexMap_sizes _ _ _ _ _ _ Hinit) as [Hlen _].
  assert (sum_list_with referencesFor (quadsOf dataset) = length (quadsOf dataset)) as Hone.
  { assert (forall q, q ∈ quadsOf dataset -> referencesFor q = 1) as Hall.
    { intros q (quads & Hq & ((graph & quads') & -> & Hg%elem_of_map_to_list)%list_elem_of_fmap)%list_elem_of_join.
      unfold referencesFor. rewrite (Hground q); [done|]. by exists graph, quads'. }
    by apply sum_list_with_ones. }
  rewrite Hone in Hlen.
  assert (constants = seq 0 (length (refs h)) /\ c = CodexMap.zero) as [-> ->].
  { pose proof Hinit as Hinv. unfold getInitalCodexMap in Hinv.
    apply (foldM_inv (fun st => st.1.2 = seq 0 (length (refs st.1.1)) /\ st.2 = CodexMap.zero))
      in Hinv; [done| |done].
    intros st1 [graph quads] st2 Hg%elem_of_range Hst1 Hin.
    apply (foldMi_inv (fun _ st =>
             st.1.2 = seq 0 (length (refs st.1.1)) /\ st.2 = CodexMap.zero)) in Hin;
      [done| |done].
    intros [[h3 k3] c3] k q [[h4 k4] c4] Hk [Hk3 Hc3] Hq. simpl in *.
    apply classify_ground in Hq as (Hl & -> & ->).
    - split; [|done]. rewrite Hl, seq_S, Hk3. done.
    - apply Hground. exists graph, quads. split; [done|]. by eapply list_elem_of_lookup_2. }
  exists h. rewrite <- Hlen. split_and!; [done|done|].
  unfold compile. rewrite Hinit. simpl.
  unfold getAssignmentTree, probePhase. simpl. rewrite range_empty. simpl.
  reflexivity.
Qed.

End PipelineFacts.

(** * The sort interface *)

(** X18. Swap(a, b) with both positions below Len exchanges the ids at the
    two positions and touches nothing else: Index and Len are unchanged,
    the Slice is a permutation of what it was, a well-formed map stays
    well formed, and a second Swap(a, b) restores the map.  With a
    position at or beyond Len it panics. *)
Theorem Swap_exchanges c a b :
  (a < Len c -> b < Len c ->
   exists c', Swap c a b = Ok c'
     /\ CodexMap.Index c' = CodexMap.Index c /\ Len c' = Len c
     /\ CodexMap.Slice c' !! a = CodexMap.Slice c !! b
     /\ CodexMap.Slice c' !! b = CodexMap.Slice c !! a
     /\ (forall k, k ≠ a -> k ≠ b -> CodexMap.Slice c' !! k = CodexMap.Slice c !! k)
     /\ CodexMap.Slice c' ≡ₚ CodexMap.Slice c
     /\ (wellFormed c -> wellFormed c')
     /\ Swap c' a b = Ok c)
  /\ (Len c <= a \/ Len c <= b -> Swap c a b = Panic).
Proof.
  unfold Len, Swap. split.
  - intros Ha Hb.
    destruct (CodexMap.Slice c !! a) as [x|] eqn:Hx; [|by apply lookup_ge_None in Hx; lia].
    destruct (CodexMap.Slice c !! b) as [y|] eqn:Hy; [|by apply lookup_ge_None in Hy; lia].
    eexists. split; [done|]. simpl.
    assert (<[b:=x]> (<[a:=y]> (CodexMap.Slice c)) !! b = Some x) as Hb'.
    { apply list_lookup_insert_eq. by rewrite length_insert. }
    assert (<[b:=x]> (<[a:=y]> (CodexMap.Slice c)) !! a = Some y) as Ha'.
    { destruct (decide (a = b)) as [->|Hne]; [congruence|].
      rewrite list_lookup_insert_ne by done. by apply list_lookup_insert_eq. }
    assert (forall k, k ≠ a -> k ≠ b ->
              <[b:=x]> (<[a:=y]> (CodexMap.Slice c)) !! k = CodexMap.Slice c !! k) as Hk.
    { intros k ? ?. by rewrite !list_lookup_insert_ne by done. }
    assert (<[b:=x]> (<[a:=y]> (CodexMap.Slice c)) ≡ₚ CodexMap.Slice c) as Hperm.
    { destruct (decide (a = b)) as [->|Hne].
      - assert (x = y) as -> by congruence.
        rewrite list_insert_insert_eq. by rewrite list_insert_id.
      - symmetry. apply (Permutation_inj _ _).
        split; [by rewrite !length_insert|].
        exists (fun k => if decide (k = a) then b else if decide (k = b) then a else k).
        split.
        + intros k1 k2. repeat case_decide; congruence.
        + intros k. repeat case_decide; subst; rewrite ?Hb', ?Ha', ?Hk by done; done. }
    split_and!; try done.
    + by rewrite !length_insert.
    + intros (Hnd & Hslice & Hself). split_and!; simpl; [by rewrite Hperm| |done].
      intros id. by rewrite Hperm.
    + rewrite Ha', Hb'. f_equal. destruct c as [index slice]. simpl in *. f_equal.
      apply list_eq. intros k.
      destruct (decide (k = b)) as [->|Hkb].
      * rewrite list_lookup_insert_eq by by rewrite !length_insert. done.
      * rewrite list_lookup_insert_ne by done.
        destruct (decide (k = a)) as [->|Hka].
        -- rewrite list_lookup_insert_eq by by rewrite !length_insert. done.
        -- rewrite list_lookup_insert_ne by done. by apply Hk.
  - intros [Hge|Hge].
    + by rewrite (proj2 (lookup_ge_None _ _) Hge).
    + rewrite (proj2 (lookup_ge_None (CodexMap.Slice c) b) Hge).
      by destruct (CodexMap.Slice c !! a).
Qed.

(** X19. Less(a, b) neither panics nor goes wrong on a map in which every
    variable of the Slice has a codex, for positions below Len: it answers
    whether the variable at a has the greater Count, which is the order on
    ids that the model of sort.Stable takes.  As sort.Stable requires, it
    is a strict weak order: irreflexive, transitive, and being unordered
    is transitive too.  With a position beyond Len, or an id without
    codex, it panics. *)
Theorem LessAt_strict_weak_order c :
  (sliceInIndex c ->
   forall a b x y, CodexMap.Slice c !! a = Some x -> CodexMap.Slice c !! b = Some y ->
     LessAt c a b = Ok (Less c x y))
  /\ (forall a b, Len c <= a \/ Len c <= b -> LessAt c a b = Panic)
  /\ (forall a b x, CodexMap.Slice c !! a = Some x -> CodexMap.Index c !! x = None ->
        LessAt c a b = Panic /\ LessAt c b a = Panic)
  /\ (forall a, LessAt c a a ≠ Ok true)
  /\ (forall a b d, LessAt c a b = Ok true -> LessAt c b d = Ok true -> LessAt c a d = Ok true)
  /\ (forall a b d, LessAt c a b = Ok false -> LessAt c b a = Ok false ->
        LessAt c b d = Ok false -> LessAt c d b = Ok false ->
        LessAt c a d = Ok false /\ LessAt c d a = Ok false).
Proof.
  unfold LessAt, Len. split_and!.
  - intros Hslice a b x y Hx Hy. rewrite Hx, Hy.
    destruct (Hslice x) as [A HA]; [by eapply list_elem_of_lookup_2|].
    destruct (Hslice y) as [B HB]; [by eapply list_elem_of_lookup_2|].
    rewrite HA, HB. unfold Less, countOf. by rewrite HA, HB.
  - intros a b [Hge|Hge].
    + by rewrite (proj2 (lookup_ge_None _ _) Hge).
    + rewrite (proj2 (lookup_ge_None (CodexMap.Slice c) b) Hge).
      by destruct (CodexMap.Slice c !! a).
  - intros a b x Hx Hnone. rewrite Hx, Hnone. split.
    + by destruct (CodexMap.Slice c !! b).
    + destruct (CodexMap.Slice c !! b) as [y|]; [|done].
      by destruct (CodexMap.Index c !! y).
  - intros a. destruct (CodexMap.Slice c !! a) as [x|]; [|done].
    destruct (CodexMap.Index c !! x) as [A|]; [|done].
    intros [= H%bool_decide_eq_true]. lia.
  - intros a b d.
    destruct (CodexMap.Slice c !! a) as [x|]; [|done].
    destruct (CodexMap.Slice c !! b) as [y|]; [|done].
    destruct (CodexMap.Slice c !! d) as [z|]; [|by destruct (CodexMap.Index c !! y)].
    destruct (CodexMap.Index c !! x) as [A|]; [|done].
    destruct (CodexMap.Index c !! y) as [B|]; [|done].
    destruct (CodexMap.Index c !! z) as [D|]; [|done].
    intros [= H1%bool_decide_eq_true] [= H2%bool_decide_eq_true].
    f_equal. apply bool_decide_eq_true. lia.
  - intros a b d.
    destruct (CodexMap.Slice c !! a) as [x|]; [|done].
    destruct (CodexMap.Slice c !! b) as [y|]; [|done].
    destruct (CodexMap.Slice c !! d) as [z|]; [|by destruct (CodexMap.Index c !! y)].
    destruct (CodexMap.Index c !! x) as [A|]; [|done].
    destruct (CodexMap.Index c !! y) as [B|]; [|done].
    destruct (CodexMap.Index c !! z) as [D|]; [|done].
    intros [= H1%bool_decide_eq_false] [= H2%bool_decide_eq_false]
           [= H3%bool_decide_eq_false] [= H4%bool_decide_eq_false].
    split; f_equal; apply bool_decide_eq_false; lia.
Qed.

(** * Closing *)

Lemma NoDup_mjoin_fmap {A B} (f : A -> list B) (l : list A) :
  NoDup l ->
  (forall x, x ∈ l -> NoDup (f x)) ->
  (forall x1 x2 y, x1 ∈ l -> x2 ∈ l -> y ∈ f x1 -> y ∈ f x2 -> x1 = x2) ->
  NoDup (mjoin (f <$> l)).
Proof.
  induction 1 as [|x l Hx Hnd IH]; intros Heach Hone; simpl; [constructor|].
  apply NoDup_app. split_and!.
  - apply Heach. by left.
  - intros y Hy (ys & Hys & (x' & -> & Hx')%list_elem_of_fmap)%list_elem_of_join.
    assert (x = x') as <-; [|done].
    apply (Hone x x' y); [by left|by right|done|done].
  - apply IH.
    + intros x' Hx'. apply Heach. by right.
    + intros x1 x2 y H1 H2. apply Hone; by right.
Qed.

Lemma mjoin_fmap_Permutation {A B} (f g : A -> list B) (l : list A) :
  (forall x, x ∈ l -> f x ≡ₚ g x) -> mjoin (f <$> l) ≡ₚ mjoin (g <$> l).
Proof.
  induction l as [|x l IH]; intros Hfg; simpl; [done|].
  rewrite (Hfg x) by left. rewrite IH; [done|]. intros y Hy. apply Hfg. by right.
Qed.

Lemma foldl_mjoin {A B} (f : A -> B -> A) (ls : list (list B)) (a : A) :
  foldl f a (mjoin ls) = foldl (fun a l => foldl f a l) a ls.
Proof.
  revert a. induction ls as [|l ls IH]; intros a; simpl; [done|].
  by rewrite foldl_app, IH.
Qed.

Lemma elem_of_closeList o codex p :
  p ∈ closeList o codex
  <-> p ∈ Codex.Single codex \/ exists dep rs, Codex.Double codex !! dep = Some rs /\ p ∈ rs.
Proof.
  unfold closeList. rewrite elem_of_app, list_elem_of_join. split.
  - intros [?|(rs & Hp & ([dep rs'] & -> & Hin%elem_of_range)%list_elem_of_fmap)]; [by left|].
    right. by exists dep, rs'.
  - intros [?|(dep & rs & Hrs & Hp)]; [by left|right].
    exists rs. split; [done|]. apply list_elem_of_fmap. exists (dep, rs).
    split; [done|]. by apply elem_of_range.
Qed.

Lemma closeList_Permutation o s id codex : closeList o codex ≡ₚ probeList s id codex.
Proof. unfold closeList, probeList. by rewrite !range_Permutation. Qed.

Lemma elem_of_closeWork o c p :
  p ∈ closeWork o c
  <-> exists id codex, id ∈ CodexMap.Slice c /\ CodexMap.Index c !! id = Some codex
        /\ p ∈ closeList (o id) codex.
Proof.
  unfold closeWork. rewrite list_elem_of_join. split.
  - intros (l & Hp & (id & -> & Hid)%list_elem_of_fmap).
    destruct (CodexMap.Index c !! id) as [codex|] eqn:Hc; simpl in Hp.
    + by exists id, codex.
    + by apply elem_of_nil in Hp.
  - intros (id & codex & Hid & Hc & Hp). exists (closeList (o id) codex). split; [done|].
    apply list_elem_of_fmap. exists id. by rewrite Hc.
Qed.

(** The codex of every variable of the Slice, in the order of the Slice. *)
Lemma closeWork_Permutation o s c :
  wellFormed c -> closeWork o c ≡ₚ probeWork s c.
Proof.
  intros (Hnd & Hslice & _). unfold closeWork, probeWork.
  set (entries := omap (fun id => pair id <$> CodexMap.Index c !! id) (CodexMap.Slice c)).
  assert (entries ≡ₚ range (sIndex s) (CodexMap.Index c)) as Hentries.
  { apply NoDup_Permutation.
    - apply (NoDup_fmap_1 fst). unfold entries.
      assert (forall l : list string, (forall id, id ∈ l -> is_Some (CodexMap.Index c !! id)) ->
                (omap (fun id => pair id <$> CodexMap.Index c !! id) l).*1 = l) as Hfst.
      { induction l as [|id l IH]; intros Hl; simpl; [done|].
        destruct (Hl id) as [codex Hc]; [by left|]. rewrite Hc. simpl. f_equal.
        apply IH. intros id' Hid'. apply Hl. by right. }
      rewrite Hfst; [done|]. intros id. apply Hslice.
    - apply (NoDup_fmap_1 fst). apply NoDup_fst_range.
    - intros [id codex]. rewrite elem_of_range. unfold entries. rewrite list_elem_of_omap.
      split.
      + intros (id' & Hid' & Heq). destruct (CodexMap.Index c !! id') eqn:Hc; [|done].
        simpl in Heq. by injection Heq as <- <-.
      + intros Hc. exists id. rewrite Hc. split; [|done]. apply Hslice. by eexists. }
  rewrite <- Hentries.
  assert (forall l : list string, (forall id, id ∈ l -> is_Some (CodexMap.Index c !! id)) ->
            mjoin ((fun id => from_option (closeList (o id)) [] (CodexMap.Index c !! id)) <$> l)
            ≡ₚ mjoin ((fun e : string * Codex.t => probeList s e.1 e.2)
                        <$> omap (fun id => pair id <$> CodexMap.Index c !! id) l)) as Hlist.
  { induction l as [|id l IH]; intros Hl; simpl; [done|].
    destruct (Hl id) as [codex Hc]; [by left|]. rewrite Hc. simpl.
    rewrite (closeList_Permutation (o id) s id codex). apply Permutation_app; [done|].
    apply IH. intros id' Hid'. apply Hl. by right. }
  apply Hlist. intros id. apply Hslice.
Qed.

Section CloseFacts.
Variable closeReference : Heap -> ptr -> Heap.

Lemma Codex_close_list o codex h :
  Codex_close closeReference o codex h = foldl closeReference h (closeList o codex).
Proof.
  unfold Codex_close, closeList. rewrite foldl_app, foldl_mjoin. simpl.
  generalize (foldl closeReference h (Codex.Single codex)).
  induction (range o (Codex.Double codex)) as [|[dep rs] l IH]; intros h1; simpl; [done|].
  apply IH.
Qed.

Lemma closeLoop_work o c l h :
  (forall id, id ∈ l -> is_Some (CodexMap.Index c !! id)) ->
  foldM (fun h id =>
           match CodexMap.Index c !! id with
           | None => Panic
           | Some codex => Ok (Codex_close closeReference (o id) codex h)
           end) l h
  = Ok (foldl closeReference h
          (mjoin ((fun id => from_option (closeList (o id)) [] (CodexMap.Index c !! id)) <$> l))).
Proof.
  revert h. induction l as [|id l IH]; intros h Hl; simpl; [done|].
  destruct (Hl id) as [codex Hc]; [by left|]. rewrite Hc. simpl.
  rewrite IH by (intros id' Hid'; apply Hl; by right).
  by rewrite foldl_app, Codex_close_list.
Qed.

Lemma closeLoop_panic o c l h :
  (exists id, id ∈ l /\ CodexMap.Index c !! id = None) ->
  foldM (fun h id =>
           match CodexMap.Index c !! id with
           | None => Panic
           | Some codex => Ok (Codex_close closeReference (o id) codex h)
           end) l h
  = Panic.
Proof.
  revert h. induction l as [|x l IH]; intros h (id & Hid & Hnone).
  - by apply elem_of_nil in Hid.
  - simpl. destruct (CodexMap.Index c !! x) as [codex|] eqn:Hx; [|done]. simpl.
    apply IH. exists id. split; [|done].
    apply elem_of_cons in Hid as [->|Hid]; [congruence|done].
Qed.

(** X20. On a well-formed codex map, CodexMap.close does not panic and
    calls ref.close() on the references of the Single lists and Double
    groups of every codex, in the order of the Slice: they are, up to
    order, the references that the probe phase of getAssignmentTree
    visits, whatever the iteration order of the maps; a reference that is
    only in the constants or in a Constraint list is not closed.  When a
    variable of the Slice has no codex, close panics. *)
Theorem CodexMap_close_closes o c :
  (wellFormed c ->
   (forall h, CodexMap_close closeReference o c h
              = Ok (foldl closeReference h (closeWork o c)))
   /\ (forall s, closeWork o c ≡ₚ probeWork s c)
   /\ (forall p, p ∈ closeWork o c <->
         exists id codex, CodexMap.Index c !! id = Some codex
           /\ (p ∈ Codex.Single codex
               \/ exists dep rs, Codex.Double codex !! dep = Some rs /\ p ∈ rs)))
  /\ ((exists id, id ∈ CodexMap.Slice c /\ CodexMap.Index c !! id = None) ->
      forall h, CodexMap_close closeReference o c h = Panic).
Proof.
  split.
  - intros Hwf. pose proof Hwf as (Hnd & Hslice & _). split_and!.
    + intros h. apply closeLoop_work. intros id. apply Hslice.
    + intros s. by apply closeWork_Permutation.
    + intros p. rewrite elem_of_closeWork. split.
      * intros (id & codex & _ & Hc & Hp%elem_of_closeList). by exists id, codex.
      * intros (id & codex & Hc & Hp). exists id, codex. split_and!; [|done|].
        -- apply Hslice. by eexists.
        -- by apply elem_of_closeList.
  - intros Hbad h. by apply closeLoop_panic.
Qed.

End CloseFacts.

Lemma closeList_NoDup o c n constants id codex :
  owned n (pointersAt constants c) -> CodexMap.Index c !! id = Some codex ->
  NoDup (closeList o codex).
Proof.
  intros (Hnd & _ & Hone) Hc.
  assert (singlesOf c id = Codex.Single codex) as HS by (unfold singlesOf; by rewrite Hc).
  assert (forall dep rs, Codex.Double codex !! dep = Some rs -> doubleGroup c id dep = rs) as HD.
  { intros dep rs Hrs. unfold doubleGroup. rewrite Hc. simpl. by rewrite Hrs. }
  unfold closeList. apply NoDup_app. split_and!.
  - rewrite <- HS. apply (Hnd (InSingle id)).
  - intros p Hp (rs & Hrs & ([dep rs'] & -> & Hin%elem_of_range)%list_elem_of_fmap)%list_elem_of_join.
    simpl in Hrs. apply HD in Hin. subst rs'.
    assert (InSingle id = InDouble id dep) as Heq; [|done].
    apply (Hone _ _ p); simpl; by rewrite ?HS.
  - apply NoDup_mjoin_fmap.
    + apply (NoDup_fmap_1 fst), NoDup_fst_range.
    + intros [dep rs] Hin%elem_of_range. simpl. rewrite <- (HD dep rs Hin).
      apply (Hnd (InDouble id dep)).
    + intros [dep1 rs1] [dep2 rs2] p H1%elem_of_range H2%elem_of_range Hp1 Hp2. simpl in *.
      assert (InDouble id dep1 = InDouble id dep2) as [= ->].
      { apply (Hone _ _ p); simpl; [by rewrite (HD _ _ H1)|by rewrite (HD _ _ H2)]. }
      congruence.
Qed.

Lemma closeWork_NoDup o c n constants :
  wellFormed c -> owned n (pointersAt constants c) -> NoDup (closeWork o c).
Proof.
  intros (Hnd & _ & _) Hown. unfold closeWork. apply NoDup_mjoin_fmap; [done| |].
  - intros id _. destruct (CodexMap.Index c !! id) as [codex|] eqn:Hc; simpl.
    + by eapply closeList_NoDup.
    + constructor.
  - intros id1 id2 p _ _ H1 H2.
    destruct (CodexMap.Index c !! id1) as [codex1|] eqn:Hc1; simpl in H1;
      [|by apply elem_of_nil in H1].
    destruct (CodexMap.Index c !! id2) as [codex2|] eqn:Hc2; simpl in H2;
      [|by apply elem_of_nil in H2].
    destruct Hown as (_ & _ & Hone).
    assert (exists place1, p ∈ pointersAt constants c place1
              /\ (place1 = InSingle id1 \/ exists dep, place1 = InDouble id1 dep))
      as (place1 & Hp1 & Hk1).
    { apply elem_of_closeList in H1 as [H1|(dep & rs & Hrs & H1)].
      - exists (InSingle id1). simpl. unfold singlesOf. rewrite Hc1. split; [done|by left].
      - exists (InDouble id1 dep). simpl. unfold doubleGroup. rewrite Hc1. simpl. rewrite Hrs.
        split; [done|]. right. by exists dep. }
    assert (exists place2, p ∈ pointersAt constants c place2
              /\ (place2 = InSingle id2 \/ exists dep, place2 = InDouble id2 dep))
      as (place2 & Hp2 & Hk2).
    { apply elem_of_closeList in H2 as [H2|(dep & rs & Hrs & H2)].
      - exists (InSingle id2). simpl. unfold singlesOf. rewrite Hc2. split; [done|by left].
      - exists (InDouble id2 dep). simpl. unfold doubleGroup. rewrite Hc2. simpl. rewrite Hrs.
        split; [done|]. right. by exists dep. }
    pose proof (Hone _ _ _ Hp1 Hp2) as Heq.
    destruct Hk1 as [->|[dep1 ->]], Hk2 as [->|[dep2 ->]]; congruence.
Qed.

Section PipelineClose.
Context {V : Type}.
Variable perms : Permutations.
Variable assembleCountKey : Reference.t -> bool -> list byte * bool.
Variable txn : Txn.
Variable setValueRoot : Heap -> Assignment.t V -> option V.
Variable closeReference : Heap -> ptr -> Heap.

(** X21. After a full compilation that succeeded, CodexMap.close on the
    returned map does not panic and closes every reference at most once;
    the references it closes are those that are neither in the constants
    nor in a Constraint list, each of them holds a Cursor that the probe
    phase allocated, and there are as many of them as Cursors were
    allocated after classification. *)
Theorem compile_close o s dataset c' h' (idx : gmap string (Assignment.t V)) :
  compile perms assembleCountKey txn setValueRoot s dataset = Ok (c', h', idx) ->
  CodexMap_close closeReference o c' h' = Ok (foldl closeReference h' (closeWork o c'))
  /\ NoDup (closeWork o c')
  /\ exists h0 constants c0,
       getInitalCodexMap perms s dataset = Ok (h0, constants, c0)
       /\ (forall p, p ∈ closeWork o c' <->
             p < length (refs h0) /\ (p ∉ constants) /\ forall a, p ∉ constraintsOf c0 a)
       /\ (forall p, p ∈ closeWork o c' ->
             exists r cur, refs h' !! p = Some r /\ Reference.Cursor r = Some cur
               /\ length (cursors h0) <= cur < length (cursors h'))
       /\ length (cursors h') = length (cursors h0) + length (closeWork o c').
Proof.
  intros Hrun.
  destruct (compile_Double _ _ _ _ _ _ _ _ _ Hrun)
    as (h0 & constants & c0 & Hinit & Hperm & Hdom & Hsame).
  destruct (compile_phases _ _ _ _ _ _ _ _ _ Hrun)
    as (h0' & constants' & c0' & c1 & h1 & Hinit' & Hprobe & _ & Hres).
  rewrite Hinit in Hinit'. injection Hinit' as <- <- <-.
  pose proof (getInitalCodexMap_classified _ _ _ _ Hinit) as [Hwf0 _].
  pose proof (getInitalCodexMap_classifiedMore _ _ _ _ Hinit) as (Hown0 & Hcov0 & _).
  simpl in Hwf0, Hown0, Hcov0.
  assert (forall id, from_option (closeList (o id)) [] (CodexMap.Index c' !! id)
                     = from_option (closeList (o id)) [] (CodexMap.Index c0 !! id)) as Hlists.
  { intros id. destruct (CodexMap.Index c' !! id) as [codex'|] eqn:Hc'.
    - destruct (Hsame id codex' Hc') as (codex & -> & _ & HS & HD). simpl.
      unfold closeList. by rewrite HS, HD.
    - destruct (CodexMap.Index c0 !! id) as [codex|] eqn:Hc0; [|done].
      assert (is_Some (CodexMap.Index c' !! id)) as [? ?] by (apply Hdom; by eexists).
      congruence. }
  assert (closeWork o c' ≡ₚ closeWork o c0) as Hwork.
  { unfold closeWork. rewrite Hperm. apply reflexive_eq. f_equal.
    apply list_fmap_ext. intros _ id _. apply Hlists. }
  assert (wellFormed c') as Hwf'.
  { destruct Hwf0 as (Hnd & Hslice & Hself). split_and!.
    - by rewrite Hperm.
    - intros id. by rewrite Hperm, Hslice, Hdom.
    - intros id codex' Hc'. destruct (Hsame id codex' Hc') as (codex & Hc & _ & _ & ->).
      by eapply Hself. }
  assert (forall p, p ∈ closeWork o c0 <->
            exists place, p ∈ pointersAt constants c0 place
              /\ ((exists id, place = InSingle id) \/ exists a b, place = InDouble a b))
    as Hplaces.
  { intros p. rewrite elem_of_closeWork. split.
    - intros (id & codex & _ & Hc & [Hp|(dep & rs & Hrs & Hp)]%elem_of_closeList).
      + exists (InSingle id). simpl. unfold singlesOf. rewrite Hc. split; [done|]. left. by eexists.
      + exists (InDouble id dep). simpl. unfold doubleGroup. rewrite Hc. simpl. rewrite Hrs.
        split; [done|]. right. by eexists _, _.
    - intros (place & Hp & [[id ->]|(a & b & ->)]); simpl in Hp.
      + unfold singlesOf in Hp. destruct (CodexMap.Index c0 !! id) as [codex|] eqn:Hc;
          [|by apply elem_of_nil in Hp].
        exists id, codex. split_and!; [|done|].
        * apply Hwf0. by eexists.
        * apply elem_of_closeList. by left.
      + unfold doubleGroup in Hp. destruct (CodexMap.Index c0 !! a) as [codex|] eqn:Hc;
          [|by apply elem_of_nil in Hp].
        simpl in Hp. destruct (Codex.Double codex !! b) as [rs|] eqn:Hrs;
          [|by apply elem_of_nil in Hp].
        exists a, codex. split_and!; [|done|].
        * apply Hwf0. by eexists.
        * apply elem_of_closeList. right. by exists b, rs. }
  pose proof Hprobe as Hprobe'.
  apply probePhase_Ok in Hprobe' as (_ & (counts & Hheap) & _).
  destruct Hheap as (Hcounts & _ & _ & Hcur & _ & Hnew).
  apply resolvePhase_heap in Hres as [Hrefs Hcursors].
  assert (length (cursors h') = length (cursors h1)) as Hlen.
  { by rewrite <- (length_fmap Cursor.Count), Hcursors, length_fmap. }
  split_and!.
  - unfold CodexMap_close. apply closeLoop_work. intros id. apply Hwf'.
  - rewrite Hwork. by eapply closeWork_NoDup.
  - exists h0, constants, c0. split_and!; [done| | |].
    + intros p. rewrite Hwork, Hplaces. destruct Hown0 as (_ & Hlt & Hone). split.
      * intros (place & Hp & Hkind). split_and!.
        -- by eapply Hlt.
        -- intros Hk. pose proof (Hone _ InConstants p Hp Hk) as ->.
           destruct Hkind as [[? ?]|(? & ? & ?)]; done.
        -- intros a Hk. pose proof (Hone _ (InConstraint a) p Hp Hk) as ->.
           destruct Hkind as [[? ?]|(? & ? & ?)]; done.
      * intros (Hp & Hk & Hcs). destruct (Hcov0 p Hp) as [place Hplace].
        exists place. split; [done|].
        destruct place as [|id|id|a b]; simpl in Hplace.
        -- done.
        -- left. by eexists.
        -- by apply Hcs in Hplace.
        -- right. by eexists _, _.
    + intros p Hp. rewrite Hwork in Hp.
      rewrite (closeWork_Permutation o s c0 Hwf0) in Hp.
      destruct (Hnew p Hp) as (r & cur & Hr & Hc & Hrange).
      exists r, cur. rewrite Hrefs, Hlen. done.
    + rewrite Hlen, Hcur, length_app, length_fmap. f_equal.
      rewrite Hwork, (closeWork_Permutation o s c0 Hwf0).
      by apply Forall2_length in Hcounts.
Qed.

End PipelineClose.

(** * The further properties on concrete runs *)

Lemma getAssignmentTree_Dependencies_bounds_witness :
  exists h0 constants c0 c' h' idx,
    getInitalCodexMap somePermutations sched0 joel = Ok (h0, constants, c0)
    /\ getAssignmentTree (V := unit) plainKey storeOfOnes (fun _ _ => Some tt) sched0 c0 h0
       = Ok (c', h', idx)
    /\ forall i id a, CodexMap.Slice c' !! i = Some id -> idx !! id = Some a ->
         StronglySorted lt (Assignment.Dependencies a).
Proof.
  destruct (compileOnes sched0 joel) as [[[c' h'] idx]| |] eqn:E; [|by vm_compute in E..].
  destruct (compile_Ok _ _ _ _ _ _ _ _ _ E) as (h0 & constants & c0 & Hinit & [Hwf _] & Hrun).
  exists h0, constants, c0, c', h', idx. split; [exact Hinit|]. split; [exact Hrun|].
  intros i id a Hi Ha.
  exact (proj1 (proj2 (getAssignmentTree_Dependencies_bounds plainKey storeOfOnes
                         (fun _ _ => Some tt) sched0 c0 h0 c' h' idx i id a
                         (proj1 Hwf) (proj2 (proj2 Hwf)) Hrun Hi Ha))).
Defined.

Lemma compile_assignments_witness :
  exists c' h' idx,
    compileOnes sched0 joel = Ok (c', h', idx)
    /\ forall id, is_Some (idx !! id) <-> id ∈ CodexMap.Slice c'.
Proof.
  destruct (compileOnes sched0 joel) as [[[c' h'] idx]| |] eqn:E; [|by vm_compute in E..].
  exists c', h', idx. split; [reflexivity|].
  exact (proj1 (compile_assignments somePermutations plainKey storeOfOnes (fun _ _ => Some tt)
                  sched0 joel c' h' idx E)).
Defined.

Lemma getAssignmentTree_errors_witness :
  exists e,
    getAssignmentTree (V := unit) plainKey emptyStore (fun _ _ => Some tt) sched0
      tinyMap tinyHeap = Err e
    /\ ((exists key msg, e = StoreError msg
           /\ (emptyStore key = GetError msg \/ emptyStore key = Item (inl msg)))
        \/ (exists id codex p, CodexMap.Index tinyMap !! id = Some codex
              /\ p ∈ Codex.Single codex /\ e = SingleCountZero p
              /\ probedCount plainKey emptyStore tinyHeap p 0)
        \/ (exists id codex dep rs p, CodexMap.Index tinyMap !! id = Some codex
              /\ Codex.Double codex !! dep = Some rs /\ p ∈ rs
              /\ e = DoubleCountZero p /\ probedCount plainKey emptyStore tinyHeap p 0)
        \/ (exists id, id ∈ CodexMap.Slice tinyMap /\ e = EmptyIntersect id)).
Proof.
  destruct (getAssignmentTree (V := unit) plainKey emptyStore (fun _ _ => Some tt) sched0
              tinyMap tinyHeap) as [out|e|] eqn:E; [by vm_compute in E| |by vm_compute in E].
  exists e. split; [reflexivity|].
  exact (getAssignmentTree_errors plainKey emptyStore (fun _ _ => Some tt) sched0
           tinyMap tinyHeap e E).
Defined.

Lemma getAssignmentTree_never_panics_witness :
  storeWellFormed storeOfOnes
  /\ getAssignmentTree (V := unit) plainKey storeOfOnes (fun _ _ => Some tt) sched0
       tinyMap tinyHeap ≠ Panic.
Proof.
  assert (storeWellFormed storeOfOnes) as Hstore.
  { intros key count Hkey. injection Hkey as <-. simpl. lia. }
  split; [exact Hstore|].
  apply (getAssignmentTree_never_panics plainKey storeOfOnes (fun _ _ => Some tt) sched0
           tinyMap tinyHeap Hstore).
  - intros id codex p Hid Hp. unfold tinyMap in Hid. simpl in Hid.
    apply lookup_singleton_Some in Hid as [_ <-]. simpl in Hp.
    destruct Hp as [Hp|(dep & rs & Hrs & _)].
    + apply list_elem_of_singleton in Hp as ->. eexists. reflexivity.
    + rewrite lookup_empty in Hrs. discriminate Hrs.
  - intros id Hid. apply list_elem_of_singleton in Hid as ->. eexists. reflexivity.
Defined.

Lemma compile_never_panics_witness :
  storeWellFormed storeOfOnes /\ compileOnes sched0 joel ≠ Panic.
Proof.
  assert (storeWellFormed storeOfOnes) as Hstore.
  { intros key count Hkey. injection Hkey as <-. simpl. lia. }
  split; [exact Hstore|].
  exact (compile_never_panics somePermutations plainKey storeOfOnes (fun _ _ => Some tt)
           sched0 joel Hstore).
Defined.

Lemma compile_statistics_witness :
  exists c' h' idx,
    compileOnes sched0 joel = Ok (c', h', idx)
    /\ forall id codex, CodexMap.Index c' !! id = Some codex ->
         Codex.Length codex = wrapInt (Z.of_nat (length (probeList sched0 id codex))).
Proof.
  destruct (compileOnes sched0 joel) as [[[c' h'] idx]| |] eqn:E; [|by vm_compute in E..].
  exists c', h', idx. split; [reflexivity|].
  intros id codex Hid.
  destruct (compile_statistics somePermutations plainKey storeOfOnes (fun _ _ => Some tt)
              sched0 joel c' h' idx id codex E Hid)
    as (h0 & constants & c0 & counts & _ & _ & _ & _ & _ & HL & _).
  exact HL.
Defined.

Lemma compile_ground_witness :
  (forall q, inDataset q groundFacts -> variablesOf q = [])
  /\ exists h, compileOnes sched0 groundFacts = Ok (CodexMap.zero, h, ∅).
Proof.
  assert (forall q, inDataset q groundFacts -> variablesOf q = []) as Hground.
  { intros q (graph & quads & Hg & Hq). unfold groundFacts in Hg. simpl in Hg.
    apply lookup_singleton_Some in Hg as [_ <-].
    apply elem_of_cons in Hq as [->|Hq]; [reflexivity|].
    apply list_elem_of_singleton in Hq as ->. reflexivity. }
  split; [exact Hground|].
  destruct (compile_ground somePermutations plainKey storeOfOnes (fun _ _ => Some tt)
              sched0 groundFacts Hground) as (h & _ & _ & Hrun).
  exists h. exact Hrun.
Defined.

Lemma compile_close_witness :
  exists c' h' idx,
    compileOnes sched0 joel = Ok (c', h', idx)
    /\ NoDup (closeWork (fun _ => inOrder) c').
Proof.
  destruct (compileOnes sched0 joel) as [[[c' h'] idx]| |] eqn:E; [|by vm_compute in E..].
  exists c', h', idx. split; [reflexivity|].
  exact (proj1 (proj2 (compile_close somePermutations plainKey storeOfOnes
                         (fun _ _ => Some tt) (fun h _ => h) (fun _ => inOrder)
                         sched0 joel c' h' idx E))).
Defined.

(** * The Cursors of a plan *)

Section ProbedCursors.
Variable assembleCountKey : Reference.t -> bool -> list byte * bool.
Variable txn : Txn.

Lemma probeRef_numbered zero h major codex p h' major' codex' :
  probeRef assembleCountKey txn zero (h, major, codex) p = Ok (h', major', codex') ->
  numbered [p] h h'.
Proof.
  unfold probeRef. destruct (refs h !! p) as [r|] eqn:Hp; [|done].
  destruct (assembleCountKey r major) as [key major1] eqn:Hkey. simpl.
  intros (n & Hn & Hrest)%bind_Ok. case_decide as Hz; [done|].
  injection Hrest as <- <- <-.
  intros k q Hk. apply list_lookup_singleton_Some in Hk as [-> <-].
  rewrite Nat.add_0_r. unfold cursorAt, updCursor, updReference. simpl.
  eexists. rewrite list_lookup_alter_eq, Hp. simpl. done.
Qed.

Lemma numbered_app l1 l2 n1 n2 h h1 h2 :
  probedHeap assembleCountKey txn l1 n1 h h1 ->
  probedHeap assembleCountKey txn l2 n2 h1 h2 ->
  NoDup (l1 ++ l2) ->
  numbered l1 h h1 -> numbered l2 h1 h2 -> numbered (l1 ++ l2) h h2.
Proof.
  intros (Hc1 & _ & _ & Hcur1 & _ & _) (_ & _ & _ & _ & Hout2 & _) Hnd H1 H2 k p Hk.
  apply NoDup_app in Hnd as (_ & Hapart & _).
  apply lookup_app_Some in Hk as [Hk|[Hge Hk]].
  - destruct (H1 k p Hk) as (r & Hr & Hcur). exists r. split; [|done].
    rewrite Hout2; [done|]. apply Hapart. by eapply list_elem_of_lookup_2.
  - destruct (H2 _ p Hk) as (r & Hr & Hcur). exists r. split; [done|].
    rewrite Hcur. f_equal. rewrite Hcur1, length_app, length_fmap.
    apply Forall2_length in Hc1. lia.
Qed.

Lemma numbered_nil h : numbered [] h h.
Proof. intros k p Hk. by rewrite lookup_nil in Hk. Qed.

Lemma probeRefs_numbered zero l h major codex h' major' codex' :
  foldM (probeRef assembleCountKey txn zero) l (h, major, codex) = Ok (h', major', codex') ->
  NoDup l -> numbered l h h'.
Proof.
  revert h major codex. induction l as [|p l IH]; intros h major codex; simpl.
  - intros [= <- <- <-] _. apply numbered_nil.
  - intros ([[h1 major1] codex1] & Hp & Hl)%bind_Ok Hnd.
    pose proof (probeRef_numbered _ _ _ _ _ _ _ _ Hp) as Hnum1.
    apply probeRef_Ok in Hp as (n & Hn & ->).
    pose proof Hl as Hl'. apply probeRefs_Ok in Hl' as (counts & Hcounts & _).
    apply IH in Hl; [|by apply NoDup_cons in Hnd as [_ ?]].
    by apply (numbered_app [p] l [n] counts h h1 h').
Qed.

Lemma probeGroups_numbered (groups : list (string * list ptr)) h major codex h' major' codex' :
  foldM (fun st '(_, rs) => foldM (probeRef assembleCountKey txn DoubleCountZero) rs st)
        groups (h, major, codex) = Ok (h', major', codex') ->
  NoDup (mjoin (snd <$> groups)) -> numbered (mjoin (snd <$> groups)) h h'.
Proof.
  revert h major codex. induction groups as [|[dep rs] groups IH]; intros h major codex; simpl.
  - intros [= <- <- <-] _. apply numbered_nil.
  - intros ([[h1 major1] codex1] & Hrs & Hrest)%bind_Ok Hnd.
    pose proof Hnd as (Hnd1 & _ & Hnd2)%NoDup_app.
    pose proof (probeRefs_numbered _ _ _ _ _ _ _ _ Hrs Hnd1) as Hnum1.
    apply probeRefs_Ok in Hrs as (n1 & Hn1 & ->).
    pose proof Hrest as Hrest'. apply probeGroups_Ok in Hrest' as (n2 & Hn2 & _).
    apply IH in Hrest; [|done].
    by apply (numbered_app rs _ n1 n2 h h1 h').
Qed.

Lemma probeCodex_numbered s h major index id codex h' major' index' :
  probeCodex assembleCountKey txn s (h, major, index) (id, codex) = Ok (h', major', index') ->
  NoDup (probeList s id codex) -> numbered (probeList s id codex) h h'.
Proof.
  unfold probeCodex, probeList. intros ([[h1 major1] codex1] & Hs & Hrest)%bind_Ok Hnd.
  apply bind_Ok in Hrest as ([[h2 major2] codex2] & Hd & [= <- <- <-]).
  pose proof Hnd as (Hnd1 & _ & Hnd2)%NoDup_app.
  pose proof (probeRefs_numbered _ _ _ _ _ _ _ _ Hs Hnd1) as Hnum1.
  apply probeRefs_Ok in Hs as (n1 & Hn1 & ->).
  rewrite account_fold_Double in Hd. simpl in Hd.
  pose proof (probeGroups_numbered _ _ _ _ _ _ _ Hd Hnd2) as Hnum2.
  apply probeGroups_Ok in Hd as (n2 & Hn2 & _).
  by apply (numbered_app _ _ n1 n2 h h1 h2).
Qed.

Lemma probeLoop_numbered s (entries : list (string * Codex.t)) h major index h' major' index' :
  NoDup (fst <$> entries) ->
  foldM (probeCodex assembleCountKey txn s) entries (h, major, index) = Ok (h', major', index') ->
  NoDup (mjoin ((fun e : string * Codex.t => probeList s e.1 e.2) <$> entries)) ->
  numbered (mjoin ((fun e : string * Codex.t => probeList s e.1 e.2) <$> entries)) h h'.
Proof.
  revert h major index. induction entries as [|[id codex] entries IH];
    intros h major index Hfst; simpl.
  - intros [= <- <- <-] _. apply numbered_nil.
  - intros ([[h1 major1] index1] & Hc & Hrest)%bind_Ok Hnd.
    apply NoDup_cons in Hfst as [_ Hfst].
    pose proof Hnd as (Hnd1 & _ & Hnd2)%NoDup_app.
    pose proof (probeCodex_numbered _ _ _ _ _ _ _ _ _ Hc Hnd1) as Hnum1.
    apply probeCodex_Ok in Hc as (n1 & Hn1 & ->).
    pose proof Hrest as Hrest'. apply probeLoop_Ok in Hrest' as ((n2 & Hn2) & _); [|done].
    apply IH in Hrest; [|done..].
    by apply (numbered_app _ _ n1 n2 h h1 h').
Qed.

(** After the probe phase over references that are all distinct, every
    reference holds a Cursor of its own, with the count probed for it. *)
Lemma probePhase_cursors s c h c1 h1 :
  probePhase assembleCountKey txn s c h = Ok (c1, h1) ->
  NoDup (probeWork s c) ->
  (forall p, p ∈ probeWork s c ->
     exists cp n, cursorAt h1 p cp /\ cursors h1 !! cp = Some (probedCursor n)
       /\ probedCount assembleCountKey txn h p n /\ n ≠ 0%Z)
  /\ (forall p p' cp, p ∈ probeWork s c -> p' ∈ probeWork s c ->
        cursorAt h1 p cp -> cursorAt h1 p' cp -> p = p').
Proof.
  intros Hprobe Hnd.
  pose proof Hprobe as Hprobe'.
  apply probePhase_Ok in Hprobe' as (_ & (counts & Hheap) & _).
  unfold probePhase in Hprobe.
  apply bind_Ok in Hprobe as ([[h' major] index] & Hloop & [= <- <-]).
  apply probeLoop_numbered in Hloop; [|apply NoDup_fst_range|done].
  fold (probeWork s c) in Hloop.
  destruct Hheap as (Hcounts & Hnz & _ & Hcur & _).
  assert (forall p cp cp', cursorAt h' p cp -> cursorAt h' p cp' -> cp = cp') as Hfun.
  { intros p cp cp' (r & Hr & Hc) (r' & Hr' & Hc'). congruence. }
  split.
  - intros p [k Hk]%list_elem_of_lookup_1.
    destruct (Forall2_lookup_l _ _ _ _ _ Hcounts Hk) as (n & Hn & Hpn).
    exists (length (cursors h) + k), n. split_and!; [by apply Hloop| |done|].
    + rewrite Hcur, lookup_app_r by lia.
      replace (length (cursors h) + k - length (cursors h)) with k by lia.
      by rewrite list_lookup_fmap, Hn.
    + exact (proj1 (Forall_lookup _ _) Hnz k n Hn).
  - intros p p' cp [k Hk]%list_elem_of_lookup_1 [k' Hk']%list_elem_of_lookup_1 Hp Hp'.
    pose proof (Hfun _ _ _ Hp (Hloop k p Hk)) as ->.
    pose proof (Hfun _ _ _ Hp' (Hloop k' p' Hk')) as Heq.
    assert (k = k') as -> by lia. congruence.
Qed.

End ProbedCursors.

(** ** The tags that the resolution writes *)

Lemma cursorAt_fun h p cp cp' : cursorAt h p cp -> cursorAt h p cp' -> cp = cp'.
Proof. intros (r & Hr & Hc) (r' & Hr' & Hc'). congruence. Qed.

Lemma cursorAt_refs h h' p cp : refs h' = refs h -> cursorAt h p cp <-> cursorAt h' p cp.
Proof. intros Hrefs. unfold cursorAt. by rewrite Hrefs. Qed.

Lemma tagged_none h : tagged (fun _ _ _ => False) h h.
Proof. by split_and!; [done|done|intros ? ? ? ? []|]. Qed.

Lemma tagged_ext (T T' : ptr -> string -> nat -> Prop) h h' :
  (forall cp d o, T cp d o <-> T' cp d o) -> tagged T h h' -> tagged T' h h'.
Proof.
  intros Heq (Hrefs & Hlen & Hon & Hoff). split_and!; [done|done| |].
  - intros cp d o cur HT. apply Hon. by apply Heq.
  - intros cp Hno. apply Hoff. intros d o HT. apply (Hno d o). by apply Heq.
Qed.

Lemma tagged_trans (T1 T2 : ptr -> string -> nat -> Prop) h h1 h2 :
  tagged T1 h h1 -> tagged T2 h1 h2 ->
  (forall cp d o d' o', T1 cp d o -> T2 cp d' o' -> False) ->
  tagged (fun cp d o => T1 cp d o \/ T2 cp d o) h h2.
Proof.
  intros (Hrefs1 & Hlen1 & Hon1 & Hoff1) (Hrefs2 & Hlen2 & Hon2 & Hoff2) Hapart.
  split_and!; [congruence|congruence| |].
  - intros cp d o cur [HT|HT] Hcur.
    + rewrite Hoff2; [by apply Hon1|]. intros d' o' HT'. by eapply Hapart.
    + apply Hon2; [done|]. rewrite Hoff1; [done|]. intros d' o' HT'. by eapply Hapart.
  - intros cp Hno. rewrite Hoff2, Hoff1; [done| |].
    + intros d o HT. apply (Hno d o). by left.
    + intros d o HT. apply (Hno d o). by right.
Qed.

Lemma pastRef_tagged dep h past k p h' past' :
  pastRef dep (h, past) k p = Ok (h', past') ->
  exists cp, cursorAt h p cp /\ tagged (fun cp' d o => cp' = cp /\ d = dep /\ o = k) h h'.
Proof.
  unfold pastRef. destruct (refs h !! p) as [r|] eqn:Hp; [|done].
  destruct (Reference.Cursor r) as [cp|] eqn:Hcur; [|done].
  intros [= <- <-]. exists cp. split; [by exists r|].
  unfold tagged, updCursor. simpl. split_and!; [done|by rewrite !length_alter| |].
  - intros cp' d o cur (-> & -> & ->) Hc.
    by rewrite !list_lookup_alter_eq, Hc.
  - intros cp' Hno. assert (cp' ≠ cp) as Hne by (intros ->; by eapply Hno).
    by rewrite !list_lookup_alter_ne by done.
Qed.

Lemma pastRefs_tagged dep rs k0 h past h' past' :
  foldMi (pastRef dep) k0 rs (h, past) = Ok (h', past') ->
  (forall i i' p p' cp, rs !! i = Some p -> rs !! i' = Some p' ->
     cursorAt h p cp -> cursorAt h p' cp -> i = i') ->
  tagged (fun cp d o => d = dep /\ exists i p, rs !! i = Some p /\ o = k0 + i
                          /\ cursorAt h p cp) h h'.
Proof.
  revert k0 h past. induction rs as [|p rs IH]; intros k0 h past; simpl.
  - intros [= <- <-] _. eapply tagged_ext; [|apply tagged_none].
    intros cp d o. split; [done|]. intros (_ & i & q & Hi & _). by rewrite lookup_nil in Hi.
  - intros ([h1 past1] & Hp & Hrest)%bind_Ok Hinj.
    apply pastRef_tagged in Hp as (cp0 & Hcp0 & Htag1).
    pose proof Htag1 as (Hrefs1 & _).
    apply IH in Hrest.
    + eapply tagged_ext; [|eapply (tagged_trans _ _ _ _ _ Htag1 Hrest)].
      * intros cp d o. split.
        -- intros [(-> & -> & ->)|(-> & i & q & Hi & -> & Hq)].
           ++ split; [done|]. exists 0, p. split_and!; [done|lia|done].
           ++ split; [done|]. exists (S i), q. split_and!; [done|lia|].
              by apply (cursorAt_refs h h1).
        -- intros (-> & [|i] & q & Hi & -> & Hq); simpl in Hi.
           ++ injection Hi as <-. left. split_and!; [|done|lia].
              by eapply cursorAt_fun.
           ++ right. split; [done|]. exists i, q. split_and!; [done|lia|].
              by apply (cursorAt_refs h h1).
      * intros cp d o d' o' (-> & _ & _) (_ & i & q & Hi & _ & Hq).
        apply (cursorAt_refs h h1) in Hq; [|done].
        pose proof (Hinj 0 (S i) p q cp0 eq_refl Hi Hcp0 Hq). lia.
    + intros i i' q q' cp Hi Hi' Hq Hq'.
      apply (cursorAt_refs h h1) in Hq, Hq'; [|done..].
      pose proof (Hinj (S i) (S i') q q' cp Hi Hi' Hq Hq'). lia.
Qed.

Section ResolutionTags.
Context {V : Type}.
Variable setValueRoot : Heap -> Assignment.t V -> option V.

Lemma resolveGroup_tagged indexMap (index : gmap string (Assignment.t V))
    h a deps dep rs h' a' deps' :
  resolveGroup indexMap index (h, a, deps) (dep, rs) = Ok (h', a', deps') ->
  (forall i i' p p' cp, rs !! i = Some p -> rs !! i' = Some p' ->
     cursorAt h p cp -> cursorAt h p' cp -> i = i') ->
  tagged (fun cp d o => d = dep /\ is_Some (indexMap !! dep)
                          /\ exists p, rs !! o = Some p /\ cursorAt h p cp) h h'.
Proof.
  unfold resolveGroup. destruct (indexMap !! dep) as [j|] eqn:Hj.
  - intros ([h1 past1] & Hloop & Hrest)%bind_Ok Hinj.
    destruct (index !! dep) as [adep|]; [|done]. injection Hrest as <- <- <-.
    apply pastRefs_tagged in Hloop; [|done].
    eapply tagged_ext; [|exact Hloop].
    intros cp d o. split.
    + intros (-> & i & p & Hi & -> & Hp). split_and!; [done|by eexists|by exists p].
    + intros (-> & _ & p & Hi & Hp). split; [done|]. by exists o, p.
  - intros [= <- <- <-] _. eapply tagged_ext; [|apply tagged_none].
    intros cp d o. split; [done|]. by intros (_ & [? ?] & _).
Qed.

Lemma resolveGroups_tagged indexMap (index : gmap string (Assignment.t V))
    entries h a deps h' a' deps' :
  foldM (resolveGroup indexMap index) entries (h, a, deps) = Ok (h', a', deps') ->
  NoDup (fst <$> entries) ->
  (forall d rs o p d' rs' o' p' cp,
     (d, rs) ∈ entries -> (d', rs') ∈ entries ->
     rs !! o = Some p -> rs' !! o' = Some p' ->
     cursorAt h p cp -> cursorAt h p' cp -> d = d' /\ o = o') ->
  tagged (fun cp d o => exists rs p, (d, rs) ∈ entries /\ is_Some (indexMap !! d)
                          /\ rs !! o = Some p /\ cursorAt h p cp) h h'.
Proof.
  revert h a deps. induction entries as [|[dep rs] entries IH]; intros h a deps; simpl.
  - intros [= <- <- <-] _ _. eapply tagged_ext; [|apply tagged_none].
    intros cp d o. split; [done|]. by intros (? & ? & ?%elem_of_nil & _).
  - intros ([[h1 a1] deps1] & Hstep & Hrest)%bind_Ok [Hdep Hnd]%NoDup_cons Hinj.
    apply resolveGroup_tagged in Hstep.
    2:{ intros i i' p p' cp Hi Hi' Hp Hp'.
        by destruct (Hinj dep rs i p dep rs i' p' cp ltac:(left) ltac:(left) Hi Hi' Hp Hp'). }
    pose proof Hstep as (Hrefs1 & _).
    apply IH in Hrest; [|done|].
    2:{ intros d rs0 o p d' rs' o' p' cp Hd Hd' Ho Ho' Hp Hp'.
        apply (cursorAt_refs h h1) in Hp, Hp'; [|done..].
        apply (Hinj d rs0 o p d' rs' o' p' cp); by try right. }
    eapply tagged_ext; [|eapply (tagged_trans _ _ _ _ _ Hstep Hrest)].
    + intros cp d o. split.
      * intros [(-> & Hsome & p & Ho & Hp)|(rs0 & p & Hin & Hsome & Ho & Hp)].
        -- exists rs, p. split_and!; [by left|done..].
        -- exists rs0, p. split_and!; [by right|done|done|by apply (cursorAt_refs h h1)].
      * intros (rs0 & p & [[= -> ->]|Hin]%elem_of_cons & Hsome & Ho & Hp).
        -- left. split_and!; [done|done|by exists p].
        -- right. exists rs0, p. split_and!; [done..|by apply (cursorAt_refs h h1)].
    + intros cp d o d' o' (-> & _ & p & Ho & Hp) (rs' & p' & Hin & _ & Ho' & Hp').
      apply (cursorAt_refs h h1) in Hp'; [|done].
      destruct (Hinj dep rs o p d' rs' o' p' cp ltac:(left) ltac:(by right) Ho Ho' Hp Hp')
        as [<- <-].
      apply Hdep. apply list_elem_of_fmap. by exists (dep, rs').
Qed.

Lemma resolveAssignment_tagged s c h (index : gmap string (Assignment.t V)) indexMap i id
    h' index' indexMap' a :
  resolveAssignment setValueRoot s c (h, index, indexMap) i id = Ok (h', index', indexMap', a) ->
  cursorsApart c h ->
  tagged (fun cp d o => exists p, inGroup c id d o p
                          /\ is_Some (<[id := i]> indexMap !! d) /\ cursorAt h p cp) h h'.
Proof.
  unfold resolveAssignment. destruct (CodexMap.Index c !! id) as [codex|] eqn:Hc; [|done].
  intros ([[h1 a1] deps1] & Hloop & [= <- <- <- <-])%bind_Ok Hapart.
  apply resolveGroups_tagged in Hloop; [|apply NoDup_fst_range|].
  - eapply tagged_ext; [|exact Hloop].
    intros cp d o. split.
    + intros (rs & p & Hin%elem_of_range & Hsome & Ho & Hp).
      exists p. split; [by exists codex, rs|done].
    + intros (p & (codex' & rs & Hc' & Hrs & Ho) & Hsome & Hp).
      assert (codex' = codex) as -> by congruence.
      exists rs, p. split; [by apply elem_of_range|done].
  - intros d rs o p d' rs' o' p' cp Hin%elem_of_range Hin'%elem_of_range Ho Ho' Hp Hp'.
    destruct (Hapart id d o p id d' o' p' cp) as (_ & ? & ?); try done.
    + by exists codex, rs.
    + by exists codex, rs'.
Qed.

(** The tags at the end of the resolution: the Cursor of the reference at
    offset [o] of the group of [d] in the codex of [id] is tagged with [d]
    and [o] when [d] comes before [id] in the order. *)
Lemma resolvePhase_tagged s c h1 h' (idx : gmap string (Assignment.t V)) :
  NoDup (CodexMap.Slice c) ->
  (forall id codex, CodexMap.Index c !! id = Some codex -> Codex.Double codex !! id = None) ->
  cursorsApart c h1 ->
  resolvePhase setValueRoot s c h1 = Ok (h', idx) ->
  tagged (fun cp d o => exists i id j p,
            CodexMap.Slice c !! i = Some id /\ CodexMap.Slice c !! j = Some d /\ j < i
            /\ inGroup c id d o p /\ cursorAt h1 p cp) h1 h'.
Proof.
  intros Hnd Hself Hapart. unfold resolvePhase.
  intros ([[h2 index] indexMap] & Hrun & [= <- <-])%bind_Ok.
  set (slice := CodexMap.Slice c) in *.
  pose (T := fun (k : nat) (cp : ptr) (d : string) (o : nat) =>
    exists i id j p, i < k /\ slice !! i = Some id /\ slice !! j = Some d /\ j < i
      /\ inGroup c id d o p /\ cursorAt h1 p cp).
  pose (P := fun (k : nat) (st : Heap * gmap string (Assignment.t V) * gmap string nat) =>
    tagged (T k) h1 st.1.1
    /\ (forall id j, st.2 !! id = Some j <-> slice !! j = Some id /\ j < k)).
  apply (foldMi_inv P) in Hrun.
  - destruct Hrun as [Htag _]. simpl in Htag. eapply tagged_ext; [|exact Htag].
    intros cp d o. unfold T. split.
    + intros (i & id & j & p & _ & ?). by exists i, id, j, p.
    + intros (i & id & j & p & Hi & ?). exists i, id, j, p. split; [|done].
      by eapply lookup_lt_Some.
  - clear Hrun. intros [[h index0] indexMap0] k id [[h3 index3] indexMap3] Hk [Htag Hpos] Hstep.
    simpl in *.
    apply resolveVariable_Ok in Hstep as (a & v & Hres & Hv).
    pose proof Hres as Hres'. apply resolveAssignment_Ok in Hres' as [-> ->].
    pose proof Htag as (Hrefs & _).
    apply resolveAssignment_tagged in Hres.
    2:{ intros id1 d1 o1 p1 id2 d2 o2 p2 cp Hg1 Hg2 Hp1 Hp2.
        apply (cursorAt_refs h1 h) in Hp1, Hp2; [|done..]. by eapply Hapart. }
    split.
    + simpl. eapply tagged_ext; [|eapply (tagged_trans _ _ _ _ _ Htag Hres)].
      * intros cp d o. unfold T. split.
        -- intros [(i & id' & j & p & Hi & ?)|(p & Hg & [j Hj] & Hp)].
           ++ exists i, id', j, p. split; [lia|done].
           ++ assert (d ≠ id) as Hne.
              { intros ->. destruct Hg as (codex & rs & Hc & Hrs & _).
                by rewrite (Hself _ _ Hc) in Hrs. }
              rewrite lookup_insert_ne in Hj by done. apply Hpos in Hj as [Hj Hlt].
              exists k, id, j, p. split_and!; [lia|done|done|done|done|].
              by apply (cursorAt_refs h1 h).
        -- intros (i & id' & j & p & Hi & Hid' & Hj & Hlt & Hg & Hp).
           destruct (decide (i = k)) as [->|Hne].
           ++ right. assert (id' = id) as -> by congruence.
              exists p. split_and!; [done| |by apply (cursorAt_refs h1 h)].
              assert (d ≠ id) as Hne.
              { intros ->. destruct Hg as (codex & rs & Hc & Hrs & _).
                by rewrite (Hself _ _ Hc) in Hrs. }
              rewrite lookup_insert_ne by done. exists j. by apply Hpos.
           ++ left. exists i, id', j, p. split; [lia|done].
      * intros cp d o d' o' (i & id' & j & p & Hi & Hid' & _ & _ & Hg & Hp)
          (p' & Hg' & _ & Hp').
        apply (cursorAt_refs h1 h) in Hp'; [|done].
        destruct (Hapart _ _ _ _ _ _ _ _ _ Hg Hg' Hp Hp') as (-> & _ & _).
        pose proof (NoDup_lookup slice i k id Hnd Hid' Hk). lia.
    + simpl. intros id' j. rewrite lookup_insert. case_decide as Hid.
      * subst id'. split.
        -- intros [= <-]. split; [done|lia].
        -- intros [Hj ?]. f_equal. exact (NoDup_lookup slice k j id Hnd Hk Hj).
      * rewrite Hpos. split; [intros [? ?]; split; [done|lia]|].
        intros [Hj ?]. split; [done|]. destruct (decide (j = k)) as [->|]; [congruence|lia].
  - split; simpl.
    + eapply tagged_ext; [|apply tagged_none]. intros cp d o. unfold T. split; [done|].
      intros (i & _ & _ & _ & Hi & _). lia.
    + intros id j. rewrite lookup_empty. split; [done|lia].
Qed.

End ResolutionTags.

Section PipelineCursors.
Context {V : Type}.
Variable perms : Permutations.
Variable assembleCountKey : Reference.t -> bool -> list byte * bool.
Variable txn : Txn.
Variable setValueRoot : Heap -> Assignment.t V -> option V.

(** X22. The Cursors of a plan.  After a full compilation that succeeded,
    every reference of a Double group holds a Cursor of its own whose Count
    is the non-zero count probed for it.  For the reference at offset o of
    the group of partner d in the codex of variable id: when d comes before
    id in the returned order, the Cursor's ID is d and its Index is o; when
    d comes after id, the Cursor still has the empty ID and the Index 0 of
    a new Cursor.  The Cursor of a Single reference is never tagged. *)
Theorem compile_cursors s dataset c' h' (idx : gmap string (Assignment.t V)) :
  compile perms assembleCountKey txn setValueRoot s dataset = Ok (c', h', idx) ->
  exists h0 constants c0,
    getInitalCodexMap perms s dataset = Ok (h0, constants, c0)
    /\ (forall i id j d o p,
          CodexMap.Slice c' !! i = Some id -> CodexMap.Slice c' !! j = Some d ->
          inGroup c' id d o p ->
          exists cp cur, cursorAt h' p cp /\ cursors h' !! cp = Some cur
            /\ Cursor.Count cur ≠ 0%Z
            /\ probedCount assembleCountKey txn h0 p (Cursor.Count cur)
            /\ (j < i -> Cursor.ID cur = d /\ Cursor.Index cur = o)
            /\ (i < j -> Cursor.ID cur = "" /\ Cursor.Index cur = 0))
    /\ (forall id codex p,
          CodexMap.Index c' !! id = Some codex -> p ∈ Codex.Single codex ->
          exists cp cur, cursorAt h' p cp /\ cursors h' !! cp = Some cur
            /\ Cursor.Count cur ≠ 0%Z
            /\ probedCount assembleCountKey txn h0 p (Cursor.Count cur)
            /\ Cursor.ID cur = "" /\ Cursor.Index cur = 0)
    /\ (forall id d o p id' d' o' p' cp,
          inGroup c' id d o p -> inGroup c' id' d' o' p' ->
          cursorAt h' p cp -> cursorAt h' p' cp -> id = id' /\ d = d' /\ o = o').
Proof.
  intros Hrun.
  destruct (compile_Double _ _ _ _ _ _ _ _ _ Hrun)
    as (h0 & constants & c0 & Hinit & Hperm & Hdom & Hsame).
  destruct (compile_phases _ _ _ _ _ _ _ _ _ Hrun)
    as (h0' & constants' & c0' & c1 & h1 & Hinit' & Hprobe & _ & Hres).
  rewrite Hinit in Hinit'. injection Hinit' as <- <- <-.
  pose proof (getInitalCodexMap_classified _ _ _ _ Hinit) as [Hwf0 _].
  pose proof (getInitalCodexMap_classifiedMore _ _ _ _ Hinit) as (Hown0 & _).
  simpl in Hwf0, Hown0.
  assert (NoDup (probeWork s c0)) as Hnd0.
  { rewrite <- (closeWork_Permutation (fun _ => inOrder) s c0 Hwf0).
    by eapply closeWork_NoDup. }
  destruct (probePhase_cursors _ _ _ _ _ _ _ Hprobe Hnd0) as [Hcur Hinj].
  assert (NoDup (CodexMap.Slice c')) as Hnd'.
  { rewrite Hperm. apply Hwf0. }
  assert (forall id codex, CodexMap.Index c' !! id = Some codex ->
            Codex.Double codex !! id = None) as Hself'.
  { intros id codex' Hc'. destruct (Hsame id codex' Hc') as (codex & Hc & _ & _ & ->).
    destruct Hwf0 as (_ & _ & Hself). by eapply Hself. }
  assert (forall id d o p, inGroup c' id d o p ->
            p ∈ probeWork s c0 /\ doubleGroup c0 id d !! o = Some p) as Hgroup.
  { intros id d o p (codex' & rs & Hc' & Hrs & Ho).
    destruct (Hsame id codex' Hc') as (codex & Hc & _ & _ & HD). rewrite HD in Hrs. split.
    - apply elem_of_probeWork. exists id, codex. split; [done|].
      apply elem_of_probeList. right. exists d, rs. split; [done|].
      by eapply list_elem_of_lookup_2.
    - unfold doubleGroup. rewrite Hc. simpl. by rewrite Hrs. }
  assert (forall id codex' p, CodexMap.Index c' !! id = Some codex' -> p ∈ Codex.Single codex' ->
            p ∈ probeWork s c0 /\ p ∈ singlesOf c0 id) as Hsingle.
  { intros id codex' p Hc' Hp.
    destruct (Hsame id codex' Hc') as (codex & Hc & _ & HS & _). rewrite HS in Hp. split.
    - apply elem_of_probeWork. exists id, codex. split; [done|].
      apply elem_of_probeList. by left.
    - unfold singlesOf. by rewrite Hc. }
  assert (cursorsApart c' h1) as Hapart.
  { intros id d o p id' d' o' p' cp Hg Hg' Hp Hp'.
    destruct (Hgroup _ _ _ _ Hg) as [Hw Ho], (Hgroup _ _ _ _ Hg') as [Hw' Ho'].
    pose proof (Hinj p p' cp Hw Hw' Hp Hp') as <-.
    destruct Hown0 as (Hnodup & _ & Hone).
    assert (InDouble id d = InDouble id' d') as [= <- <-].
    { apply (Hone _ _ p); simpl; by eapply list_elem_of_lookup_2. }
    split_and!; [done|done|].
    exact (NoDup_lookup _ o o' p (Hnodup (InDouble id d)) Ho Ho'). }
  apply resolvePhase_tagged in Hres; [|done..].
  destruct Hres as (Hrefs & _ & Hon & Hoff).
  exists h0, constants, c0. split_and!; [done| | |].
  - intros i id j d o p Hi Hj Hg.
    destruct (Hgroup _ _ _ _ Hg) as [Hw _].
    destruct (Hcur p Hw) as (cp & n & Hp & Hcp & Hn & Hn0).
    assert (cursorAt h' p cp) as Hp' by by apply (cursorAt_refs h1 h').
    destruct (decide (j < i)) as [Hlt|Hge].
    + exists cp, (Cursor.setIndex o (Cursor.setID d (probedCursor n))).
      split_and!; [done| |done|done|done|lia].
      apply Hon; [|done]. by exists i, id, j, p.
    + exists cp, (probedCursor n). split_and!; [done| |done|done|lia|done].
      rewrite Hoff; [done|].
      intros d' o' (i' & id' & j' & p' & Hi' & Hj' & Hlt & Hg' & Hp'').
      destruct (Hapart _ _ _ _ _ _ _ _ _ Hg Hg' Hp Hp'') as (<- & <- & _).
      pose proof (NoDup_lookup _ i i' id Hnd' Hi Hi').
      pose proof (NoDup_lookup _ j j' d Hnd' Hj Hj'). lia.
  - intros id codex p Hc Hp.
    destruct (Hsingle _ _ _ Hc Hp) as [Hw Hs].
    destruct (Hcur p Hw) as (cp & n & Hp1 & Hcp & Hn & Hn0).
    exists cp, (probedCursor n). split_and!; try done.
    + by apply (cursorAt_refs h1 h').
    + rewrite Hoff; [done|].
      intros d' o' (i' & id' & j' & p' & _ & _ & _ & Hg' & Hp').
      destruct (Hgroup _ _ _ _ Hg') as [Hw' Ho'].
      pose proof (Hinj p p' cp Hw Hw' Hp1 Hp') as <-.
      destruct Hown0 as (_ & _ & Hone).
      assert (InSingle id = InDouble id' d') as Heq; [|done].
      apply (Hone _ _ p); simpl; [done|by eapply list_elem_of_lookup_2].
  - intros id d o p id' d' o' p' cp Hg Hg' Hp Hp'.
    apply (cursorAt_refs h1 h') in Hp, Hp'; [|done..]. by eapply Hapart.
Qed.

End PipelineCursors.

Lemma compile_cursors_witness :
  exists c' h' idx h0 constants c0,
    compileOnes sched0 joel = Ok (c', h', idx)
    /\ getInitalCodexMap somePermutations sched0 joel = Ok (h0, constants, c0)
    /\ forall id codex p,
         CodexMap.Index c' !! id = Some codex -> p ∈ Codex.Single codex ->
         exists cp cur, cursorAt h' p cp /\ cursors h' !! cp = Some cur
           /\ Cursor.Count cur ≠ 0%Z
           /\ probedCount plainKey storeOfOnes h0 p (Cursor.Count cur)
           /\ Cursor.ID cur = "" /\ Cursor.Index cur = 0.
Proof.
  destruct (compileOnes sched0 joel) as [[[c' h'] idx]| |] eqn:E; [|by vm_compute in E..].
  destruct (compile_cursors somePermutations plainKey storeOfOnes (fun _ _ => Some tt)
              sched0 joel c' h' idx E) as (h0 & constants & c0 & Hinit & _ & Hsingle & _).
  exists c', h', idx, h0, constants, c0. split; [reflexivity|]. split; [exact Hinit|].
  exact Hsingle.
Defined.

(** * When the compilation succeeds *)

Section Success.
Context {V : Type}.
Variable perms : Permutations.
Variable assembleCountKey : Reference.t -> bool -> list byte * bool.
Variable txn : Txn.
Variable setValueRoot : Heap -> Assignment.t V -> option V.






End Success.


(** * The order of creation *)

Lemma foldM_inv_prefix {A B} (P : list A -> B -> Prop) (f : B -> A -> result B) l b b' :
  (forall pre x post b b', l = pre ++ x :: post -> P pre b -> f b x = Ok b' -> P (pre ++ [x]) b') ->
  P [] b -> foldM f l b = Ok b' -> P l b'.
Proof.
  intros Hstep.
  assert (forall post pre b, l = pre ++ post -> P pre b -> foldM f post b = Ok b' -> P l b')
    as Hgen.
  { induction post as [|x post IH]; intros pre b0 Hl Hpre; simpl.
    - intros [= <-]. by rewrite Hl, app_nil_r.
    - destruct (f b0 x) as [b1| |] eqn:E; simpl; try done.
      apply (IH (pre ++ [x])).
      + by rewrite <- app_assoc.
      + by eapply Hstep. }
  by apply (Hgen l []).
Qed.

Lemma StronglySorted_snoc (l : list nat) (n : nat) :
  StronglySorted lt l -> (forall p, p ∈ l -> p < n) -> StronglySorted lt (l ++ [n]).
Proof.
  induction 1 as [|x l Hsorted IH Hall]; intros Hlt; simpl.
  - repeat constructor.
  - constructor.
    + apply IH. intros p Hp. apply Hlt. by right.
    + apply Forall_app. split; [done|]. constructor; [|done]. apply Hlt. by left.
Qed.

Lemma StronglySorted_lookup_lt (l : list nat) i j x y :
  StronglySorted lt l -> l !! i = Some x -> l !! j = Some y -> i < j -> x < y.
Proof.
  intros Hsorted. revert i j. induction Hsorted as [|z l Hsorted IH Hall]; intros i j Hi Hj Hlt.
  - by rewrite lookup_nil in Hi.
  - destruct j as [|j]; [lia|]. simpl in Hj. destruct i as [|i]; simpl in Hi.
    + injection Hi as <-.
      exact (proj1 (Forall_forall _ _) Hall y (list_elem_of_lookup_2 _ _ _ Hj)).
    + apply (IH i j); [done|done|lia].
Qed.

Section CreationOrder.
Variable perms : Permutations.

Lemma sorted_appendAt n view place :
  owned n view -> (forall pl, StronglySorted lt (view pl)) ->
  forall pl, StronglySorted lt (appendAt view place n pl).
Proof.
  intros (_ & Hlt & _) Hsorted pl. unfold appendAt. case_decide; [|done].
  apply StronglySorted_snoc; [done|]. intros p. apply Hlt.
Qed.

Lemma sorted_ext (view view' : Place -> list ptr) :
  (forall pl, view' pl = view pl) ->
  (forall pl, StronglySorted lt (view pl)) -> forall pl, StronglySorted lt (view' pl).
Proof. intros Heq Hs pl. by rewrite Heq. Qed.

Lemma classify_sorted graph h constants c index q h' constants' c' :
  classify perms graph (h, constants, c) index q = Ok (h', constants', c') ->
  owned (length (refs h)) (pointersAt constants c) ->
  (forall pl, StronglySorted lt (pointersAt constants c pl)) ->
  forall pl, StronglySorted lt (pointersAt constants' c' pl).
Proof.
  intros Hrun Hown Hsorted.
  apply classify_shape in Hrun
    as [(r & _ & _ & _ & _ & _ & -> & ->)
       |[(r & a & _ & _ & _ & _ & _ & -> & ->)
        |[(r & a & _ & _ & _ & _ & _ & -> & ->)
         |(rA & rB & a & b & _ & _ & _ & _ & _ & _ & _ & _ & -> & ->)]]].
  - eapply sorted_ext; [apply pointersAt_constant|]. by apply sorted_appendAt.
  - eapply sorted_ext; [apply pointersAt_single|]. by apply sorted_appendAt.
  - eapply sorted_ext; [apply pointersAt_constraint|]. by apply sorted_appendAt.
  - eapply sorted_ext; [apply pointersAt_InsertDouble|].
    apply sorted_appendAt.
    + eapply owned_ext; [apply pointersAt_InsertDouble|]. by apply owned_appendAt.
    + eapply sorted_ext; [apply pointersAt_InsertDouble|]. by apply sorted_appendAt.
Qed.

Lemma getInitalCodexMap_sorted s dataset h constants c :
  getInitalCodexMap perms s dataset = Ok (h, constants, c) ->
  forall pl, StronglySorted lt (pointersAt constants c pl).
Proof.
  unfold getInitalCodexMap. intros Hrun.
  apply (foldM_inv (fun st => classifiedMore st
           /\ forall pl, StronglySorted lt (pointersAt st.1.2 st.2 pl))) in Hrun.
  - apply Hrun.
  - intros st1 [graph quads] st2 _ Hst1 Hin.
    apply (foldMi_inv (fun _ st => classifiedMore st
             /\ forall pl, StronglySorted lt (pointersAt st.1.2 st.2 pl))) in Hin;
      [done| |done].
    intros [[h3 k3] c3] k q [[h4 k4] c4] _ [Hmore Hsorted] Hq. split.
    + by eapply classify_classifiedMore.
    + exact (classify_sorted _ _ _ _ _ _ _ _ _ Hq (proj1 Hmore) Hsorted).
  - split; [apply classifiedMore_zero|]. intros []; simpl; constructor.
Qed.

Lemma classify_madeInOrder graph (allowed : list string) k q h constants c h' constants' c' :
  classify perms graph (h, constants, c) k q = Ok (h', constants', c') ->
  (forall p r, refs h !! p = Some r ->
     (Reference.Graph r ∈ allowed \/ Reference.Graph r = graph)
     /\ (Reference.Graph r = graph -> Reference.Index r < k)) ->
  madeInOrder h ->
  (forall p r, refs h' !! p = Some r ->
     (Reference.Graph r ∈ allowed \/ Reference.Graph r = graph)
     /\ (Reference.Graph r = graph -> Reference.Index r < S k))
  /\ madeInOrder h'.
Proof.
  intros Hrun Hold Hmono.
  assert (exists more, refs h' = refs h ++ more
            /\ forall r, r ∈ more -> Reference.Graph r = graph /\ Reference.Index r = k)
    as (more & Hrefs & Hmore).
  { apply classify_shape in Hrun
      as [(r & _ & Hrefs & _ & (Hg & Hi & _) & _)
         |[(r & a & _ & Hrefs & _ & (Hg & Hi & _) & _)
          |[(r & a & _ & Hrefs & _ & (Hg & Hi & _) & _)
           |(rA & rB & a & b & _ & _ & Hrefs & _ & (HgA & HiA & _) & (HgB & HiB & _) & _)]]].
    1-3: exists [r]; split; [done|]; by intros ? ->%list_elem_of_singleton.
    exists [rA; rB]. split; [done|].
    intros r [->|[->|[]%elem_of_nil]%elem_of_cons]%elem_of_cons; done. }
  split.
  - intros p r. rewrite Hrefs. intros [Hp|[_ Hp]]%lookup_app_Some.
    + destruct (Hold p r Hp) as [Hg Hi]. split; [done|]. intros ?%Hi. lia.
    + apply list_elem_of_lookup_2, Hmore in Hp as [-> ->]. split; [by right|lia].
  - intros p p' rp rp' Hlt. rewrite Hrefs.
    intros [Hp|[Hge Hp]]%lookup_app_Some [Hp'|[Hge' Hp']]%lookup_app_Some Hsame.
    + by eapply Hmono.
    + apply list_elem_of_lookup_2, Hmore in Hp' as [Hg' ->].
      destruct (Hold p rp Hp) as [_ Hi]. rewrite Hsame, Hg' in Hi. specialize (Hi eq_refl). lia.
    + apply lookup_lt_Some in Hp'. lia.
    + apply list_elem_of_lookup_2, Hmore in Hp as [_ ->].
      apply list_elem_of_lookup_2, Hmore in Hp' as [_ ->]. done.
Qed.

Lemma getInitalCodexMap_madeInOrder s dataset h constants c :
  getInitalCodexMap perms s dataset = Ok (h, constants, c) -> madeInOrder h.
Proof.
  unfold getInitalCodexMap. intros Hrun.
  pose proof (NoDup_fst_range (sGraphs s) (Graphs dataset)) as Hnd.
  apply (foldM_inv_prefix (fun pre st =>
           (forall p r, refs st.1.1 !! p = Some r -> Reference.Graph r ∈ fst <$> pre)
           /\ madeInOrder st.1.1)) in Hrun.
  - apply Hrun.
  - intros pre [graph quads] post [[h1 k1] c1] [[h2 k2] c2] Hsplit [Hseen Hmono] Hin.
    simpl in *.
    assert (graph ∉ fst <$> pre) as Hnew.
    { rewrite Hsplit, fmap_app in Hnd. apply NoDup_app in Hnd as (_ & Hapart & _).
      intros Hg. apply (Hapart graph Hg). simpl. by left. }
    apply (foldMi_inv (fun k st =>
             (forall p r, refs st.1.1 !! p = Some r ->
                (Reference.Graph r ∈ fst <$> pre \/ Reference.Graph r = graph)
                /\ (Reference.Graph r = graph -> Reference.Index r < k))
             /\ madeInOrder st.1.1)) in Hin.
    + destruct Hin as [Hall Hmono2]. simpl in *. split; [|done].
      intros p r Hp. rewrite fmap_app, elem_of_app. simpl.
      destruct (Hall p r Hp) as [[Hg|Hg] _]; [by left|right; rewrite Hg; by left].
    + intros [[h3 k3] c3] k q [[h4 k4] c4] _ [Hall Hmono3] Hq.
      exact (classify_madeInOrder _ _ _ _ _ _ _ _ _ _ Hq Hall Hmono3).
    + simpl. split; [|done]. intros p r Hp. split; [left; by eapply Hseen|].
      intros Hg. exfalso. apply Hnew. rewrite <- Hg. by eapply Hseen.
  - simpl. split; [|by intros p q rp rq _ Hp; simpl in Hp; rewrite lookup_nil in Hp].
    intros p r Hp. simpl in Hp. by rewrite lookup_nil in Hp.
Qed.

(** X24. getInitalCodexMap makes the References in the order of the
    statements: of two References of the same graph the later one never
    has the smaller statement index, and the constants list, every Single
    list, every Constraint list and every Double group holds its References
    in the order of their creation (strictly increasing pointers), so in
    the order of the statements of each graph. *)
Theorem getInitalCodexMap_creation_order s dataset h constants c :
  getInitalCodexMap perms s dataset = Ok (h, constants, c) ->
  (forall p q rp rq, p < q -> refs h !! p = Some rp -> refs h !! q = Some rq ->
     Reference.Graph rp = Reference.Graph rq -> Reference.Index rp <= Reference.Index rq)
  /\ (forall place, StronglySorted lt (pointersAt constants c place))
  /\ (forall place i j p q rp rq,
        pointersAt constants c place !! i = Some p ->
        pointersAt constants c place !! j = Some q -> i < j ->
        refs h !! p = Some rp -> refs h !! q = Some rq ->
        Reference.Graph rp = Reference.Graph rq ->
        Reference.Index rp <= Reference.Index rq).
Proof.
  intros Hrun.
  pose proof (getInitalCodexMap_madeInOrder _ _ _ _ _ Hrun) as Hmono.
  pose proof (getInitalCodexMap_sorted _ _ _ _ _ Hrun) as Hsorted.
  split_and!; [done|done|].
  intros place i j p q rp rq Hi Hj Hlt Hp Hq Hsame.
  apply (Hmono p q rp rq); try done.
  exact (StronglySorted_lookup_lt _ _ _ _ _ (Hsorted place) Hi Hj Hlt).
Qed.

End CreationOrder.

Lemma getInitalCodexMap_creation_order_witness :
  exists h constants c,
    getInitalCodexMap somePermutations sched0 joel = Ok (h, constants, c)
    /\ forall place, StronglySorted lt (pointersAt constants c place).
Proof.
  destruct (getInitalCodexMap somePermutations sched0 joel) as [[[h constants] c]| |] eqn:E;
    [|by vm_compute in E..].
  exists h, constants, c. split; [reflexivity|].
  exact (proj1 (proj2 (getInitalCodexMap_creation_order somePermutations sched0 joel
                         h constants c E))).
Defined.


(** * A zero count *)

Section ZeroCount.
Context {V : Type}.
Variable assembleCountKey : Reference.t -> bool -> list byte * bool.
Variable txn : Txn.
Variable setValueRoot : Heap -> Assignment.t V -> option V.

(** The count under the key is not zero. *)
Let counted (pk : ptr * list byte) : Prop :=
  exists n, getCount pk.2 txn = Ok n /\ n ≠ 0%Z.

Lemma probeRef_key zero h major codex p h' major' codex' rest :
  probeRef assembleCountKey txn zero (h, major, codex) p = Ok (h', major', codex') ->
  exists key,
    keysFrom assembleCountKey (p :: rest) (refs h) (length (cursors h)) major
    = (p, key) :: keysFrom assembleCountKey rest (refs h') (length (cursors h')) major'
    /\ counted (p, key).
Proof.
  unfold probeRef. destruct (refs h !! p) as [r|] eqn:Hp; [|done].
  destruct (assembleCountKey r major) as [key major1] eqn:Hkey. simpl.
  intros (n & Hn & Hrest)%bind_Ok. case_decide as Hz; [done|].
  injection Hrest as <- <- <-.
  exists key. split; [|by exists n].
  rewrite Hp, Hkey. simpl. by rewrite length_alter, length_app, Nat.add_1_r.
Qed.

Lemma probeRefs_keys zero l h major codex h' major' codex' rest :
  foldM (probeRef assembleCountKey txn zero) l (h, major, codex) = Ok (h', major', codex') ->
  exists keys,
    keysFrom assembleCountKey (l ++ rest) (refs h) (length (cursors h)) major
    = keys ++ keysFrom assembleCountKey rest (refs h') (length (cursors h')) major'
    /\ Forall counted keys.
Proof.
  revert h major codex. induction l as [|p l IH]; intros h major codex.
  - intros [= <- <- <-]. by exists [].
  - intros ([[h1 major1] codex1] & Hp & Hl)%bind_Ok.
    apply (probeRef_key _ _ _ _ _ _ _ _ (l ++ rest)) in Hp as (key & Hkey & Hcounted).
    apply IH in Hl as (keys & Hkeys & Hall).
    exists ((p, key) :: keys). split; [|by constructor].
    change ((p :: l) ++ rest) with (p :: (l ++ rest)). by rewrite Hkey, Hkeys.
Qed.

Lemma probeGroups_keys (groups : list (string * list ptr)) h major codex h' major' codex' rest :
  foldM (fun st '(_, rs) => foldM (probeRef assembleCountKey txn DoubleCountZero) rs st)
        groups (h, major, codex) = Ok (h', major', codex') ->
  exists keys,
    keysFrom assembleCountKey (mjoin (snd <$> groups) ++ rest) (refs h) (length (cursors h)) major
    = keys ++ keysFrom assembleCountKey rest (refs h') (length (cursors h')) major'
    /\ Forall counted keys.
Proof.
  revert h major codex. induction groups as [|[dep rs] groups IH]; intros h major codex.
  - intros [= <- <- <-]. by exists [].
  - intros ([[h1 major1] codex1] & Hrs & Hrest)%bind_Ok.
    apply (probeRefs_keys _ _ _ _ _ _ _ _ (mjoin (snd <$> groups) ++ rest)) in Hrs
      as (keys1 & Hkeys1 & Hall1).
    apply IH in Hrest as (keys2 & Hkeys2 & Hall2).
    exists (keys1 ++ keys2). split; [|by apply Forall_app].
    change (mjoin (snd <$> (dep, rs) :: groups)) with (rs ++ mjoin (snd <$> groups)).
    rewrite <- (app_assoc rs), Hkeys1, Hkeys2. by rewrite app_assoc.
Qed.

Lemma probeCodex_keys s h major index id codex h' major' index' rest :
  probeCodex assembleCountKey txn s (h, major, index) (id, codex) = Ok (h', major', index') ->
  exists keys,
    keysFrom assembleCountKey (probeList s id codex ++ rest) (refs h) (length (cursors h)) major
    = keys ++ keysFrom assembleCountKey rest (refs h') (length (cursors h')) major'
    /\ Forall counted keys.
Proof.
  unfold probeCodex, probeList. intros ([[h1 major1] codex1] & Hs & Hrest)%bind_Ok.
  apply bind_Ok in Hrest as ([[h2 major2] codex2] & Hd & [= <- <- <-]).
  pose proof Hs as Hs'. apply probeRefs_Ok in Hs' as (n1 & _ & ->).
  rewrite account_fold_Double in Hd. simpl in Hd, Hs.
  apply (probeRefs_keys _ _ _ _ _ _ _ _
           (mjoin (snd <$> range (sProbe s id) (Codex.Double codex)) ++ rest)) in Hs
    as (keys1 & Hkeys1 & Hall1).
  apply (probeGroups_keys _ _ _ _ _ _ _ rest) in Hd as (keys2 & Hkeys2 & Hall2).
  exists (keys1 ++ keys2). split; [|by apply Forall_app].
  rewrite <- (app_assoc (Codex.Single codex)), Hkeys1, Hkeys2. by rewrite app_assoc.
Qed.

Lemma probeLoop_keys s (entries : list (string * Codex.t)) h major index h' major' index' :
  foldM (probeCodex assembleCountKey txn s) entries (h, major, index) = Ok (h', major', index') ->
  Forall counted
    (keysFrom assembleCountKey
       (mjoin ((fun e : string * Codex.t => probeList s e.1 e.2) <$> entries))
       (refs h) (length (cursors h)) major).
Proof.
  revert h major index. induction entries as [|[id codex] entries IH]; intros h major index.
  - intros _. constructor.
  - intros ([[h1 major1] index1] & Hc & Hrest)%bind_Ok.
    apply (probeCodex_keys _ _ _ _ _ _ _ _ _
             (mjoin ((fun e : string * Codex.t => probeList s e.1 e.2) <$> entries))) in Hc
      as (keys & Hkeys & Hall).
    apply IH in Hrest.
    change (mjoin ((fun e : string * Codex.t => probeList s e.1 e.2) <$> (id, codex) :: entries))
      with (probeList s id codex
            ++ mjoin ((fun e : string * Codex.t => probeList s e.1 e.2) <$> entries)).
    rewrite Hkeys. by apply Forall_app.
Qed.

(** When the probe phase succeeds, it has read a count that is not zero
    under every key of [probeKeys]. *)
Lemma probePhase_keys s c h c1 h1 :
  probePhase assembleCountKey txn s c h = Ok (c1, h1) ->
  Forall counted (probeKeys assembleCountKey s c h).
Proof.
  unfold probePhase. intros ([[h' major] index] & Hloop & _)%bind_Ok.
  by apply probeLoop_keys in Hloop.
Qed.

Lemma elem_of_keysFrom_1 l rs ncur major q key :
  (q, key) ∈ keysFrom assembleCountKey l rs ncur major -> q ∈ l.
Proof.
  revert rs ncur major. induction l as [|p l IH]; intros rs ncur major; simpl.
  - by intros ?%elem_of_nil.
  - destruct (rs !! p) as [r|]; [|by intros ?%elem_of_nil].
    intros [[= -> _]|Hin]%elem_of_cons; [by left|]. right. by eapply IH.
Qed.

Lemma elem_of_keysFrom_2 l rs ncur major q :
  (forall p, p ∈ l -> p < length rs) -> q ∈ l ->
  exists key, (q, key) ∈ keysFrom assembleCountKey l rs ncur major.
Proof.
  revert rs ncur major. induction l as [|p l IH]; intros rs ncur major Hl; simpl.
  - by intros ?%elem_of_nil.
  - destruct (rs !! p) as [r|] eqn:Hp.
    2:{ apply lookup_ge_None in Hp. specialize (Hl p ltac:(left)). lia. }
    intros [->|Hq]%elem_of_cons.
    + eexists. by left.
    + destruct (IH (alter (Reference.setCursor (Some ncur)) p rs) (S ncur)
                  (assembleCountKey r major).2) as [key Hkey]; [|done|].
      * intros p' Hp'. rewrite length_alter. apply Hl. by right.
      * exists key. by right.
Qed.

(** The count under the key is zero. *)
Let uncounted (pk : ptr * list byte) : Prop := getCount pk.2 txn = Ok 0%Z.

Lemma probeRef_Err_key zero h major codex p e rest :
  probeRef assembleCountKey txn zero (h, major, codex) p = Err e ->
  (exists msg, e = StoreError msg)
  \/ (e = zero p
      /\ exists key tail,
           keysFrom assembleCountKey (p :: rest) (refs h) (length (cursors h)) major
           = (p, key) :: tail
           /\ uncounted (p, key)).
Proof.
  unfold probeRef. destruct (refs h !! p) as [r|] eqn:Hp; [|done].
  destruct (assembleCountKey r major) as [key major1] eqn:Hkey. simpl.
  destruct (getCount key txn) as [n|e1|] eqn:Hn; simpl; [| |done].
  - case_decide as Hz; [|done]. intros [= <-]. right. split; [done|].
    exists key. eexists. rewrite Hp, Hkey. simpl. split; [done|]. unfold uncounted. simpl.
    by rewrite Hn, Hz.
  - intros [= <-]. left. unfold getCount in Hn.
    destruct (txn key) as [|msg|[msg|count]]; try done.
    + injection Hn as <-. by eexists.
    + injection Hn as <-. by eexists.
    + by destruct (Uint64 count).
Qed.

Lemma probeRefs_Err_key zero l h major codex e rest :
  foldM (probeRef assembleCountKey txn zero) l (h, major, codex) = Err e ->
  (exists msg, e = StoreError msg)
  \/ exists q key, e = zero q
       /\ (q, key) ∈ keysFrom assembleCountKey (l ++ rest) (refs h) (length (cursors h)) major
       /\ uncounted (q, key).
Proof.
  intros (pre & p & post & [[h1 major1] codex1] & -> & Hpre & Hp)%foldM_Err.
  apply (probeRefs_keys _ _ _ _ _ _ _ _ ((p :: post) ++ rest)) in Hpre as (keys & Hkeys & _).
  apply (probeRef_Err_key _ _ _ _ _ _ (post ++ rest)) in Hp
    as [?|(-> & key & tail & Htail & Hzero)]; [by left|right].
  exists p, key. split_and!; [done| |done].
  rewrite <- app_assoc, Hkeys. apply elem_of_app. right.
  change ((p :: post) ++ rest) with (p :: (post ++ rest)). rewrite Htail. by left.
Qed.

Lemma probeGroups_Err_key (groups : list (string * list ptr)) h major codex e rest :
  foldM (fun st '(_, rs) => foldM (probeRef assembleCountKey txn DoubleCountZero) rs st)
        groups (h, major, codex) = Err e ->
  (exists msg, e = StoreError msg)
  \/ exists q key, e = DoubleCountZero q
       /\ (q, key) ∈ keysFrom assembleCountKey (mjoin (snd <$> groups) ++ rest)
                      (refs h) (length (cursors h)) major
       /\ uncounted (q, key).
Proof.
  intros (pre & [dep rs] & post & [[h1 major1] codex1] & -> & Hpre & Hp)%foldM_Err.
  apply (probeGroups_keys _ _ _ _ _ _ _ ((rs ++ mjoin (snd <$> post)) ++ rest)) in Hpre
    as (keys & Hkeys & _).
  apply (probeRefs_Err_key _ _ _ _ _ _ (mjoin (snd <$> post) ++ rest)) in Hp
    as [?|(q & key & -> & Hin & Hzero)]; [by left|right].
  exists q, key. split_and!; [done| |done].
  rewrite fmap_app, join_app.
  change (mjoin (snd <$> (dep, rs) :: post)) with (rs ++ mjoin (snd <$> post)).
  rewrite <- (app_assoc (mjoin (snd <$> pre))), Hkeys. apply elem_of_app. right.
  by rewrite <- (app_assoc rs).
Qed.

Lemma probeCodex_Err_key s h major index id codex e rest :
  probeCodex assembleCountKey txn s (h, major, index) (id, codex) = Err e ->
  (exists msg, e = StoreError msg)
  \/ exists q key, (e = SingleCountZero q \/ e = DoubleCountZero q)
       /\ (q, key) ∈ keysFrom assembleCountKey (probeList s id codex ++ rest)
                      (refs h) (length (cursors h)) major
       /\ uncounted (q, key).
Proof.
  unfold probeCodex, probeList. simpl.
  destruct (foldM _ (Codex.Single codex) _) as [[[h1 major1] codex1]|e1|] eqn:Hsingle;
    simpl; [| |done].
  - pose proof Hsingle as Hs'. apply probeRefs_Ok in Hs' as (n1 & _ & ->).
    rewrite account_fold_Double. simpl.
    apply (probeRefs_keys _ _ _ _ _ _ _ _
             (mjoin (snd <$> range (sProbe s id) (Codex.Double codex)) ++ rest)) in Hsingle
      as (keys & Hkeys & _).
    destruct (foldM _ (range _ _) _) as [[[h2 major2] codex2]|e2|] eqn:Hdouble;
      simpl; [done| |done].
    intros [= <-].
    apply (probeGroups_Err_key _ _ _ _ _ rest) in Hdouble
      as [?|(q & key & -> & Hin & Hzero)]; [by left|right].
    exists q, key. split_and!; [by right| |done].
    rewrite <- (app_assoc (Codex.Single codex)), Hkeys. apply elem_of_app. by right.
  - intros [= <-].
    apply (probeRefs_Err_key _ _ _ _ _ _
             (mjoin (snd <$> range (sProbe s id) (Codex.Double codex)) ++ rest)) in Hsingle
      as [?|(q & key & -> & Hin & Hzero)]; [by left|right].
    exists q, key. split_and!; [by left| |done]. by rewrite <- app_assoc.
Qed.

(** The reference that a count-of-zero error names was probed under a key
    of [probeKeys] that counts zero. *)
Lemma probePhase_Err_key s c h e :
  probePhase assembleCountKey txn s c h = Err e ->
  (exists msg, e = StoreError msg)
  \/ exists q key, (e = SingleCountZero q \/ e = DoubleCountZero q)
       /\ (q, key) ∈ probeKeys assembleCountKey s c h /\ uncounted (q, key).
Proof.
  unfold probePhase, probeKeys, probeWork.
  destruct (foldM _ _ _) as [[[h1 major1] index1]|e1|] eqn:Hloop; simpl; [done| |done].
  intros [= <-].
  apply foldM_Err in Hloop
    as (pre & [id codex] & post & [[h1 major1] index1] & -> & Hpre & Hstep).
  assert (forall entries h0 major0 index0 h2 major2 index2 rest,
            foldM (probeCodex assembleCountKey txn s) entries (h0, major0, index0)
            = Ok (h2, major2, index2) ->
            exists keys,
              keysFrom assembleCountKey
                (mjoin ((fun e : string * Codex.t => probeList s e.1 e.2) <$> entries) ++ rest)
                (refs h0) (length (cursors h0)) major0
              = keys ++ keysFrom assembleCountKey rest (refs h2) (length (cursors h2)) major2)
    as Hprefix.
  { induction entries as [|[id' codex'] entries IH]; intros h0 major0 index0 h2 major2 index2 rest.
    - intros [= <- <- <-]. by exists [].
    - intros ([[h3 major3] index3] & Hc & Hrest)%bind_Ok.
      apply (probeCodex_keys _ _ _ _ _ _ _ _ _
               (mjoin ((fun e : string * Codex.t => probeList s e.1 e.2) <$> entries) ++ rest))
        in Hc as (keys1 & Hkeys1 & _).
      apply (IH _ _ _ _ _ _ rest) in Hrest as (keys2 & Hkeys2).
      exists (keys1 ++ keys2).
      change (mjoin ((fun e : string * Codex.t => probeList s e.1 e.2) <$> (id', codex') :: entries))
        with (probeList s id' codex'
              ++ mjoin ((fun e : string * Codex.t => probeList s e.1 e.2) <$> entries)).
      rewrite <- (app_assoc (probeList s id' codex')), Hkeys1, Hkeys2. by rewrite app_assoc. }
  apply (Hprefix _ _ _ _ _ _ _
           (probeList s id codex
            ++ mjoin ((fun e : string * Codex.t => probeList s e.1 e.2) <$> post)))
    in Hpre as (keys & Hkeys).
  apply (probeCodex_Err_key _ _ _ _ _ _ _
           (mjoin ((fun e : string * Codex.t => probeList s e.1 e.2) <$> post))) in Hstep
    as [?|(q & key & He & Hin & Hzero)]; [by left|right].
  exists q, key. split_and!; [done| |done].
  rewrite fmap_app, join_app.
  change (mjoin ((fun e : string * Codex.t => probeList s e.1 e.2) <$> (id, codex) :: post))
    with (probeList s id codex
          ++ mjoin ((fun e : string * Codex.t => probeList s e.1 e.2) <$> post)).
  rewrite Hkeys. apply elem_of_app. by right.
Qed.

(** C5.  The probe phase reads, for the references of the Single lists and
    Double groups in the order of its loops, the keys of [probeKeys]: each
    key is assembled from the reference and from the flag that the keys
    before it left.  A key that is not in the store counts zero without an
    error.  When the count under one of these keys is zero,
    getAssignmentTree returns neither an order nor an assignment map; it
    returns an error, a count-of-zero error or an error of the store met
    before, whenever the store holds eight-byte counters and no pointer of
    the codex map is nil, which rules out a panic.  Every Single and Double
    reference has a key in [probeKeys], and the reference that a
    count-of-zero error names was probed under one of its keys that counts
    zero. *)
Theorem getAssignmentTree_zero_count s c h p key :
  (p, key) ∈ probeKeys assembleCountKey s c h ->
  getCount key txn = Ok 0%Z ->
  (forall key', txn key' = ErrKeyNotFound -> getCount key' txn = Ok 0%Z)
  /\ (exists id codex, CodexMap.Index c !! id = Some codex
        /\ (p ∈ Codex.Single codex
            \/ exists dep rs, Codex.Double codex !! dep = Some rs /\ p ∈ rs))
  /\ (forall out, getAssignmentTree assembleCountKey txn setValueRoot s c h ≠ Ok out)
  /\ (storeWellFormed txn -> referencesIn h c ->
      exists e, getAssignmentTree assembleCountKey txn setValueRoot s c h = Err e
        /\ ((exists msg, e = StoreError msg)
            \/ (exists q, e = SingleCountZero q) \/ (exists q, e = DoubleCountZero q)))
  /\ (referencesIn h c ->
      forall id codex q, CodexMap.Index c !! id = Some codex ->
        q ∈ Codex.Single codex \/ (exists dep rs, Codex.Double codex !! dep = Some rs /\ q ∈ rs) ->
        exists key', (q, key') ∈ probeKeys assembleCountKey s c h)
  /\ (forall q, getAssignmentTree assembleCountKey txn setValueRoot s c h = Err (SingleCountZero q)
                \/ getAssignmentTree assembleCountKey txn setValueRoot s c h
                   = Err (DoubleCountZero q) ->
        exists key', (q, key') ∈ probeKeys assembleCountKey s c h
          /\ getCount key' txn = Ok 0%Z).
Proof.
  intros Hkey Hzero.
  assert (forall out, probePhase assembleCountKey txn s c h ≠ Ok out) as Hno.
  { intros [c1 h1] Hprobe. apply probePhase_keys in Hprobe.
    destruct (proj1 (Forall_forall _ _) Hprobe (p, key) Hkey) as (n & Hn & Hnz).
    simpl in Hn. congruence. }
  split_and!.
  - intros key' Hkey'. unfold getCount. by rewrite Hkey'.
  - apply elem_of_keysFrom_1, elem_of_probeWork in Hkey as (id & codex & Hid & Hp).
    exists id, codex. split; [done|]. by apply elem_of_probeList in Hp.
  - intros [[c' h'] idx] (c1 & h1 & Hprobe & _)%getAssignmentTree_Ok. by eapply Hno.
  - intros Hwf Hin.
    assert (probePhase assembleCountKey txn s c h ≠ Panic) as Hsafe
      by by apply probePhase_no_panic.
    unfold getAssignmentTree.
    destruct (probePhase assembleCountKey txn s c h) as [out|e|] eqn:Hprobe; simpl;
      [by destruct (Hno out)| |done].
    exists e. split; [done|].
    apply (probePhase_Err _ _ setValueRoot) in Hprobe
      as [(k & msg & -> & _)|[(? & ? & q & _ & _ & -> & _)|(? & ? & ? & ? & q & _ & _ & _ & -> & _)]].
    + left. by exists msg.
    + right; left. by exists q.
    + right; right. by exists q.
  - intros Hin id codex q Hid Hq. apply elem_of_keysFrom_2.
    + intros p' (id' & codex' & Hid' & Hp')%elem_of_probeWork.
      apply elem_of_probeList in Hp'. apply lookup_lt_is_Some. by eapply Hin.
    + apply elem_of_probeWork. exists id, codex. split; [done|]. by apply elem_of_probeList.
  - intros q Hq.
    assert (exists e, probePhase assembleCountKey txn s c h = Err e
              /\ (e = SingleCountZero q \/ e = DoubleCountZero q)) as (e & Hprobe & He).
    { unfold getAssignmentTree in Hq.
      destruct (probePhase assembleCountKey txn s c h) as [[c1 h1]|e|] eqn:Hprobe;
        simpl in Hq.
      - exfalso. destruct (Stable c1) as [c2| |] eqn:Hsort; simpl in Hq;
          [|by unfold Stable in Hsort; case_decide|by destruct Hq].
        destruct (resolvePhase setValueRoot s c2 h1) as [[h2 index]|e2|] eqn:Hres;
          simpl in Hq; [by destruct Hq| |by destruct Hq].
        apply resolvePhase_Err in Hres as (id & _ & ->). by destruct Hq.
      - exists e. split; [done|]. destruct Hq as [[= ->]|[= ->]]; [by left|by right].
      - by destruct Hq. }
    apply probePhase_Err_key in Hprobe as [[msg ->]|(q' & key' & He' & Hin & Hz)].
    + by destruct He.
    + exists key'. split; [|done].
      assert (q' = q) as -> by (destruct He as [->| ->], He' as [[= ->]|[= ->]]; done).
      done.
Qed.

End ZeroCount.

Lemma getAssignmentTree_zero_count_witness :
  (0, [x00%byte]) ∈ probeKeys flipKey sched0 tinyMap tinyHeap
  /\ getCount [x00%byte] storeOfMajor = Ok 0%Z
  /\ exists e,
       getAssignmentTree (V := unit) flipKey storeOfMajor (fun _ _ => Some tt) sched0
         tinyMap tinyHeap = Err e.
Proof.
  assert ((0, [x00%byte]) ∈ probeKeys flipKey sched0 tinyMap tinyHeap) as Hkey.
  { vm_compute. left. }
  assert (getCount [x00%byte] storeOfMajor = Ok 0%Z) as Hzero by reflexivity.
  split; [exact Hkey|]. split; [exact Hzero|].
  destruct (proj1 (proj2 (proj2 (proj2
              (getAssignmentTree_zero_count flipKey storeOfMajor (fun _ _ => Some tt)
                 sched0 tinyMap tinyHeap 0 [x00%byte] Hkey Hzero)))))
    as (e & He & _).
  - intros key count Hcount. unfold storeOfMajor in Hcount.
    destruct key as [|b [|b' key]]; [discriminate Hcount| |];
      destruct b; try discriminate Hcount.
    injection Hcount as <-. simpl. lia.
  - intros id codex p Hid Hp. unfold tinyMap in Hid. simpl in Hid.
    apply lookup_singleton_Some in Hid as [_ <-]. simpl in Hp.
    destruct Hp as [Hp|(dep & rs & Hrs & _)].
    + apply list_elem_of_singleton in Hp as ->. eexists. reflexivity.
    + rewrite lookup_empty in Hrs. discriminate Hrs.
  - exists e. exact He.
Defined.

(** ** The order of the variables *)

Lemma StronglySorted_lookup_rel {A} (R : relation A) (l : list A) i j x y :
  StronglySorted R l -> l !! i = Some x -> l !! j = Some y -> i < j -> R x y.
Proof.
  intros Hsorted. revert i j. induction Hsorted as [|z l Hsorted IH Hall]; intros i j Hi Hj Hlt.
  - by rewrite lookup_nil in Hi.
  - destruct j as [|j]; [lia|]. simpl in Hj. destruct i as [|i]; simpl in Hi.
    + injection Hi as <-.
      exact (proj1 (Forall_forall _ _) Hall y (list_elem_of_lookup_2 _ _ _ Hj)).
    + apply (IH i j); [done|done|lia].
Qed.

(** An element of a filtered list stands in the list itself, between the
    elements that the filter keeps before and behind it. *)
Lemma filter_app_cons_inv {A} (P : A -> Prop) `{!forall x, Decision (P x)}
    (l m1 m2 : list A) x :
  filter P l = m1 ++ x :: m2 ->
  exists l1 l2, l = l1 ++ x :: l2 /\ filter P l1 = m1 /\ filter P l2 = m2.
Proof.
  revert m1. induction l as [|a l IH]; intros m1 Hl.
  - by destruct m1.
  - rewrite filter_cons in Hl. destruct (decide (P a)) as [Ha|Ha].
    + destruct m1 as [|b m1]; simpl in Hl.
      * injection Hl as -> Hl. by exists [], l.
      * injection Hl as -> Hl. apply IH in Hl as (l1 & l2 & -> & H1 & H2).
        exists (b :: l1), l2. split_and!; [done| |done].
        by rewrite filter_cons_True, H1.
    + apply IH in Hl as (l1 & l2 & -> & H1 & H2).
      exists (a :: l1), l2. split_and!; [done| |done].
      by rewrite filter_cons_False.
Qed.

Lemma firstSeen_app seen l1 l2 :
  firstSeen seen (l1 ++ l2) = firstSeen (firstSeen seen l1) l2.
Proof. apply foldl_app. Qed.

Section StableOrder.
Context {V : Type}.
Variable perms : Permutations.
Variable assembleCountKey : Reference.t -> bool -> list byte * bool.
Variable txn : Txn.
Variable setValueRoot : Heap -> Assignment.t V -> option V.

(** GetCodex appends an id to the Slice when it has no codex yet, which in
    a well-formed map is when the Slice does not hold it. *)
Lemma updCodex_firstSeen f c id :
  wellFormed c -> CodexMap.Slice (updCodex f c id) = firstSeen (CodexMap.Slice c) [id].
Proof.
  intros (_ & Hdom & _). rewrite Slice_updCodex. unfold firstSeen. simpl.
  destruct (decide (is_Some (CodexMap.Index c !! id))) as [Hid|Hid];
    destruct (decide (id ∈ CodexMap.Slice c)) as [Hin|Hin]; try done.
  - by apply Hdom in Hid.
  - by apply Hdom in Hin.
Qed.

Lemma classify_firstSeen graph h constants c index q h' constants' c' :
  classify perms graph (h, constants, c) index q = Ok (h', constants', c') ->
  wellFormed c ->
  CodexMap.Slice c' = firstSeen (CodexMap.Slice c) (variablesOf q).
Proof.
  intros Hrun Hwf.
  apply classify_shape in Hrun
    as [(r & -> & _ & _ & _ & _ & _ & ->)
       |[(r & a & -> & _ & _ & _ & _ & _ & ->)
        |[(r & a & -> & _ & _ & _ & _ & _ & ->)
         |(rA & rB & a & b & Hab & -> & _ & _ & _ & _ & _ & _ & _ & ->)]]].
  - done.
  - by apply updCodex_firstSeen.
  - rewrite updCodex_firstSeen by done. unfold firstSeen. simpl.
    destruct (decide (a ∈ CodexMap.Slice c)) as [Hin|Hin].
    + by rewrite decide_True.
    + rewrite decide_True; [done|]. apply elem_of_app. right. by left.
  - rewrite (InsertDouble_updCodex (InsertDouble c a b _) b a).
    rewrite updCodex_firstSeen by by apply wellFormed_InsertDouble.
    rewrite InsertDouble_updCodex, updCodex_firstSeen by done.
    done.
Qed.

(** The inner loop of getInitalCodexMap. *)
Lemma classifyAll_firstSeen graph quads i st st' :
  foldMi (classify perms graph) i quads st = Ok st' -> classified st ->
  classified st'
  /\ CodexMap.Slice st'.2 = firstSeen (CodexMap.Slice st.2) (mjoin (variablesOf <$> quads)).
Proof.
  revert i st. induction quads as [|q quads IH]; intros i st; simpl.
  - by intros [= <-].
  - intros (st1 & Hq & Hrest)%bind_Ok Hst.
    assert (classified st1) as Hst1 by by eapply classify_classified.
    apply IH in Hrest as [Hst' ->]; [|done]. split; [done|].
    rewrite firstSeen_app. f_equal.
    destruct st as [[h constants] c], st1 as [[h1 constants1] c1].
    exact (classify_firstSeen _ _ _ _ _ _ _ _ _ Hq (proj1 Hst)).
Qed.

(** The outer loop of getInitalCodexMap. *)
Lemma classifyGraphs_firstSeen (graphs : list (string * list Quad)) st st' :
  foldM (fun st '(graph, quads) => foldMi (classify perms graph) 0 quads st) graphs st
  = Ok st' ->
  classified st ->
  classified st'
  /\ CodexMap.Slice st'.2
     = firstSeen (CodexMap.Slice st.2) (mjoin (variablesOf <$> mjoin (snd <$> graphs))).
Proof.
  revert st. induction graphs as [|[graph quads] graphs IH]; intros st.
  - by intros [= <-].
  - intros (st1 & Hquads & Hrest)%bind_Ok Hst.
    apply classifyAll_firstSeen in Hquads as [Hst1 Hslice]; [|done].
    apply IH in Hrest as [Hst' ->]; [|done]. split; [done|].
    change (mjoin (snd <$> (graph, quads) :: graphs))
      with (quads ++ mjoin (snd <$> graphs)).
    by rewrite fmap_app, join_app, firstSeen_app, Hslice.
Qed.

(** Classification leaves the variables in the Slice in the order in which
    the statements first name them. *)
Lemma getInitalCodexMap_firstSeen s dataset h constants c :
  getInitalCodexMap perms s dataset = Ok (h, constants, c) ->
  CodexMap.Slice c = firstSeen [] (variablesInOrder (sGraphs s) dataset).
Proof.
  unfold getInitalCodexMap.
  intros [_ Hslice]%classifyGraphs_firstSeen; [done|apply classified_zero].
Qed.

(** After a run that returns, every variable of the order has a codex. *)
Lemma getAssignmentTree_codex s c h c' h' (idx : gmap string (Assignment.t V)) id :
  getAssignmentTree assembleCountKey txn setValueRoot s c h = Ok (c', h', idx) ->
  id ∈ CodexMap.Slice c' -> is_Some (CodexMap.Index c' !! id).
Proof.
  intros (c1 & h1 & _ & _ & Hres)%getAssignmentTree_Ok Hid.
  apply resolvePhase_keys in Hres as [Hdom Hcodex].
  apply Hdom in Hid as [a Ha]. apply Hcodex in Ha as (codex & Hid & _). by exists codex.
Qed.

End StableOrder.

Section OrderOfVariables.
Context {V : Type}.
Variable assembleCountKey : Reference.t -> bool -> list byte * bool.
Variable txn : Txn.
Variable setValueRoot : Heap -> Assignment.t V -> option V.

(** C3.  Let getAssignmentTree return on the codex map [c], leaving the map
    [c'] whose Slice is the returned order.  The returned order is a
    rearrangement of the Slice of [c].  It descends by Count: of two
    positions of the returned order, the variable at the earlier one has a
    codex whose Count field, as the call left it, is at least that of the
    variable at the later one.  The sort is stable: two variables whose
    codexes have the same Count, the first somewhere before the second in
    the Slice of [c], stand in that order in the returned Slice too.  And
    the Slice before the sort is the order of first sight: when [c] is the
    map that getInitalCodexMap built from a dataset, its Slice lists the
    variables in the order in which the statements first name them, every
    variable once, the statements taken graph by graph in the visiting order
    of dataset.Graphs and the positions of a statement in the order subject,
    predicate, object. *)
Theorem getAssignmentTree_sorts_stably s c h c' h' (idx : gmap string (Assignment.t V)) :
  getAssignmentTree assembleCountKey txn setValueRoot s c h = Ok (c', h', idx) ->
  CodexMap.Slice c' ≡ₚ CodexMap.Slice c
  /\ (forall i j x y,
        i < j -> CodexMap.Slice c' !! i = Some x -> CodexMap.Slice c' !! j = Some y ->
        exists A B, CodexMap.Index c' !! x = Some A /\ CodexMap.Index c' !! y = Some B
          /\ (Codex.Count A >= Codex.Count B)%Z)
  /\ (forall x y A B l1 l2 l3,
        CodexMap.Slice c = l1 ++ x :: l2 ++ y :: l3 ->
        CodexMap.Index c' !! x = Some A -> CodexMap.Index c' !! y = Some B ->
        Codex.Count A = Codex.Count B ->
        exists l1' l2' l3', CodexMap.Slice c' = l1' ++ x :: l2' ++ y :: l3')
  /\ (forall perms s0 dataset h0 constants,
        getInitalCodexMap perms s0 dataset = Ok (h0, constants, c) ->
        CodexMap.Slice c = firstSeen [] (variablesInOrder (sGraphs s0) dataset)
        /\ NoDup (CodexMap.Slice c)).
Proof.
  intros Hrun.
  assert (forall id, id ∈ CodexMap.Slice c' -> is_Some (CodexMap.Index c' !! id)) as Hhas.
  { intros id. by eapply getAssignmentTree_codex. }
  apply getAssignmentTree_Ok in Hrun as (c1 & h1 & Hprobe & Hsort & _).
  apply probePhase_Slice in Hprobe. apply Stable_Ok in Hsort as [Hindex Hslice].
  destruct (sortStable_spec (fun id => - countOf c1 id)%Z (Less c1))
    with (l := CodexMap.Slice c1) as (Hsorted & Hperm & Hfilter).
  { intros x y. unfold Less. rewrite bool_decide_eq_true. lia. }
  rewrite <- Hslice in Hsorted, Hperm, Hfilter. rewrite Hprobe in Hperm, Hfilter.
  assert (forall id codex, CodexMap.Index c' !! id = Some codex ->
            countOf c1 id = Codex.Count codex) as Hcount.
  { intros id codex Hid. unfold countOf. by rewrite <- Hindex, Hid. }
  split_and!.
  - done.
  - intros i j x y Hij Hi Hj.
    destruct (Hhas x) as [A HA]; [by eapply list_elem_of_lookup_2|].
    destruct (Hhas y) as [B HB]; [by eapply list_elem_of_lookup_2|].
    exists A, B. split_and!; [done..|].
    pose proof (StronglySorted_lookup_rel _ _ _ _ _ _ Hsorted Hi Hj Hij) as Hle.
    simpl in Hle. rewrite (Hcount _ _ HA), (Hcount _ _ HB) in Hle. lia.
  - intros x y A B l1 l2 l3 Hl HA HB Heq.
    specialize (Hfilter (- Codex.Count A)%Z). rewrite Hl in Hfilter.
    rewrite filter_app, filter_cons_True in Hfilter by by rewrite (Hcount _ _ HA).
    rewrite filter_app, filter_cons_True in Hfilter
      by by rewrite (Hcount _ _ HB), Heq.
    apply filter_app_cons_inv in Hfilter as (l1' & rest & -> & _ & Hrest).
    apply filter_app_cons_inv in Hrest as (l2' & l3' & -> & _ & _).
    by exists l1', l2', l3'.
  - intros perms s0 dataset h0 constants Hinit. split.
    + by eapply getInitalCodexMap_firstSeen.
    + apply getInitalCodexMap_classified in Hinit. apply Hinit.
Qed.

End OrderOfVariables.

Lemma getAssignmentTree_sorts_stably_witness :
  exists c h c' h' idx,
    getInitalCodexMap somePermutations sched0 ranked = Ok (h, [], c)
    /\ getAssignmentTree plainKey storeOfOnes (fun _ _ => Some tt) sched0 c h
       = Ok (c', h', idx)
    /\ CodexMap.Slice c = ["x"; "y"; "z"]
    /\ CodexMap.Slice c' = ["y"; "x"; "z"]
    /\ (exists A B, CodexMap.Index c' !! "y" = Some A /\ CodexMap.Index c' !! "x" = Some B
          /\ (Codex.Count A >= Codex.Count B)%Z)
    /\ (exists l1 l2 l3, CodexMap.Slice c' = l1 ++ "x" :: l2 ++ "z" :: l3).
Proof.
  destruct (getInitalCodexMap somePermutations sched0 ranked)
    as [[[h constants] c]| |] eqn:E0; [|by vm_compute in E0..].
  pose proof E0 as E0'. vm_compute in E0'. injection E0' as <- <- <-.
  match type of E0 with
  | _ = Ok (?h, _, ?c) =>
      destruct (getAssignmentTree (V := unit) plainKey storeOfOnes (fun _ _ => Some tt)
                  sched0 c h)
        as [[[c' h'] idx]| |] eqn:E; [|by vm_compute in E..]
  end.
  pose proof E as E'. vm_compute in E'. injection E' as <- <- <-.
  destruct (getAssignmentTree_sorts_stably _ _ _ _ _ _ _ _ _ E)
    as (_ & Hdescends & Hstable & Hfirst).
  eexists _, _, _, _, _. split; [exact E0|]. split; [exact E|].
  split; [exact (proj1 (Hfirst _ _ _ _ _ E0))|]. split; [reflexivity|]. split.
  - exact (Hdescends 0 1 "y" "x" ltac:(lia) eq_refl eq_refl).
  - eapply (Hstable "x" "z" _ _ [] ["y"] []); reflexivity.
Defined.
